(** * BV-BRC Go SDK: the data-query engine

    A shallow embedding of [api/query.go] (the query model and the RQL
    encoder), of the registry tables, of [api/client.go] (transport with
    retry, pagination, count, callback and stream retrieval) and of what
    the commands put around them (the data options and the tab-delimited
    input and output of [internal/cli]), followed by the properties of the
    specification stated over it and by further properties of the code.

    Conventions.
    - A Go [string] is a sequence of bytes: Rocq's [string] (a list of
      [ascii]).
    - A Go [int] is a [Z]; where the source can overflow on a value the
      caller controls (the backoff duration) the 64-bit wrap-around is
      written out.
    - Slices are modelled twice: as plain lists where only their contents
      matter (module [RQL] and the client), and as views on arrays of a
      store where aliasing matters (module [Mem]). *)

From Stdlib Require Import ZArith Lia List Bool Ascii String.
From stdpp Require Import base option list gmap strings.

Import ListNotations.
Local Open Scope string_scope.
Local Open Scope list_scope.
Local Open Scope Z_scope.

(** stdpp keeps [simpl] from unfolding string concatenation; the proofs
    below compute with it. *)
#[local] Arguments String.append !_ _.

(** ** Strings *)

Module Str.

(** [strings.Join]. *)
Fixpoint Join (elems : list string) (sep : string) : string :=
  match elems with
  | [] => ""
  | [x] => x
  | x :: rest => x +:+ sep +:+ Join rest sep
  end.

Fixpoint hasPrefix (p s : string) : bool :=
  match p, s with
  | EmptyString, _ => true
  | String a p', String b s' => if Ascii.eqb a b then hasPrefix p' s' else false
  | String _ _, EmptyString => false
  end.

(** [strings.ReplaceAll s old new] for a non-empty [old]: occurrences are
    replaced left to right without overlap; [skip] counts the bytes of a
    replaced occurrence still to be dropped. *)
Fixpoint replaceFrom (skip : nat) (old new s : string) : string :=
  match s with
  | EmptyString => EmptyString
  | String c s' =>
      match skip with
      | S k => replaceFrom k old new s'
      | O =>
          if hasPrefix old s
          then new +:+ replaceFrom (Nat.pred (String.length old)) old new s'
          else String c (replaceFrom O old new s')
      end
  end.

Definition ReplaceAll (s old new : string) : string := replaceFrom O old new s.

(** Concatenation of the images of the bytes of [s]. *)
Fixpoint flatMap (f : ascii -> string) (s : string) : string :=
  match s with
  | EmptyString => EmptyString
  | String c s' => f c +:+ flatMap f s'
  end.

Fixpoint contains (c : ascii) (s : string) : bool :=
  match s with
  | EmptyString => false
  | String d s' => if Ascii.eqb c d then true else contains c s'
  end.

Definition isDigit (c : ascii) : bool :=
  let n := N_of_ascii c in ((48 <=? n) && (n <=? 57))%N.

(** [\s] of Go's regexp syntax: [\t\n\f\r ]. *)
Definition isSpace (c : ascii) : bool :=
  let n := N_of_ascii c in
  ((n =? 9) || (n =? 10) || (n =? 12) || (n =? 13) || (n =? 32))%N.


(** The bytes of [s] in reverse order. *)
Fixpoint rev (s : string) : string :=
  match s with
  | EmptyString => EmptyString
  | String c s' => rev s' +:+ String c ""
  end.

(** The text before the first byte [sep] of [s] and the text after it;
    [None] when [s] has no such byte ([strings.Index] gives -1). *)
Fixpoint cut (sep : ascii) (s : string) : option (string * string) :=
  match s with
  | EmptyString => None
  | String c s' =>
      if Ascii.eqb c sep then Some (EmptyString, s')
      else match cut sep s' with
           | Some (before, after) => Some (String c before, after)
           | None => None
           end
  end.

(** [strings.Count(s, sep)] for a separator of one byte. *)
Fixpoint count (sep : ascii) (s : string) : nat :=
  match s with
  | EmptyString => O
  | String c s' => if Ascii.eqb c sep then S (count sep s') else count sep s'
  end.

(** The loop of [strings.genSplit]: at most [k] cuts, then the rest. *)
Fixpoint genSplit (sep : ascii) (k : nat) (s : string) : list string :=
  match k with
  | O => [s]
  | S k' =>
      match cut sep s with
      | None => [s]
      | Some (before, after) => before :: genSplit sep k' after
      end
  end.

(** [strings.SplitN(s, sep, n)] for a separator of one byte, which is
    what the source passes: nothing for [n = 0], every piece for
    [n < 0], and otherwise at most [n] pieces, the last one unsplit. *)
Definition SplitN (s : string) (sep : ascii) (n : Z) : list string :=
  if n =? 0 then []
  else
    let n := if n <? 0 then Z.of_nat (count sep s) + 1 else n in
    let n := if Z.of_nat (String.length s) + 1 <? n
             then Z.of_nat (String.length s) + 1 else n in
    genSplit sep (Z.to_nat (n - 1)) s.

(** [strings.Split(s, sep)]. *)
Definition Split (s : string) (sep : ascii) : list string := SplitN s sep (-1).

(** Every byte of [s] is of the class. *)
Fixpoint all (cls : ascii -> bool) (s : string) : bool :=
  match s with
  | EmptyString => true
  | String c s' => cls c && all cls s'
  end.

(** [strings.HasSuffix] and [strings.TrimSuffix]. *)
Definition hasSuffix (s suffix : string) : bool := hasPrefix (rev suffix) (rev s).

Definition TrimSuffix (s suffix : string) : string :=
  if hasSuffix s suffix
  then substring 0 (String.length s - String.length suffix) s
  else s.

(** [strings.TrimLeft] and [strings.TrimRight] for a cutset of ASCII
    bytes: the leading (trailing) bytes of the cutset are dropped. *)
Fixpoint TrimLeft (s cutset : string) : string :=
  match s with
  | EmptyString => EmptyString
  | String c s' => if contains c cutset then TrimLeft s' cutset else s
  end.

Definition TrimRight (s cutset : string) : string :=
  rev (TrimLeft (rev s) cutset).

End Str.

(** ** [net/url]: query escaping

    [url.QueryEscape] belongs to Go's standard library. Its behaviour is
    transcribed from [net/url]: [escape s encodeQueryComponent] keeps the
    unreserved bytes [A-Za-z0-9-_.~], writes a space as [+] and every other
    byte as [%XX] with upper-case hexadecimal digits. *)

Module URL.

Definition upperhex : string := "0123456789ABCDEF".

Definition hexDigit (n : N) : ascii :=
  match String.get (N.to_nat n) upperhex with
  | Some c => c
  | None => "0"%char
  end.

Definition isAlnum (c : ascii) : bool :=
  let n := N_of_ascii c in
  (((97 <=? n) && (n <=? 122)) || ((65 <=? n) && (n <=? 90))
   || ((48 <=? n) && (n <=? 57)))%N.

(** [shouldEscape c encodeQueryComponent]. *)
Definition shouldEscape (c : ascii) : bool :=
  if isAlnum c then false
  else
    let n := N_of_ascii c in
    if ((n =? 45) || (n =? 95) || (n =? 46) || (n =? 126))%N then false
    else true.

Definition escapeByte (c : ascii) : string :=
  if shouldEscape c then
    if Ascii.eqb c " "%char then "+"
    else
      let n := N_of_ascii c in
      String "%"%char
        (String (hexDigit (N.shiftr n 4)) (String (hexDigit (N.land n 15)) ""))
  else String c "".

Definition QueryEscape (s : string) : string := Str.flatMap escapeByte s.

(** Plain percent-decoding ([url.PathUnescape] on well-formed input): a
    [%XX] triple is one byte, every other byte stands for itself; in
    particular [+] is not read as a space. Used to state that an encoded
    value still determines the value. *)
Definition unhex (c : ascii) : N :=
  let n := N_of_ascii c in
  if ((48 <=? n) && (n <=? 57))%N then (n - 48)%N
  else if ((97 <=? n) && (n <=? 102))%N then (n - 97 + 10)%N
  else if ((65 <=? n) && (n <=? 70))%N then (n - 65 + 10)%N
  else 0%N.

Fixpoint percentDecode (s : string) : string :=
  match s with
  | EmptyString => EmptyString
  | String c rest =>
      if Ascii.eqb c "%"%char then
        match rest with
        | String h (String l rest') =>
            String (ascii_of_N (N.lor (N.shiftl (unhex h) 4) (unhex l)))
                   (percentDecode rest')
        | _ => String c (percentDecode rest)
        end
      else String c (percentDecode rest)
  end.

End URL.

(** ** [api/query.go]: the query model and the RQL encoder

    The value-level model: a slice is the list of its elements. A method
    with a pointer receiver that mutates the query and returns the receiver
    becomes a function to the updated query. *)

Module RQL.

(** [type FilterOp string] and its constants. *)
Definition FilterOp := string.
Definition OpEq : FilterOp := "eq".
Definition OpNe : FilterOp := "ne".
Definition OpLt : FilterOp := "lt".
Definition OpLe : FilterOp := "le".
Definition OpGt : FilterOp := "gt".
Definition OpGe : FilterOp := "ge".
Definition OpIn : FilterOp := "in".

Module Filter.
Record t := mk {
  Op : FilterOp;
  Field : string;
  Value : string;          (* single-value operators *)
  Values : list string     (* multi-value operators (in) *)
}.
Definition zero : t := mk "" "" "" [].
End Filter.

Module SortSpec.
Record t := mk {
  Field : string;
  Descending : bool
}.
Definition zero : t := mk "" false.
End SortSpec.

Record Query := mkQuery {
  SelectFields : list string;
  Filters : list Filter.t;
  RequiredFields : list string;
  Keyword : string;
  SortSpecs : list SortSpec.t;
  LimitValue : Z
}.

Definition NewQuery : Query := mkQuery [] [] [] "" [] 0.

Definition addFilter (q : Query) (f : Filter.t) : Query :=
  mkQuery (SelectFields q) (Filters q ++ [f]) (RequiredFields q)
          (Keyword q) (SortSpecs q) (LimitValue q).

Definition Select (q : Query) (fields : list string) : Query :=
  mkQuery (SelectFields q ++ fields) (Filters q) (RequiredFields q)
          (Keyword q) (SortSpecs q) (LimitValue q).

Definition Eq (q : Query) (field value : string) : Query :=
  addFilter q (Filter.mk OpEq field value []).
Definition Ne (q : Query) (field value : string) : Query :=
  addFilter q (Filter.mk OpNe field value []).
Definition Lt (q : Query) (field value : string) : Query :=
  addFilter q (Filter.mk OpLt field value []).
Definition Le (q : Query) (field value : string) : Query :=
  addFilter q (Filter.mk OpLe field value []).
Definition Gt (q : Query) (field value : string) : Query :=
  addFilter q (Filter.mk OpGt field value []).
Definition Ge (q : Query) (field value : string) : Query :=
  addFilter q (Filter.mk OpGe field value []).
Definition In (q : Query) (field : string) (values : list string) : Query :=
  addFilter q (Filter.mk OpIn field "" values).

Definition Required (q : Query) (fields : list string) : Query :=
  mkQuery (SelectFields q) (Filters q) (RequiredFields q ++ fields)
          (Keyword q) (SortSpecs q) (LimitValue q).

Definition WithKeyword (q : Query) (keyword : string) : Query :=
  mkQuery (SelectFields q) (Filters q) (RequiredFields q)
          keyword (SortSpecs q) (LimitValue q).

Definition Sort (q : Query) (field : string) (descending : bool) : Query :=
  mkQuery (SelectFields q) (Filters q) (RequiredFields q)
          (Keyword q) (SortSpecs q ++ [SortSpec.mk field descending])
          (LimitValue q).

Definition Limit (q : Query) (n : Z) : Query :=
  mkQuery (SelectFields q) (Filters q) (RequiredFields q)
          (Keyword q) (SortSpecs q) n.

(** [encodeRQLValue]: query-escape, then every [+] becomes [%20]. *)
Definition encodeRQLValue (s : string) : string :=
  let encoded := URL.QueryEscape s in
  let encoded := Str.ReplaceAll encoded "+" "%20" in
  encoded.

(** [Build]: [parts] is the slice the source appends to, clause by
    clause; each [for ... range] is a left fold. *)
Definition Build (q : Query) : string :=
  let parts : list string := [] in
  let parts :=
    if (0 <? length (SelectFields q))%nat
    then parts ++ ["select(" +:+ Str.Join (SelectFields q) "," +:+ ")"]
    else parts in
  let parts :=
    fold_left
      (fun parts f =>
         let part :=
           if String.eqb (Filter.Op f) OpIn then
             let encodedValues :=
               fold_left (fun acc v => acc ++ [encodeRQLValue v])
                         (Filter.Values f) [] in
             "in(" +:+ Filter.Field f +:+ ",(" +:+
               Str.Join encodedValues "," +:+ "))"
           else
             Filter.Op f +:+ "(" +:+ Filter.Field f +:+ "," +:+
               encodeRQLValue (Filter.Value f) +:+ ")" in
         parts ++ [part])
      (Filters q) parts in
  let parts :=
    fold_left (fun parts field => parts ++ ["ne(" +:+ field +:+ ",)"])
              (RequiredFields q) parts in
  let parts :=
    if negb (String.eqb (Keyword q) "")
    then parts ++ ["keyword(" +:+ encodeRQLValue (Keyword q) +:+ ")"]
    else parts in
  let parts :=
    if (0 <? length (SortSpecs q))%nat then
      let sortFields :=
        fold_left
          (fun acc s =>
             let prefix := if SortSpec.Descending s then "-" else "+" in
             acc ++ [prefix +:+ SortSpec.Field s])
          (SortSpecs q) [] in
      parts ++ ["sort(" +:+ Str.Join sortFields "," +:+ ")"]
    else parts in
  Str.Join parts "&".

Definition HasFilters (q : Query) : bool :=
  (0 <? length (Filters q))%nat || (0 <? length (RequiredFields q))%nat
  || negb (String.eqb (Keyword q) "").

(** [make([]T, n)] and the built-in [copy], on contents. *)
Definition make {A} (zero : A) (n : nat) : list A := repeat zero n.
Definition copy {A} (dst src : list A) : list A :=
  firstn (length dst) src ++ skipn (length src) dst.

Definition Clone (q : Query) : Query :=
  mkQuery
    (copy (make "" (length (SelectFields q))) (SelectFields q))
    (copy (make Filter.zero (length (Filters q))) (Filters q))
    (copy (make "" (length (RequiredFields q))) (RequiredFields q))
    (Keyword q)
    (copy (make SortSpec.zero (length (SortSpecs q))) (SortSpecs q))
    (LimitValue q).

(** The errors of the two parsers below; the source formats the
    specification into the message with [%q]. *)
Inductive specError :=
| ErrFilterSpec (spec : string)      (* "invalid filter specification: ..." *)
| ErrInFilterSpec (spec : string).   (* "invalid in-filter specification: ..." *)

(** [ParseFilterSpec]: the triple [(field, value, err)]. *)
Definition ParseFilterSpec (spec : string) : string * string * option specError :=
  let parts := Str.SplitN spec "," 2 in
  if negb (length parts =? 2)%nat then ("", "", Some (ErrFilterSpec spec))
  else (nth 0 parts "", nth 1 parts "", None).

(** [ParseInFilterSpec]: the triple [(field, values, err)]. *)
Definition ParseInFilterSpec (spec : string)
  : string * list string * option specError :=
  let parts := Str.Split spec "," in
  if (length parts <? 2)%nat then ("", [], Some (ErrInFilterSpec spec))
  else (nth 0 parts "", drop 1 parts, None).

(** *** The encoder as the specification words it

    One clause list per section of the query, concatenated in the fixed
    order and joined by [&]. *)
Definition selectClause (q : Query) : list string :=
  match SelectFields q with
  | [] => []
  | fs => ["select(" +:+ Str.Join fs "," +:+ ")"]
  end.

Definition filterClause (f : Filter.t) : string :=
  if String.eqb (Filter.Op f) OpIn
  then "in(" +:+ Filter.Field f +:+ ",(" +:+
       Str.Join (map encodeRQLValue (Filter.Values f)) "," +:+ "))"
  else Filter.Op f +:+ "(" +:+ Filter.Field f +:+ "," +:+
       encodeRQLValue (Filter.Value f) +:+ ")".

(** The encoding of one byte of a value: unreserved bytes stand for
    themselves, every other byte, the space included, is [%XX]. *)
Definition encodeByte (c : ascii) : string :=
  if URL.shouldEscape c then
    let n := N_of_ascii c in
    String "%"%char
      (String (URL.hexDigit (N.shiftr n 4)) (String (URL.hexDigit (N.land n 15)) ""))
  else String c "".

Definition requiredClause (field : string) : string := "ne(" +:+ field +:+ ",)".

Definition keywordClause (q : Query) : list string :=
  if String.eqb (Keyword q) "" then []
  else ["keyword(" +:+ encodeRQLValue (Keyword q) +:+ ")"].

Definition sortTerm (s : SortSpec.t) : string :=
  (if SortSpec.Descending s then "-" else "+") +:+ SortSpec.Field s.

Definition sortClause (q : Query) : list string :=
  match SortSpecs q with
  | [] => []
  | ss => ["sort(" +:+ Str.Join (map sortTerm ss) "," +:+ ")"]
  end.

(** The bytes an encoded value can hold: the unreserved ones and [%]. *)
Definition plainByte (c : ascii) : bool :=
  negb (URL.shouldEscape c) || Ascii.eqb c "%".

(** No name of the query holds the byte [c]: the selected, required and
    sorted fields, and the operator and field of every filter. Values
    and the keyword are not names. *)
Definition namesFree (c : ascii) (q : Query) : Prop :=
  Forall (fun name => Str.contains c name = false) (SelectFields q)
  /\ Forall (fun f => Str.contains c (Filter.Op f) = false
                      /\ Str.contains c (Filter.Field f) = false) (Filters q)
  /\ Forall (fun name => Str.contains c name = false) (RequiredFields q)
  /\ Forall (fun s => Str.contains c (SortSpec.Field s) = false) (SortSpecs q).

Definition clausesInOrder (q : Query) : list string :=
  selectClause q ++ map filterClause (Filters q)
    ++ map requiredClause (RequiredFields q)
    ++ keywordClause q ++ sortClause q.

End RQL.

(** ** [cli]: the data options of the command-line tools

    [DataOptions.BuildQuery] and [BuildQueryWithFields] are the callers of
    the query builder and of the two parsers: they turn the flags of a
    command into a query. The pair [(q, nil)] is [inl q], the pair
    [(nil, err)] is [inr err]. *)

Module Cli.

Record DataOptions := mkDataOptions {
  Attr : list string;
  Count : bool;
  Fields : bool;
  Equal : list string;
  Lt : list string;
  Le : list string;
  Gt : list string;
  Ge : list string;
  Ne : list string;
  In : list string;
  Required : list string;
  Keyword : string;
  Limit : Z;
  Debug : bool
}.

Definition result : Type := RQL.Query + RQL.specError.

Definition andThen (r : result) (k : RQL.Query -> result) : result :=
  match r with
  | inl q => k q
  | inr e => inr e
  end.

Declare Scope cli_scope.
Delimit Scope cli_scope with cli.
Notation "q <- r ;; k" := (andThen r (fun q => k))
  (at level 100, r at next level, right associativity) : cli_scope.
Local Open Scope cli_scope.

(** One of the six loops over [field,value] specifications:
    [for _, spec := range specs] with the parse, the return on error
    and the call of the builder method [add]. *)
Fixpoint addFilters (add : RQL.Query -> string -> string -> RQL.Query)
         (specs : list string) (q : RQL.Query) : result :=
  match specs with
  | [] => inl q
  | spec :: rest =>
      let '(field, value, err) := RQL.ParseFilterSpec spec in
      match err with
      | Some e => inr e
      | None => addFilters add rest (add q field value)
      end
  end.

(** The loop over the [in] specifications. *)
Fixpoint addInFilters (specs : list string) (q : RQL.Query) : result :=
  match specs with
  | [] => inl q
  | spec :: rest =>
      let '(field, values, err) := RQL.ParseInFilterSpec spec in
      match err with
      | Some e => inr e
      | None => addInFilters rest (RQL.In q field values)
      end
  end.

(** What follows the field selection in both functions. *)
Definition constrain (d : DataOptions) (q : RQL.Query) : result :=
  q <- addFilters RQL.Eq (Equal d) q ;;
  q <- addFilters RQL.Lt (Lt d) q ;;
  q <- addFilters RQL.Le (Le d) q ;;
  q <- addFilters RQL.Gt (Gt d) q ;;
  q <- addFilters RQL.Ge (Ge d) q ;;
  q <- addFilters RQL.Ne (Ne d) q ;;
  q <- addInFilters (In d) q ;;
  let q := if (0 <? length (Required d))%nat
           then RQL.Required q (Required d) else q in
  let q := if negb (String.eqb (Keyword d) "")
           then RQL.WithKeyword q (Keyword d) else q in
  let q := if 0 <? Limit d then RQL.Limit q (Limit d) else q in
  inl q.

(** [BuildQuery]. *)
Definition BuildQuery (d : DataOptions) (defaultFields : list string) : result :=
  let q := RQL.NewQuery in
  let q := if (0 <? length (Attr d))%nat then RQL.Select q (Attr d)
           else if (0 <? length defaultFields)%nat then RQL.Select q defaultFields
           else q in
  constrain d q.

(** [BuildQueryWithFields]. *)
Definition BuildQueryWithFields (d : DataOptions) (selectFields : list string)
  : result :=
  let q := RQL.NewQuery in
  let q := if (0 <? length selectFields)%nat then RQL.Select q selectFields
           else q in
  constrain d q.

(** [GetSelectFields]. *)
Definition GetSelectFields (d : DataOptions) (defaultFields : list string)
  : list string :=
  if (0 <? length (Attr d))%nat then Attr d else defaultFields.

(** *** What the options ask for

    The filter a [field,value] specification stands for under an
    operator, and the one an [in] specification stands for. *)
Definition filterOf (op : RQL.FilterOp) (spec : string) : RQL.Filter.t :=
  let '(field, value, _) := RQL.ParseFilterSpec spec in
  RQL.Filter.mk op field value [].

Definition inFilterOf (spec : string) : RQL.Filter.t :=
  let '(field, values, _) := RQL.ParseInFilterSpec spec in
  RQL.Filter.mk RQL.OpIn field "" values.

Definition filtersOf (d : DataOptions) : list RQL.Filter.t :=
  map (filterOf RQL.OpEq) (Equal d) ++ map (filterOf RQL.OpLt) (Lt d)
    ++ map (filterOf RQL.OpLe) (Le d) ++ map (filterOf RQL.OpGt) (Gt d)
    ++ map (filterOf RQL.OpGe) (Ge d) ++ map (filterOf RQL.OpNe) (Ne d)
    ++ map inFilterOf (In d).

(** The first specification without a comma, in the order in which the
    options are read, with the error it is refused with. *)
Definition noComma (spec : string) : bool := negb (Str.contains "," spec).

Definition firstBad (d : DataOptions) : option RQL.specError :=
  match find noComma (Equal d ++ Lt d ++ Le d ++ Gt d ++ Ge d ++ Ne d) with
  | Some spec => Some (RQL.ErrFilterSpec spec)
  | None => RQL.ErrInFilterSpec <$> find noComma (In d)
  end.

Local Close Scope cli_scope.
End Cli.

(** ** The query in memory: slices, arrays and pointers

    [Query.Clone] is a statement about storage, so here a slice is what Go
    makes it: a view (array, length, capacity) on an array of the store,
    and [*Query] is a pointer to a struct of the store. The built-ins
    [make], [copy], [append] and indexed assignment act on the store; the
    methods of [query.go] are transcribed over them. [view] reads a stored
    query back as the value-level [RQL.Query]. Every slice of this file
    starts at element 0 of its array. *)

Module Mem.

Definition loc := positive.

Record slice := mkSlice { arr : option loc; len : nat; cap : nat }.

(** The nil slice, the zero value of a slice type. *)
Definition nilSlice : slice := mkSlice None 0 0.

Module Filter.
Record t := mk {
  Op : RQL.FilterOp;
  Field : string;
  Value : string;
  Values : slice
}.
Definition zero : t := mk "" "" "" nilSlice.
End Filter.

Record Query := mkQuery {
  SelectFields : slice;
  Filters : slice;
  RequiredFields : slice;
  Keyword : string;
  SortSpecs : slice;
  LimitValue : Z
}.

Record store := mkStore {
  strArrays : gmap loc (list string);
  filterArrays : gmap loc (list Filter.t);
  sortArrays : gmap loc (list RQL.SortSpec.t);
  queries : gmap loc Query;
  next : loc                     (* the next unused address *)
}.

Definition emptyStore : store := mkStore ∅ ∅ ∅ ∅ 1%positive.

(** Store-passing computations; [None] is a run-time panic (nil
    dereference, index out of range). *)
Definition M (A : Type) : Type := store -> option (A * store).

Definition ret {A} (a : A) : M A := fun st => Some (a, st).
Definition bind {A B} (m : M A) (k : A -> M B) : M B :=
  fun st => match m st with
            | Some (a, st') => k a st'
            | None => None
            end.
Definition panic {A} : M A := fun _ => None.

Declare Scope mem_scope.
Delimit Scope mem_scope with mem.
Notation "x <- m ;; k" := (bind m (fun x => k))
  (at level 100, m at next level, right associativity) : mem_scope.
Notation "m ;;; k" := (bind m (fun _ => k))
  (at level 100, right associativity) : mem_scope.
Local Open Scope mem_scope.

(** The three element types that live in arrays, each with its part of
    the store and its zero value. *)
Record kind (A : Type) := mkKind {
  arrays : store -> gmap loc (list A);
  setArrays : gmap loc (list A) -> store -> store;
  zeroOf : A
}.
Arguments arrays {A}. Arguments setArrays {A}. Arguments zeroOf {A}.

Definition strK : kind string :=
  mkKind _ strArrays
    (fun m st => mkStore m (filterArrays st) (sortArrays st) (queries st) (next st))
    "".
Definition filterK : kind Filter.t :=
  mkKind _ filterArrays
    (fun m st => mkStore (strArrays st) m (sortArrays st) (queries st) (next st))
    Filter.zero.
Definition sortK : kind RQL.SortSpec.t :=
  mkKind _ sortArrays
    (fun m st => mkStore (strArrays st) (filterArrays st) m (queries st) (next st))
    RQL.SortSpec.zero.

Definition bump (st : store) : store :=
  mkStore (strArrays st) (filterArrays st) (sortArrays st) (queries st)
          (Pos.succ (next st)).

Section Builtins.
Context {A : Type} (k : kind A).

(** The elements a slice shows. *)
Definition contents (st : store) (s : slice) : list A :=
  match arr s with
  | None => []
  | Some a => take (len s) (default [] (arrays k st !! a))
  end.

(** Allocation of a fresh array holding [elems]. *)
Definition alloc (elems : list A) : M loc :=
  fun st =>
    let a := next st in
    Some (a, bump (setArrays k (<[a := elems]> (arrays k st)) st)).

(** [make([]T, n)]. *)
Definition make (n : nat) : M slice :=
  a <- alloc (replicate n (zeroOf k)) ;;
  ret (mkSlice (Some a) n n).

(** [copy(dst, src)]: the first [min (len dst) (len src)] elements. *)
Definition copy (dst src : slice) : M unit :=
  fun st =>
    let n := Nat.min (len dst) (len src) in
    let elems := take n (contents st src) in
    match arr dst with
    | None => Some (tt, st)
    | Some a =>
        Some (tt, setArrays k
                    (alter (fun old => elems ++ drop n old) a (arrays k st)) st)
    end.

(** The capacity of the array [append] moves to when the old one is
    full. Go's runtime picks at least the needed length (doubling for
    small slices, then rounding to a size class); the model keeps the
    doubling. *)
Definition growCap (oldCap needed : nat) : nat :=
  if (oldCap + oldCap <? needed)%nat then needed else (oldCap + oldCap)%nat.

(** [append(s, xs...)]: in place when the capacity allows, otherwise
    into a fresh array; appending nothing returns [s]. *)
Definition append (s : slice) (xs : list A) : M slice :=
  match xs with
  | [] => ret s
  | _ =>
      let n := (len s + length xs)%nat in
      match arr s with
      | Some a =>
          if (n <=? cap s)%nat then
            fun st =>
              Some (mkSlice (Some a) n (cap s),
                    setArrays k
                      (alter (fun old => take (len s) old ++ xs ++ drop n old)
                             a (arrays k st)) st)
          else
            fun st =>
              let c := growCap (cap s) n in
              (b <- alloc (contents st s ++ xs ++ replicate (c - n) (zeroOf k)) ;;
               ret (mkSlice (Some b) n c)) st
      | None =>
          let c := growCap 0 n in
          b <- alloc (xs ++ replicate (c - n) (zeroOf k)) ;;
          ret (mkSlice (Some b) n c)
      end
  end.

(** [s[i] = x]. *)
Definition setIndex (s : slice) (i : nat) (x : A) : M unit :=
  fun st =>
    if (i <? len s)%nat then
      match arr s with
      | Some a =>
          Some (tt, setArrays k (alter (fun old => <[i := x]> old) a (arrays k st)) st)
      | None => None
      end
    else None.

(** [s[i]]. *)
Definition index (s : slice) (i : nat) : M A :=
  fun st =>
    match contents st s !! i with
    | Some x => Some (x, st)
    | None => None
    end.
End Builtins.

(** Pointers to [Query] structs. *)
Definition newQuery (q : Query) : M loc :=
  fun st =>
    let p := next st in
    Some (p, mkStore (strArrays st) (filterArrays st) (sortArrays st)
                     (<[p := q]> (queries st)) (Pos.succ (next st))).

Definition load (p : loc) : M Query :=
  fun st => match queries st !! p with
            | Some q => Some (q, st)
            | None => None
            end.

Definition store_ (p : loc) (q : Query) : M unit :=
  fun st => Some (tt, mkStore (strArrays st) (filterArrays st) (sortArrays st)
                              (<[p := q]> (queries st)) (next st)).

(** *** [query.go] over the store *)

Definition NewQuery : M loc :=
  newQuery (mkQuery nilSlice nilSlice nilSlice "" nilSlice 0).

Definition Select (p : loc) (fields : list string) : M loc :=
  q <- load p ;;
  s <- append strK (SelectFields q) fields ;;
  store_ p (mkQuery s (Filters q) (RequiredFields q) (Keyword q)
                    (SortSpecs q) (LimitValue q)) ;;;
  ret p.

Definition addFilter (p : loc) (f : Filter.t) : M loc :=
  q <- load p ;;
  s <- append filterK (Filters q) [f] ;;
  store_ p (mkQuery (SelectFields q) s (RequiredFields q) (Keyword q)
                    (SortSpecs q) (LimitValue q)) ;;;
  ret p.

Definition Eq (p : loc) (field value : string) : M loc :=
  addFilter p (Filter.mk RQL.OpEq field value nilSlice).
Definition Ne (p : loc) (field value : string) : M loc :=
  addFilter p (Filter.mk RQL.OpNe field value nilSlice).
Definition Lt (p : loc) (field value : string) : M loc :=
  addFilter p (Filter.mk RQL.OpLt field value nilSlice).
Definition Le (p : loc) (field value : string) : M loc :=
  addFilter p (Filter.mk RQL.OpLe field value nilSlice).
Definition Gt (p : loc) (field value : string) : M loc :=
  addFilter p (Filter.mk RQL.OpGt field value nilSlice).
Definition Ge (p : loc) (field value : string) : M loc :=
  addFilter p (Filter.mk RQL.OpGe field value nilSlice).

(** [In] keeps the slice it is given: the variadic parameter. *)
Definition In (p : loc) (field : string) (values : slice) : M loc :=
  addFilter p (Filter.mk RQL.OpIn field "" values).

(** The slice Go builds for the arguments of a variadic call
    [f(x1, ..., xn)]; nil when there are none. *)
Definition variadic (xs : list string) : M slice :=
  match xs with
  | [] => ret nilSlice
  | _ => a <- alloc strK xs ;; ret (mkSlice (Some a) (length xs) (length xs))
  end.

Definition Required (p : loc) (fields : list string) : M loc :=
  q <- load p ;;
  s <- append strK (RequiredFields q) fields ;;
  store_ p (mkQuery (SelectFields q) (Filters q) s (Keyword q)
                    (SortSpecs q) (LimitValue q)) ;;;
  ret p.

Definition WithKeyword (p : loc) (keyword : string) : M loc :=
  q <- load p ;;
  store_ p (mkQuery (SelectFields q) (Filters q) (RequiredFields q) keyword
                    (SortSpecs q) (LimitValue q)) ;;;
  ret p.

Definition Sort (p : loc) (field : string) (descending : bool) : M loc :=
  q <- load p ;;
  s <- append sortK (SortSpecs q) [RQL.SortSpec.mk field descending] ;;
  store_ p (mkQuery (SelectFields q) (Filters q) (RequiredFields q) (Keyword q)
                    s (LimitValue q)) ;;;
  ret p.

Definition Limit (p : loc) (n : Z) : M loc :=
  q <- load p ;;
  store_ p (mkQuery (SelectFields q) (Filters q) (RequiredFields q) (Keyword q)
                    (SortSpecs q) n) ;;;
  ret p.

(** [Clone]: four [make]s, the struct literal, four [copy]s. The copy of
    [Filters] copies [Filter] structs, and with them the slice headers in
    their [Values] fields. *)
Definition Clone (p : loc) : M loc :=
  q <- load p ;;
  sel <- make strK (len (SelectFields q)) ;;
  fil <- make filterK (len (Filters q)) ;;
  req <- make strK (len (RequiredFields q)) ;;
  srt <- make sortK (len (SortSpecs q)) ;;
  newQ <- newQuery (mkQuery sel fil req (Keyword q) srt (LimitValue q)) ;;
  copy strK sel (SelectFields q) ;;;
  copy filterK fil (Filters q) ;;;
  copy strK req (RequiredFields q) ;;;
  copy sortK srt (SortSpecs q) ;;;
  ret newQ.

(** *** Reading a stored query *)

Definition viewFilter (st : store) (f : Filter.t) : RQL.Filter.t :=
  RQL.Filter.mk (Filter.Op f) (Filter.Field f) (Filter.Value f)
                (contents strK st (Filter.Values f)).

Definition view (st : store) (q : Query) : RQL.Query :=
  RQL.mkQuery
    (contents strK st (SelectFields q))
    (map (viewFilter st) (contents filterK st (Filters q)))
    (contents strK st (RequiredFields q))
    (Keyword q)
    (contents sortK st (SortSpecs q))
    (LimitValue q).

Definition viewAt (st : store) (p : loc) : option RQL.Query :=
  view st <$> queries st !! p.

(** [q.Build()] and [q.HasFilters()] only read. *)
Definition Build (st : store) (p : loc) : option string :=
  RQL.Build <$> viewAt st p.

(** *** Writes through a query's slices *)

(** [q.SelectFields[i] = x]. *)
Definition setSelectField (p : loc) (i : nat) (x : string) : M unit :=
  q <- load p ;;
  setIndex strK (SelectFields q) i x.

(** [q.RequiredFields[i] = x]. *)
Definition setRequiredField (p : loc) (i : nat) (x : string) : M unit :=
  q <- load p ;;
  setIndex strK (RequiredFields q) i x.

(** [q.Filters[i] = f]. *)
Definition setFilter (p : loc) (i : nat) (f : Filter.t) : M unit :=
  q <- load p ;;
  setIndex filterK (Filters q) i f.

(** [q.SortSpecs[i] = s]. *)
Definition setSortSpec (p : loc) (i : nat) (s : RQL.SortSpec.t) : M unit :=
  q <- load p ;;
  setIndex sortK (SortSpecs q) i s.

(** [q.Filters[i].Values[j] = x]. *)
Definition setFilterValue (p : loc) (i j : nat) (x : string) : M unit :=
  q <- load p ;;
  f <- index filterK (Filters q) i ;;
  setIndex strK (Filter.Values f) j x.

(** *** A caller that clones

    [q := NewQuery().Select("f1", "f2").In("status", "a", "b")] followed
    by [c := q.Clone()]; the result is the pair of pointers. *)
Definition original : M loc :=
  q <- NewQuery ;;
  _ <- Select q ["f1"; "f2"] ;;
  values <- variadic ["a"; "b"] ;;
  _ <- In q "status" values ;;
  ret q.

Definition cloneScenario : M (loc * loc) :=
  q <- original ;;
  c <- Clone q ;;
  ret (q, c).

(** *** What a caller may do to a query it holds

    The mutators of [query.go], and assignments to the elements of the
    four lists of the query itself. An assignment into the [Values] of
    a filter is not among them: see [setFilterValue]. *)
Inductive mutation :=
| DoSelect (fields : list string)
| DoFilter (op : RQL.FilterOp) (field value : string)
| DoIn (field : string) (values : list string)
| DoRequired (fields : list string)
| DoWithKeyword (keyword : string)
| DoSort (field : string) (descending : bool)
| DoLimit (n : Z)
| SetSelectField (i : nat) (x : string)
| SetRequiredField (i : nat) (x : string)
| SetFilter (i : nat) (op : RQL.FilterOp) (field value : string)
| SetSortSpec (i : nat) (s : RQL.SortSpec.t).

Definition apply (p : loc) (m : mutation) : M unit :=
  match m with
  | DoSelect fields => _ <- Select p fields ;; ret tt
  | DoFilter op field value =>
      _ <- addFilter p (Filter.mk op field value nilSlice) ;; ret tt
  | DoIn field values =>
      vs <- variadic values ;; _ <- In p field vs ;; ret tt
  | DoRequired fields => _ <- Required p fields ;; ret tt
  | DoWithKeyword keyword => _ <- WithKeyword p keyword ;; ret tt
  | DoSort field descending => _ <- Sort p field descending ;; ret tt
  | DoLimit n => _ <- Limit p n ;; ret tt
  | SetSelectField i x => setSelectField p i x
  | SetRequiredField i x => setRequiredField p i x
  | SetFilter i op field value =>
      setFilter p i (Filter.mk op field value nilSlice)
  | SetSortSpec i s => setSortSpec p i s
  end.

Fixpoint applyAll (p : loc) (ms : list mutation) : M unit :=
  match ms with
  | [] => ret tt
  | m :: ms' => apply p m ;;; applyAll p ms'
  end.

(** The calls of the fluent interface among the mutations. *)
Definition builder (m : mutation) : bool :=
  match m with
  | DoSelect _ | DoFilter _ _ _ | DoIn _ _ | DoRequired _
  | DoWithKeyword _ | DoSort _ _ | DoLimit _ => true
  | _ => false
  end.

(** What a mutation does to the lists a query shows. (An assignment out
    of range panics in [apply]; here it changes nothing.) *)
Definition onValue (q : RQL.Query) (m : mutation) : RQL.Query :=
  match m with
  | DoSelect fields => RQL.Select q fields
  | DoFilter op field value => RQL.addFilter q (RQL.Filter.mk op field value [])
  | DoIn field values => RQL.In q field values
  | DoRequired fields => RQL.Required q fields
  | DoWithKeyword keyword => RQL.WithKeyword q keyword
  | DoSort field descending => RQL.Sort q field descending
  | DoLimit n => RQL.Limit q n
  | SetSelectField i x =>
      RQL.mkQuery (<[i := x]> (RQL.SelectFields q)) (RQL.Filters q)
                  (RQL.RequiredFields q) (RQL.Keyword q) (RQL.SortSpecs q)
                  (RQL.LimitValue q)
  | SetRequiredField i x =>
      RQL.mkQuery (RQL.SelectFields q) (RQL.Filters q)
                  (<[i := x]> (RQL.RequiredFields q)) (RQL.Keyword q)
                  (RQL.SortSpecs q) (RQL.LimitValue q)
  | SetFilter i op field value =>
      RQL.mkQuery (RQL.SelectFields q)
                  (<[i := RQL.Filter.mk op field value []]> (RQL.Filters q))
                  (RQL.RequiredFields q) (RQL.Keyword q) (RQL.SortSpecs q)
                  (RQL.LimitValue q)
  | SetSortSpec i s =>
      RQL.mkQuery (RQL.SelectFields q) (RQL.Filters q) (RQL.RequiredFields q)
                  (RQL.Keyword q) (<[i := s]> (RQL.SortSpecs q))
                  (RQL.LimitValue q)
  end.

(** *** Where a slice points, and stores that agree below an address *)

Definition below (n : loc) (s : slice) : Prop :=
  match arr s with
  | Some a => (a < n)%positive
  | None => True
  end.

Definition above (n : loc) (s : slice) : Prop :=
  match arr s with
  | Some a => (n <= a)%positive
  | None => True
  end.

(** Every array a query shows lies below [n]. *)
Definition reachesBelow (n : loc) (st : store) (q : Query) : Prop :=
  below n (SelectFields q) /\ below n (Filters q)
  /\ below n (RequiredFields q) /\ below n (SortSpecs q)
  /\ Forall (fun f => below n (Filter.Values f))
             (contents filterK st (Filters q)).

(** The four lists of a query lie at or above [n]. *)
Definition ownsAbove (n : loc) (q : Query) : Prop :=
  above n (SelectFields q) /\ above n (Filters q)
  /\ above n (RequiredFields q) /\ above n (SortSpecs q).

(** The query at [c] is stored at or above [n] and so are its lists. *)
Definition ownedAt (n : loc) (st : store) (c : loc) : Prop :=
  (n <= next st)%positive /\ (n <= c)%positive
  /\ exists cq, queries st !! c = Some cq /\ ownsAbove n cq.

(** [st'] has nothing new below [n]: everything stored below [n] is as
    in [st], and allocation in [st'] happens at or above [n]. *)
Definition stable (n : loc) (st st' : store) : Prop :=
  (n <= next st')%positive
  /\ forall a : loc, (a < n)%positive ->
               strArrays st' !! a = strArrays st !! a
               /\ filterArrays st' !! a = filterArrays st !! a
               /\ sortArrays st' !! a = sortArrays st !! a
               /\ queries st' !! a = queries st !! a.

(** Replacing the arrays of a kind touches nothing else. *)
Definition lawful {A} (k : kind A) : Prop :=
  forall m st,
    arrays k (setArrays k m st) = m
    /\ queries (setArrays k m st) = queries st
    /\ next (setArrays k m st) = next st
    /\ forall a, m !! a = arrays k st !! a ->
                 strArrays (setArrays k m st) !! a = strArrays st !! a
                 /\ filterArrays (setArrays k m st) !! a = filterArrays st !! a
                 /\ sortArrays (setArrays k m st) !! a = sortArrays st !! a.

(** *** Queries whose lists do not overlap *)

(** The array of a slice is allocated and holds its capacity; a slice
    without an array is empty. *)
Definition sized {A} (k : kind A) (st : store) (s : slice) : Prop :=
  match arr s with
  | Some a =>
      exists l, arrays k st !! a = Some l /\ (len s <= cap s <= length l)%nat
  | None => len s = 0%nat
  end.

(** Two slices on different arrays. *)
Definition apart (s t : slice) : Prop :=
  match arr s, arr t with
  | Some a, Some b => a <> b
  | _, _ => True
  end.

(** The four lists of a query, as slices. *)
Definition lists (q : Query) : list slice :=
  [SelectFields q; Filters q; RequiredFields q; SortSpecs q].

(** Every array the query shows is allocated; its four lists are on
    arrays of their own, and no [Values] of a filter is on one of
    them. *)
Definition wellFormed (st : store) (q : Query) : Prop :=
  Forall (below (next st)) (lists q)
  /\ sized strK st (SelectFields q) /\ sized filterK st (Filters q)
  /\ sized strK st (RequiredFields q) /\ sized sortK st (SortSpecs q)
  /\ apart (SelectFields q) (Filters q)
  /\ apart (SelectFields q) (RequiredFields q)
  /\ apart (SelectFields q) (SortSpecs q)
  /\ apart (Filters q) (RequiredFields q)
  /\ apart (Filters q) (SortSpecs q)
  /\ apart (RequiredFields q) (SortSpecs q)
  /\ Forall (fun f => below (next st) (Filter.Values f)
                     /\ Forall (apart (Filter.Values f)) (lists q))
             (contents filterK st (Filters q)).

(** [s'] is on the array of [s], or on one allocated at or above
    [n]. *)
Definition movedFrom (n : loc) (s s' : slice) : Prop :=
  arr s' = arr s \/ exists b, arr s' = Some b /\ (n <= b)%positive.

(** [st'] is [st] at every address in use but [hole], and holds the
    same queries. *)
Definition agreeBut (hole : option loc) (st st' : store) : Prop :=
  (next st <= next st')%positive /\ queries st' = queries st
  /\ forall a : loc, (a < next st)%positive -> hole <> Some a ->
                strArrays st' !! a = strArrays st !! a
                /\ filterArrays st' !! a = filterArrays st !! a
                /\ sortArrays st' !! a = sortArrays st !! a.

Local Close Scope mem_scope.
End Mem.

(** ** The registry tables used by the client

    [Objects] and [IDColumns] as the source declares them. A Go map read
    of a missing key gives the zero value, the empty string. *)

Module Registry.

Definition Objects : gmap string string :=
  list_to_map
    [ ("genome", "genome");
      ("feature", "genome_feature");
      ("family", "protein_family_ref");
      ("genome_drug", "genome_amr");
      ("contig", "genome_sequence");
      ("drug", "antibiotics");
      ("taxonomy", "taxonomy");
      ("experiment", "transcriptomics_experiment");
      ("expression", "transcriptomics_gene");
      ("sample", "transcriptomics_sample");
      ("sequence", "feature_sequence");
      ("subsystem", "subsystem_ref");
      ("subsystemItem", "subsystem");
      ("alt_feature", "genome_feature");
      ("sp_gene", "sp_gene");
      ("protein_region", "protein_feature");
      ("protein_structure", "protein_structure");
      ("surveillance", "surveillance");
      ("serology", "serology");
      ("sf", "sequence_feature");
      ("sfvt", "sequence_feature_vt") ].

Definition IDColumns : gmap string string :=
  list_to_map
    [ ("genome", "genome_id");
      ("feature", "patric_id");
      ("alt_feature", "feature_id");
      ("family", "family_id");
      ("genome_drug", "id");
      ("contig", "sequence_id");
      ("drug", "antibiotic_name");
      ("experiment", "eid");
      ("sample", "expid");
      ("expression", "id");
      ("taxonomy", "taxon_id");
      ("sequence", "md5");
      ("sp_gene", "patric_id");
      ("subsystem", "subsystem_id");
      ("subsystemItem", "id");
      ("protein_region", "id");
      ("protein_structure", "pdb_id");
      ("surveillance", "sample_identifier");
      ("serology", "sample_identifier");
      ("sf", "sf_id");
      ("sfvt", "id") ].

Definition GetObjectType (name : string) : string :=
  match Objects !! name with
  | Some mapped => mapped
  | None => name
  end.

Definition GetIDColumn (objectType : string) : string :=
  default "" (IDColumns !! objectType).

End Registry.

(** ** Decimal numbers: [%d], [strconv.Atoi]

    Both belong to Go's standard library; [int] is 64 bits wide. *)

Module Dec.

Definition MaxInt : Z := 2 ^ 63 - 1.
Definition MinInt : Z := - 2 ^ 63.

Definition digitChar (n : N) : ascii := ascii_of_N (48 + n).
Definition digitVal (c : ascii) : Z := Z.of_N (N_of_ascii c) - 48.

(** The decimal digits of [n], most significant first. The fuel bounds
    the number of digits; the bit length of [n] is enough. *)
Fixpoint utoaFuel (fuel : nat) (n : N) : string :=
  match fuel with
  | O => ""
  | S f =>
      if (n <? 10)%N then String (digitChar n) ""
      else utoaFuel f (n / 10)%N +:+ String (digitChar (n mod 10)%N) ""
  end.

Definition utoa (n : N) : string := utoaFuel (S (N.to_nat (N.size n))) n.

(** The verb [%d] of [fmt.Sprintf] on an [int]; [strconv.Itoa]. *)
Definition Itoa (z : Z) : string :=
  if z <? 0 then String "-"%char (utoa (Z.to_N (- z))) else utoa (Z.to_N z).

(** The value of a digit string, unbounded. *)
Fixpoint valFrom (acc : Z) (s : string) : Z :=
  match s with
  | EmptyString => acc
  | String c s' => valFrom (acc * 10 + digitVal c) s'
  end.

Fixpoint allDigits (s : string) : bool :=
  match s with
  | EmptyString => true
  | String c s' => Str.isDigit c && allDigits s'
  end.

(** [strconv.Atoi]: the value and whether an error is returned. A
    syntax error gives 0; a value out of range gives the nearest bound. *)
Definition Atoi (s : string) : Z * bool :=
  let '(neg, body) :=
    match s with
    | String c rest =>
        if Ascii.eqb c "-"%char then (true, rest)
        else if Ascii.eqb c "+"%char then (false, rest)
        else (false, s)
    | EmptyString => (false, s)
    end in
  if String.eqb body "" || negb (allDigits body) then (0, true)
  else
    let un := valFrom 0 body in
    if negb neg && (2 ^ 63 <=? un) then (MaxInt, true)
    else if neg && (2 ^ 63 <? un) then (MinInt, true)
    else (if neg then - un else un, false).

End Dec.

(** ** [regexp]: the fragment the client uses

    The one pattern of the source, [items\s+(\d+)-(\d+)/(\d+)], is a
    sequence of literal bytes, greedy one-or-more repetitions of a class
    and capture-group boundaries. For such a sequence Go's leftmost-first
    semantics is the backtracking search below: start positions from left
    to right, and at a repetition the longest run first. *)

Module Regexp.

Inductive atom :=
| Lit (c : ascii)
| Plus (cls : ascii -> bool)
| Mark.                       (* a group boundary: "(" or ")" *)

Definition result : Type := nat * list nat.   (* end, boundaries (latest first) *)

(** After one byte of the class: take more first, give back on failure. *)
Fixpoint plusMore (cls : ascii -> bool)
         (k : string -> nat -> list nat -> option result)
         (s : string) (pos : nat) (marks : list nat) : option result :=
  match s with
  | String d s' =>
      if cls d then
        match plusMore cls k s' (S pos) marks with
        | Some r => Some r
        | None => k s pos marks
        end
      else k s pos marks
  | EmptyString => k s pos marks
  end.

Fixpoint matchHere (pat : list atom) : string -> nat -> list nat -> option result :=
  match pat with
  | [] => fun _ pos marks => Some (pos, marks)
  | Lit c :: pat' =>
      fun s pos marks =>
        match s with
        | String d s' =>
            if Ascii.eqb c d then matchHere pat' s' (S pos) marks else None
        | EmptyString => None
        end
  | Plus cls :: pat' =>
      fun s pos marks =>
        match s with
        | String d s' =>
            if cls d then plusMore cls (matchHere pat') s' (S pos) marks else None
        | EmptyString => None
        end
  | Mark :: pat' => fun s pos marks => matchHere pat' s pos (pos :: marks)
  end.

(** The leftmost start at which the pattern matches. *)
Fixpoint search (pat : list atom) (s : string) (pos : nat) : option (nat * result) :=
  match matchHere pat s pos [] with
  | Some r => Some (pos, r)
  | None =>
      match s with
      | String _ s' => search pat s' (S pos)
      | EmptyString => None
      end
  end.

(** The texts between consecutive pairs of boundaries, last group first
    in [marks]. *)
Fixpoint groups (s : string) (marks : list nat) : list string :=
  match marks with
  | close :: open :: rest =>
      groups s rest ++ [substring open (close - open) s]
  | _ => []
  end.

(** [re.FindStringSubmatch]: nil when nothing matches, else the whole
    match followed by the groups. *)
Definition FindStringSubmatch (pat : list atom) (s : string) : list string :=
  match search pat s 0 with
  | Some (start, (stop, marks)) =>
      substring start (stop - start) s :: groups s marks
  | None => []
  end.

Definition lits (s : string) : list atom := map Lit (list_ascii_of_string s).

(** The number of group boundaries of a pattern. *)
Fixpoint countMarks (pat : list atom) : nat :=
  match pat with
  | [] => 0
  | Mark :: pat' => S (countMarks pat')
  | _ :: pat' => countMarks pat'
  end.

End Regexp.

(** ** [api/client.go]: transport, retry and the retrieval entry points *)

Module Client.

Import RQL.

Module ChunkInfo.
Record t := mk {
  Start : Z;
  Next : Z;
  Count : Z;
  IsLast : bool
}.
End ChunkInfo.

(** [regexp.MustCompile(`items\s+(\d+)-(\d+)/(\d+)`)]. *)
Definition contentRangeRE : list Regexp.atom :=
  Regexp.lits "items" ++
  [ Regexp.Plus Str.isSpace;
    Regexp.Mark; Regexp.Plus Str.isDigit; Regexp.Mark;
    Regexp.Lit "-";
    Regexp.Mark; Regexp.Plus Str.isDigit; Regexp.Mark;
    Regexp.Lit "/";
    Regexp.Mark; Regexp.Plus Str.isDigit; Regexp.Mark ].

Definition parseContentRange (header : string) : ChunkInfo.t :=
  let info := ChunkInfo.mk 0 0 0 false in
  if String.eqb header "" then info
  else
    let matches := Regexp.FindStringSubmatch contentRangeRE header in
    if negb (length matches =? 4)%nat then info
    else
      let start := fst (Dec.Atoi (nth 1 matches "")) in
      let next := fst (Dec.Atoi (nth 2 matches "")) in
      let count := fst (Dec.Atoi (nth 3 matches "")) in
      ChunkInfo.mk start next count (count <=? next).

Record Client := mkClient {
  BaseURL : string;
  Token : string;
  ChunkSize : Z;
  MaxRetries : Z;
  Debug : bool
}.

Definition DefaultBaseURL : string := "https://www.bv-brc.org/api".
Definition DefaultChunkSize : Z := 25000.
Definition DefaultMaxRetries : Z := 3.

(** [NewClient()] without options; the HTTP client is the environment
    below. *)
Definition NewClient : Client :=
  mkClient DefaultBaseURL "" DefaultChunkSize DefaultMaxRetries false.

Definition WithChunkSize (size : Z) (c : Client) : Client :=
  mkClient (BaseURL c) (Token c) size (MaxRetries c) (Debug c).
Definition WithMaxRetries (retries : Z) (c : Client) : Client :=
  mkClient (BaseURL c) (Token c) (ChunkSize c) retries (Debug c).

(** The other options, and [NewClient(opts...)]: the options are applied
    in order to the defaults. [WithToken] is given for a token that is a
    string; [WithHTTPClient] replaces the environment below. *)
Definition ClientOption : Type := Client -> Client.

Definition WithBaseURL (baseURL : string) : ClientOption :=
  fun c => mkClient (Str.TrimSuffix baseURL "/") (Token c) (ChunkSize c)
                    (MaxRetries c) (Debug c).
Definition WithToken (token : string) : ClientOption :=
  fun c => mkClient (BaseURL c) token (ChunkSize c) (MaxRetries c) (Debug c).
Definition WithDebug (debug : bool) : ClientOption :=
  fun c => mkClient (BaseURL c) (Token c) (ChunkSize c) (MaxRetries c) debug.

Definition NewClientWith (opts : list ClientOption) : Client :=
  fold_left (fun c opt => opt c) opts NewClient.

(** [urlEncode]: the table of replacements and the loop over it. The
    source ranges over a Go map, whose iteration order is not fixed:
    [urlEncodeIn] takes the order as a list, [urlEncode] is the order in
    which the source writes the table. *)
Definition replacements : list (string * string) :=
  [ ("<", "%60"); (">", "%62"); ("=", "%61");
    (String (ascii_of_N 34) "", "%22");
    ("&", "%26"); ("#", "%23"); (" ", "%20");
    (String (ascii_of_N 9) "", "%09") ].

Definition urlEncodeIn (order : list (string * string)) (s : string) : string :=
  fold_left (fun result '(old, new) => Str.ReplaceAll result old new) order s.

Definition urlEncode (s : string) : string := urlEncodeIn replacements s.

(** One replacement of the table, on one byte. *)
Definition replaceByte (old new : string) (c : ascii) : string :=
  if String.eqb old (String c "") then new else String c "".

(** The bytes the table replaces. *)
Definition special (c : ascii) : bool :=
  existsb (fun '(old, _) => String.eqb old (String c "")) replacements.

(** What [urlEncode] does to one byte. *)
Definition urlEncodeByte (c : ascii) : string :=
  match find (fun '(old, _) => String.eqb old (String c "")) replacements with
  | Some (_, new) => new
  | None => String c ""
  end.

(** *** HTTP *)

Definition Header := list (string * string).

Definition headerSet (key value : string) (h : Header) : Header :=
  (key, value) :: filter (fun kv => negb (String.eqb (fst kv) key)) h.

Fixpoint headerGet (key : string) (h : Header) : string :=
  match h with
  | [] => ""
  | (k, v) :: h' => if String.eqb k key then v else headerGet key h'
  end.

Record Request := mkRequest {
  Method : string;
  URL : string;
  ReqHeader : Header;
  Body : string
}.

(** [setHeaders]. *)
Definition setHeaders (c : Client) (req : Request) : Request :=
  let h := ReqHeader req in
  let h := if negb (String.eqb (Token c) "")
           then headerSet "Authorization" (Token c) h else h in
  let h := headerSet "User-Agent" "BV-BRC-Go-Client/1.0" h in
  mkRequest (Method req) (URL req) h (Body req).

Definition setHeader (key value : string) (req : Request) : Request :=
  mkRequest (Method req) (URL req) (headerSet key value (ReqHeader req)) (Body req).

(** The errors the client returns, and their texts. *)
Inductive error :=
| ErrContext                          (* ctx.Err() *)
| ErrExecuting (cause : string)       (* "executing request: %w" *)
| ErrServer (status : string)         (* "server error: %s" *)
| ErrAPI (status body : string)       (* "API error: %s - %s" *)
| ErrDecoding.                        (* "decoding response: %w" *)


(** [time.Duration]: signed 64-bit nanoseconds. *)
Definition wrap64 (z : Z) : Z := (z + 2 ^ 63) mod 2 ^ 64 - 2 ^ 63.
Definition Second : Z := 1000000000.

(** [time.Duration(1<<uint(attempt-1)) * time.Second], for
    [attempt >= 1]: the shift and the product are 64-bit operations. *)
Definition backoff (attempt : Z) : Z :=
  let shift := attempt - 1 in
  let d := if shift <? 64 then wrap64 (Z.shiftl 1 shift) else 0 in
  wrap64 (d * Second).

(** How a loop ends: with a value, in a run-time panic, or not within
    the fuel given to the model. *)
Inductive outcome (A : Type) :=
| Done (a : A)
| Panic
| OutOfFuel.
Arguments Done {A}. Arguments Panic {A}. Arguments OutOfFuel {A}.

(** *** The preprocessing, as the specification words it *)

(** The ID column of the registry for the resolved object type, or the
    literal [id]. *)
Definition idColumnFor (objectType : string) : string :=
  let idCol := Registry.GetIDColumn (Registry.GetObjectType objectType) in
  if String.eqb idCol "" then "id" else idCol.

(** The query the engine sends: the caller's query, with the single
    filter [eq(idColumn, "*")] when it has no filter, no required field
    and no keyword. *)
Definition withWildcard (objectType : string) (q : RQL.Query) : RQL.Query :=
  if HasFilters q then q
  else mkQuery (SelectFields q)
               [Filter.mk OpEq (idColumnFor objectType) "*" []]
               (RequiredFields q) (Keyword q) (SortSpecs q) (LimitValue q).

(** The effective page size. *)
Definition pageSize (c : Client) (q : RQL.Query) : Z :=
  if (0 <? LimitValue q) && (LimitValue q <? ChunkSize c)
  then LimitValue q else ChunkSize c.

Section Engine.

(** A record is a [map[string]any]; the engine never looks inside. *)
Context {Rec : Type}.

(** A response: status, headers, the body as text and what
    [json.Decoder] makes of it ([None] when it does not decode to an
    array of objects). *)
Record Response := mkResponse {
  StatusCode : Z;
  Status : string;
  RespHeader : Header;
  BodyText : string;
  Decoded : option (list Rec)
}.

Inductive DoResult :=
| DoError (cause : string)
| DoOK (resp : Response).

(** What happens outside the program, in order: a call of
    [HTTPClient.Do], a completed backoff wait, a call of the callback. *)
Inductive Event :=
| EvDo (req : Request)
| EvSleep (d : Z)
| EvCallback (records : list Rec) (info : option ChunkInfo.t).

(** The environment: [HTTPClient.Do] with everything behind it, as a
    transition on a state [S]; a clock in nanoseconds that only the
    backoff waits advance; the trace of events. A request that cannot
    be built ([http.NewRequestWithContext] fails on a malformed URL) is
    outside the model: URLs are taken to be well-formed. [Debug] output
    is not modelled. *)
Context {S : Type}.

Record World := mkWorld {
  server : S;
  now : Z;
  trace : list Event
}.

Variable handler : S -> Request -> S * DoResult.

(** A context is its deadline on the clock, [None] for
    [context.Background()]. *)
Definition Ctx := option Z.

Definition ctxDone (ctx : Ctx) (t : Z) : bool :=
  match ctx with
  | Some d => d <=? t
  | None => false
  end.

Definition Do (req : Request) (w : World) : DoResult * World :=
  let '(s', r) := handler (server w) req in
  (r, mkWorld s' (now w) (trace w ++ [EvDo req])).

(** [select { case <-ctx.Done(): ...; case <-time.After(delay): }]:
    [true] when the context is done first. When both become ready at
    the same instant Go may take either; the model takes the
    context. *)
Definition sleepOrDone (ctx : Ctx) (delay : Z) (w : World) : bool * World :=
  let wake := now w + Z.max 0 delay in
  if ctxDone ctx wake
  then (true, mkWorld (server w) (Z.max (now w) (default wake ctx)) (trace w))
  else (false, mkWorld (server w) wake (trace w ++ [EvSleep delay])).

Definition newPost (c : Client) (url body : string) : Request :=
  let req := mkRequest "POST" url [] body in
  let req := setHeaders c req in
  let req := setHeader "Accept" "application/json" req in
  setHeader "Content-Type" "application/rqlquery+x-www-form-urlencoded" req.

(** [doQueryRequest]: the loop [for attempt := 0; attempt <=
    c.MaxRetries; attempt++], [remaining] being the number of
    iterations left. The result is the triple the source returns; a
    nil [*ChunkInfo] is [None]. *)
Fixpoint attemptLoop (c : Client) (ctx : Ctx) (url body : string)
         (remaining : nat) (attempt : Z) (lastErr : option error)
         (w : World) {struct remaining}
  : (list Rec * option ChunkInfo.t * option error) * World :=
  match remaining with
  | O => (([], None, lastErr), w)
  | Datatypes.S remaining' =>
      let '(cancelled, w) :=
        if 0 <? attempt then sleepOrDone ctx (backoff attempt) w
        else (false, w) in
      if cancelled then (([], None, Some ErrContext), w)
      else
        let req := newPost c url body in
        let '(r, w) := Do req w in
        match r with
        | DoError cause =>
            attemptLoop c ctx url body remaining' (attempt + 1)
                        (Some (ErrExecuting cause)) w
        | DoOK resp =>
            if 500 <=? StatusCode resp then
              attemptLoop c ctx url body remaining' (attempt + 1)
                          (Some (ErrServer (Status resp))) w
            else if 400 <=? StatusCode resp then
              (([], None, Some (ErrAPI (Status resp) (BodyText resp))), w)
            else
              let chunkInfo :=
                parseContentRange (headerGet "Content-Range" (RespHeader resp)) in
              match Decoded resp with
              | None =>
                  attemptLoop c ctx url body remaining' (attempt + 1)
                              (Some ErrDecoding) w
              | Some results => ((results, Some chunkInfo, None), w)
              end
        end
  end.

Definition doQueryRequest (c : Client) (ctx : Ctx) (url body : string)
           (w : World)
  : (list Rec * option ChunkInfo.t * option error) * World :=
  attemptLoop c ctx url body (Z.to_nat (MaxRetries c + 1)) 0 None w.

(** The request body of one page: [queryStr], [&] when it is not
    empty, and the limit clause. *)
Definition pageBody (queryStr : string) (chunkSize offset : Z) : string :=
  let body := queryStr in
  let body := if negb (String.eqb body "") then body +:+ "&" else body in
  if 0 <? offset
  then body +:+ "limit(" +:+ Dec.Itoa chunkSize +:+ "," +:+ Dec.Itoa offset +:+ ")"
  else body +:+ "limit(" +:+ Dec.Itoa chunkSize +:+ ")".

Definition requestURL (c : Client) (resolvedType : string) : string :=
  BaseURL c +:+ "/" +:+ resolvedType +:+ "/".

(** The page loop of [Query]. [Done (all, None)] is the [break];
    [Done ([], Some e)] is [return nil, e]. *)
Fixpoint queryLoop (c : Client) (ctx : Ctx) (resolvedType queryStr : string)
         (chunkSize limit : Z)
         (fuel : nat) (offset : Z) (allResults : list Rec) (w : World)
         {struct fuel}
  : outcome (list Rec * option error) * World :=
  match fuel with
  | O => (OutOfFuel, w)
  | Datatypes.S fuel' =>
      if ctxDone ctx (now w) then (Done ([], Some ErrContext), w)
      else
        let reqURL := requestURL c resolvedType in
        let body := pageBody queryStr chunkSize offset in
        let '((results, chunkInfo, err), w) := doQueryRequest c ctx reqURL body w in
        match err with
        | Some e => (Done ([], Some e), w)
        | None =>
            let allResults := allResults ++ results in
            match chunkInfo with
            | None => (Panic, w)
            | Some chunkInfo =>
                if ChunkInfo.IsLast chunkInfo || (Z.of_nat (length results) <? chunkSize)
                then (Done (allResults, None), w)
                else if (0 <? limit) && (limit <=? Z.of_nat (length allResults))
                then (Done (allResults, None), w)
                else queryLoop c ctx resolvedType queryStr chunkSize limit
                               fuel' (ChunkInfo.Next chunkInfo) allResults w
            end
        end
  end.

(** [Client.Query]. *)
Definition Query (c : Client) (ctx : Ctx) (objectType : string) (q : RQL.Query)
           (fuel : nat) (w : World)
  : outcome (list Rec * option error) * World :=
  let resolvedType := Registry.GetObjectType objectType in
  let q :=
    if negb (HasFilters q) then
      let idCol := Registry.GetIDColumn resolvedType in
      let idCol := if String.eqb idCol "" then "id" else idCol in
      let q := Clone q in
      Eq q idCol "*"
    else q in
  let queryStr := Build q in
  let chunkSize := ChunkSize c in
  let chunkSize :=
    if (0 <? LimitValue q) && (LimitValue q <? chunkSize)
    then LimitValue q else chunkSize in
  match queryLoop c ctx resolvedType queryStr chunkSize (LimitValue q)
                  fuel 0 [] w with
  | (Done (allResults, None), w) =>
      let allResults :=
        if (0 <? LimitValue q) && (LimitValue q <? Z.of_nat (length allResults))
        then take (Z.to_nat (LimitValue q)) allResults
        else allResults in
      (Done (allResults, None), w)
  | other => other
  end.

(** [Client.Count]: one request, no retry. *)
Definition Count (c : Client) (ctx : Ctx) (objectType : string) (q : RQL.Query)
           (w : World) : (Z * option error) * World :=
  let resolvedType := Registry.GetObjectType objectType in
  let q :=
    if negb (HasFilters q) then
      let idCol := Registry.GetIDColumn resolvedType in
      let idCol := if String.eqb idCol "" then "id" else idCol in
      let q := Clone q in
      Eq q idCol "*"
    else q in
  let queryStr := Build q in
  let reqURL := requestURL c resolvedType in
  let body := queryStr in
  let body := if negb (String.eqb body "") then body +:+ "&" else body in
  let body := body +:+ "limit(1)" in
  let req := newPost c reqURL body in
  let req := setHeader "Range" "items=0-0" req in
  let '(r, w) := Do req w in
  match r with
  | DoError cause => ((0, Some (ErrExecuting cause)), w)
  | DoOK resp =>
      if 400 <=? StatusCode resp
      then ((0, Some (ErrAPI (Status resp) (BodyText resp))), w)
      else
        let chunkInfo :=
          parseContentRange (headerGet "Content-Range" (RespHeader resp)) in
        ((ChunkInfo.Count chunkInfo, None), w)
  end.

(** The callback is a closure: a function of the batch and the chunk
    information that may keep a state of its own, [CB]. *)
Section Callback.
Context {CB : Type}.
Variable callback : CB -> list Rec -> option ChunkInfo.t -> bool * CB.

(** The page loop of [QueryCallback]; [Done e] is [return e]. *)
Fixpoint callbackLoop (c : Client) (ctx : Ctx) (resolvedType queryStr : string)
         (chunkSize limit : Z)
         (fuel : nat) (offset totalFetched : Z) (cb : CB) (w : World)
         {struct fuel}
  : outcome (option error) * CB * World :=
  match fuel with
  | O => (OutOfFuel, cb, w)
  | Datatypes.S fuel' =>
      if ctxDone ctx (now w) then (Done (Some ErrContext), cb, w)
      else
        let reqURL := requestURL c resolvedType in
        let body := pageBody queryStr chunkSize offset in
        let '((results, chunkInfo, err), w) :=
          doQueryRequest c ctx reqURL body w in
        match err with
        | Some e => (Done (Some e), cb, w)
        | None =>
            let results :=
              if (0 <? limit) && (limit <? totalFetched + Z.of_nat (length results))
              then take (Z.to_nat (limit - totalFetched)) results
              else results in
            let totalFetched := totalFetched + Z.of_nat (length results) in
            let '(continue, cb) := callback cb results chunkInfo in
            let w := mkWorld (server w) (now w)
                             (trace w ++ [EvCallback results chunkInfo]) in
            if negb continue then (Done None, cb, w)
            else
              match chunkInfo with
              | None => (Panic, cb, w)
              | Some chunkInfo =>
                  if ChunkInfo.IsLast chunkInfo
                     || (Z.of_nat (length results) <? chunkSize)
                  then (Done None, cb, w)
                  else if (0 <? limit) && (limit <=? totalFetched)
                  then (Done None, cb, w)
                  else callbackLoop c ctx resolvedType queryStr chunkSize limit
                                    fuel' (ChunkInfo.Next chunkInfo)
                                    totalFetched cb w
              end
        end
  end.

(** [Client.QueryCallback]. *)
Definition QueryCallback (c : Client) (ctx : Ctx) (objectType : string)
           (q : RQL.Query) (fuel : nat) (cb : CB) (w : World)
  : outcome (option error) * CB * World :=
  let resolvedType := Registry.GetObjectType objectType in
  let q :=
    if negb (HasFilters q) then
      let idCol := Registry.GetIDColumn resolvedType in
      let idCol := if String.eqb idCol "" then "id" else idCol in
      let q := Clone q in
      Eq q idCol "*"
    else q in
  let queryStr := Build q in
  let chunkSize := ChunkSize c in
  let chunkSize :=
    if (0 <? LimitValue q) && (LimitValue q <? chunkSize)
    then LimitValue q else chunkSize in
  callbackLoop c ctx resolvedType queryStr chunkSize (LimitValue q)
               fuel 0 0 cb w.
End Callback.

(** *** [Client.Stream]

    The producer goroutine, seen from a consumer that receives every
    record offered: the records put on the result channel, in order,
    and what is put on the error channel before both are closed. The
    clock does not move while a batch is sent. In the [select] of the
    send, a context that is done wins (Go may take either case when
    both are ready). *)

(** [for _, record := range batch]: the records sent, the new
    [totalSent], and [Some r] when the goroutine returns from inside
    the loop with [r] on the error channel. *)
Fixpoint sendBatch (ctx : Ctx) (limit : Z) (t : Z) (batch : list Rec)
         (totalSent : Z) : list Rec * Z * option (option error) :=
  match batch with
  | [] => ([], totalSent, None)
  | record :: rest =>
      if (0 <? limit) && (limit <=? totalSent) then ([], totalSent, Some None)
      else if ctxDone ctx t then ([], totalSent, Some (Some ErrContext))
      else
        let '(sent, total, r) := sendBatch ctx limit t rest (totalSent + 1) in
        (record :: sent, total, r)
  end.

Fixpoint streamLoop (c : Client) (ctx : Ctx) (resolvedType queryStr : string)
         (chunkSize limit : Z)
         (fuel : nat) (offset totalSent : Z) (sent : list Rec) (w : World)
         {struct fuel}
  : outcome (list Rec * option error) * World :=
  match fuel with
  | O => (OutOfFuel, w)
  | Datatypes.S fuel' =>
      if ctxDone ctx (now w) then (Done (sent, Some ErrContext), w)
      else
        let reqURL := requestURL c resolvedType in
        let body := pageBody queryStr chunkSize offset in
        let '((batch, chunkInfo, err), w) := doQueryRequest c ctx reqURL body w in
        match err with
        | Some e => (Done (sent, Some e), w)
        | None =>
            let '(out, totalSent, r) := sendBatch ctx limit (now w) batch totalSent in
            let sent := sent ++ out in
            match r with
            | Some e => (Done (sent, e), w)
            | None =>
                match chunkInfo with
                | None => (Panic, w)
                | Some chunkInfo =>
                    if ChunkInfo.IsLast chunkInfo
                       || (Z.of_nat (length batch) <? chunkSize)
                    then (Done (sent, None), w)
                    else streamLoop c ctx resolvedType queryStr chunkSize limit
                                    fuel' (ChunkInfo.Next chunkInfo)
                                    totalSent sent w
                end
            end
        end
  end.

Definition Stream (c : Client) (ctx : Ctx) (objectType : string) (q : RQL.Query)
           (fuel : nat) (w : World)
  : outcome (list Rec * option error) * World :=
  let resolvedType := Registry.GetObjectType objectType in
  let q :=
    if negb (HasFilters q) then
      let idCol := Registry.GetIDColumn resolvedType in
      let idCol := if String.eqb idCol "" then "id" else idCol in
      let q := Clone q in
      Eq q idCol "*"
    else q in
  let queryStr := Build q in
  let chunkSize := ChunkSize c in
  let chunkSize :=
    if (0 <? LimitValue q) && (LimitValue q <? chunkSize)
    then LimitValue q else chunkSize in
  streamLoop c ctx resolvedType queryStr chunkSize (LimitValue q)
             fuel 0 0 [] w.

(** The requests of a trace, in order. *)
Fixpoint requests (tr : list Event) : list Request :=
  match tr with
  | [] => []
  | EvDo req :: tr' => req :: requests tr'
  | _ :: tr' => requests tr'
  end.


(** The batches handed to the callback, in order. *)
Fixpoint delivered (tr : list Event) : list (list Rec) :=
  match tr with
  | [] => []
  | EvCallback records _ :: tr' => records :: delivered tr'
  | _ :: tr' => delivered tr'
  end.

(** [w'] continues [w], and every request made in between satisfies
    [P]. *)
Definition added (P : Request -> Prop) (w w' : World) (new : list Event) : Prop :=
  trace w' = trace w ++ new /\ Forall P (requests new).

Definition extendsWith (P : Request -> Prop) (w w' : World) : Prop :=
  exists new, added P w w' new.



End Engine.

(** *** [Client.GetByID]

    One [GET], no retry. [decodeObject] is what [json.Decoder] makes of
    a body when it decodes it into a [map[string]any]; [None] is a
    decoding error. The result [(nil, nil)] is [(None, None)]. *)
Section Lookup.
Context {Rec S : Type}.
Variable handler : S -> Request -> S * DoResult (Rec:=Rec).
Variable decodeObject : string -> option Rec.


End Lookup.

(** What every request of the client carries: the headers [setHeaders]
    and the callers set, and the token when there is one. *)
Definition hasKey (key : string) (h : Header) : bool :=
  existsb (fun kv => String.eqb (fst kv) key) h.

Definition carriesIdentity (c : Client) (req : Request) : Prop :=
  headerGet "User-Agent" (ReqHeader req) = "BV-BRC-Go-Client/1.0"
  /\ headerGet "Accept" (ReqHeader req) = "application/json"
  /\ headerGet "Authorization" (ReqHeader req) = Token c
  /\ hasKey "Authorization" (ReqHeader req) = negb (String.eqb (Token c) "").

(** A query request: a [POST] with the RQL content type. *)
Definition isQueryPost (c : Client) (req : Request) : Prop :=
  Method req = "POST"
  /\ headerGet "Content-Type" (ReqHeader req)
     = "application/rqlquery+x-www-form-urlencoded"
  /\ carriesIdentity c req.

End Client.

(** ** Servers for the properties below

    The source has no server; its tests answer from [httptest] handlers.
    These are the handlers the properties are stated against. *)

Module Mock.

Import Client.

Section Servers.
Context {Rec : Type}.

(** A handler that gives the same answer to every request. *)
Definition always (r : @DoResult Rec) : unit -> Request -> unit * @DoResult Rec :=
  fun _ _ => (tt, r).

Definition statusOnly (code : Z) (status body : string) : @DoResult Rec :=
  DoOK (mkResponse code status [] body None).

(** A handler that plays a script, one answer per request, and
    refuses connections when the script is over. *)
Definition scripted : list (@DoResult Rec) -> Request
                      -> list (@DoResult Rec) * @DoResult Rec :=
  fun script _ =>
    match script with
    | r :: rest => (rest, r)
    | [] => ([], DoError "connection refused")
    end.

(** An answer with status 200, a [Content-Range] header and a body
    that decodes to [page]. The JSON text itself is not modelled. *)
Definition ok (contentRange : string) (page : list Rec) : @DoResult Rec :=
  DoOK (mkResponse 200 "200 OK" [("Content-Range", contentRange)] "" (Some page)).

(** The longest prefix of bytes of a class, and the rest. *)
Fixpoint span (cls : ascii -> bool) (s : string) : string * string :=
  match s with
  | EmptyString => (EmptyString, EmptyString)
  | String c s' =>
      if cls c then let '(a, b) := span cls s' in (String c a, b)
      else (EmptyString, s)
  end.

(** The limit clause that ends a request body, [limit(n)] or
    [limit(n,offset)], read backwards from the end of the body so that
    nothing in the query before it can be mistaken for it. *)
Definition parseLimit (body : string) : option (Z * Z) :=
  match Str.rev body with
  | String c r =>
      if Ascii.eqb c ")" then
        let '(d1, r1) := span Str.isDigit r in
        match r1 with
        | String c1 r2 =>
            if Ascii.eqb c1 "," then
              let '(d2, r3) := span Str.isDigit r2 in
              if Str.hasPrefix "(timil" r3
              then Some (Dec.valFrom 0 (Str.rev d2), Dec.valFrom 0 (Str.rev d1))
              else None
            else if Str.hasPrefix "(timil" r1
            then Some (Dec.valFrom 0 (Str.rev d1), 0)
            else None
        | EmptyString => None
        end
      else None
  | EmptyString => None
  end.

Definition contentRange (start next total : Z) : string :=
  "items " +:+ Dec.Itoa start +:+ "-" +:+ Dec.Itoa next +:+ "/" +:+ Dec.Itoa total.

(** The paging server: it holds [records], all of which match every
    query, and answers a request for [size] records from [offset]
    with that slice of them and the header
    [items <offset>-<offset + returned>/<total>]. *)
Definition paging (records : list Rec) : unit -> Request -> unit * @DoResult Rec :=
  fun _ req =>
    match parseLimit (Body req) with
    | Some (size, offset) =>
        let page := take (Z.to_nat size) (drop (Z.to_nat offset) records) in
        (tt, ok (contentRange offset (offset + Z.of_nat (length page))
                              (Z.of_nat (length records)))
                page)
    | None =>
        (tt, statusOnly 400 "400 Bad Request" "missing limit clause")
    end.

Definition start (s : Type) (srv : s) : @World Rec s := mkWorld srv 0 [].

(** What the paging server holds and what a client with page size
    [size] should exchange with it. *)
Definition total (records : list Rec) : Z := Z.of_nat (length records).

Definition page (records : list Rec) (size offset : Z) : list Rec :=
  take (Z.to_nat size) (drop (Z.to_nat offset) records).

Definition pageRequest (c : Client) (resolvedType queryStr : string)
           (size offset : Z) : Request :=
  newPost c (requestURL c resolvedType) (pageBody queryStr size offset).







(** The paging server with a number of answers left to give: it
    serves that many requests as [paging] does and answers every later
    one with [down]. *)
Definition pagingUntil (records : list Rec) (down : @DoResult Rec)
  : nat -> Request -> nat * @DoResult Rec :=
  fun left req =>
    match left with
    | O => (O, down)
    | S left' => (left', snd (paging records tt req))
    end.


End Servers.
End Mock.

(** ** [internal/cli/tabular.go]: tab-delimited input and output

    The commands read their keys with a [TabReader] and write their
    results with a [TabWriter]. The input of a reader is a text that is
    read to its end without any error but [io.EOF]; the destination of a
    writer accepts everything. *)

Module Tabular.

Definition tab : ascii := ascii_of_N 9.
Definition newline : ascii := ascii_of_N 10.
Definition cr : ascii := ascii_of_N 13.

Inductive error :=
| EOF                                  (* io.EOF *)
| ErrColumnIndex (idx : Z)             (* "invalid column index: %d" *)
| ErrColumnNotFound (col : string).    (* "column %q not found in headers" *)

(** [rest] is what the [bufio.Reader] has not handed out yet;
    [delimiter] is the one byte [NewTabReader] sets, the tab. *)
Record TabReader := mkReader {
  rest : string;
  headers : list string;
  delimiter : ascii;
  hasHeader : bool;
  headerRead : bool
}.

Definition NewTabReader (input : string) (hasHeader : bool) : TabReader :=
  mkReader input [] tab hasHeader false.

(** [bufio.Reader.ReadString(delim)]: the text up to and including the
    first [delim], or everything left together with [io.EOF] ([true])
    when there is none; and what is left after it. *)
Definition ReadString (delim : ascii) (input : string) : string * bool * string :=
  match Str.cut delim input with
  | Some (before, after) => (before +:+ String delim "", false, after)
  | None => (input, true, "")
  end.

(** The loop of [readLine]; every turn that continues has consumed a
    line end, so the length of the input bounds the turns. *)
Fixpoint readLineFrom (fuel : nat) (input : string)
  : option (string * option error * string) :=
  match fuel with
  | O => None
  | S fuel' =>
      let '(line, eof, input') := ReadString newline input in
      if eof && (String.length line =? 0)%nat
      then Some ("", Some EOF, input')
      else
        let line := Str.TrimRight line (String cr (String newline "")) in
        if String.eqb line "" && negb eof
        then readLineFrom fuel' input'
        else Some (line, None, input')
  end.

Definition readLine (t : TabReader)
  : option ((string * option error) * TabReader) :=
  match readLineFrom (S (String.length (rest t))) (rest t) with
  | Some (line, err, input') =>
      Some ((line, err),
            mkReader input' (headers t) (delimiter t) (hasHeader t) (headerRead t))
  | None => None
  end.

Definition Headers (t : TabReader)
  : option ((list string * option error) * TabReader) :=
  if headerRead t then Some ((headers t, None), t)
  else
    let t := mkReader (rest t) (headers t) (delimiter t) (hasHeader t) true in
    if negb (hasHeader t) then Some (([], None), t)
    else
      match readLine t with
      | Some ((line, None), t) =>
          let hs := Str.Split line (delimiter t) in
          Some ((hs, None),
                mkReader (rest t) hs (delimiter t) (hasHeader t) (headerRead t))
      | Some ((_, Some err), t) => Some (([], Some err), t)
      | None => None
      end.

Definition Read (t : TabReader)
  : option ((list string * option error) * TabReader) :=
  match (if negb (headerRead t) then Headers t else Some (([], None), t)) with
  | Some ((_, Some err), t) => Some (([], Some err), t)
  | Some ((_, None), t) =>
      match readLine t with
      | Some ((line, None), t) => Some ((Str.Split line (delimiter t), None), t)
      | Some ((_, Some err), t) => Some (([], Some err), t)
      | None => None
      end
  | None => None
  end.

(** The key of a row: its last field for a negative [keyCol], the field
    at [keyCol] otherwise, and the empty string when there is no such
    field. *)
Definition keyAt (keyCol : Z) (row : list string) : string :=
  if keyCol <? 0
  then if (0 <? length row)%nat then nth (length row - 1) row "" else ""
  else if keyCol <? Z.of_nat (length row) then nth (Z.to_nat keyCol) row ""
       else "".

(** The loop of [ReadBatch], [left] rows still to read. *)
Fixpoint readBatchLoop (left : nat) (keyCol : Z) (t : TabReader)
         (keys : list string) (rows : list (list string))
  : option ((list string * list (list string) * option error) * TabReader) :=
  match left with
  | O => Some ((keys, rows, None), t)
  | S left' =>
      match Read t with
      | Some ((_, Some EOF), t) => Some ((keys, rows, None), t)
      | Some ((_, Some err), t) => Some (([], [], Some err), t)
      | Some ((row, None), t) =>
          readBatchLoop left' keyCol t (keys ++ [keyAt keyCol row]) (rows ++ [row])
      | None => None
      end
  end.

Definition ReadBatch (t : TabReader) (n keyCol : Z)
  : option ((list string * list (list string) * option error) * TabReader) :=
  readBatchLoop (Z.to_nat n) keyCol t [] [].

(** The loop of [FindColumn] over the headers, [i] being the index of
    the first one of [hs]. *)
Fixpoint indexOf (col : string) (hs : list string) (i : Z) : option Z :=
  match hs with
  | [] => None
  | h :: hs' => if String.eqb h col then Some i else indexOf col hs' (i + 1)
  end.

Definition FindColumn (t : TabReader) (col : string) : Z * option error :=
  if String.eqb col "" || String.eqb col "0" then (-1, None)
  else
    let '(idx, err) := Dec.Atoi col in
    if negb err then
      if idx <? 0 then (0, Some (ErrColumnIndex idx)) else (idx - 1, None)
    else
      match indexOf col (headers t) 0 with
      | Some i => (i, None)
      | None => (0, Some (ErrColumnNotFound col))
      end.

(** The writer: [written] is everything handed to the [bufio.Writer],
    which [Flush] brings to the destination. *)
Record TabWriter := mkWriter {
  written : string;
  separator : string
}.

Definition NewTabWriter : TabWriter := mkWriter "" (String tab "").

Definition WriteRow (t : TabWriter) (fields : list string) : TabWriter :=
  let line := Str.Join fields (separator t) in
  mkWriter (written t +:+ line +:+ String newline "") (separator t).

Definition WriteHeaders (t : TabWriter) (hs : list string) : TabWriter :=
  WriteRow t hs.

(** A field without tab and line feed; a row that makes a line the
    reader keeps whole: not empty and not ending in a carriage
    return. *)
Definition clean (field : string) : bool :=
  negb (Str.contains tab field) && negb (Str.contains newline field).

Definition readable (row : list string) : bool :=
  let line := Str.Join row (String tab "") in
  forallb clean row && negb (String.eqb line "")
  && negb (Str.hasSuffix line (String cr "")).

End Tabular.

(** * Properties *)

(** ** Strings, decimal numbers and the pattern matcher *)

Module StrFacts.

Lemma append_assoc (a b c : string) : (a +:+ b) +:+ c = a +:+ (b +:+ c).
Proof. induction a as [|d a IH]; simpl; [reflexivity | by rewrite IH]. Qed.

Lemma append_nil_r (a : string) : a +:+ "" = a.
Proof. induction a as [|d a IH]; simpl; [reflexivity | by rewrite IH]. Qed.

Lemma length_append (a b : string) :
  String.length (a +:+ b) = (String.length a + String.length b)%nat.
Proof. induction a as [|d a IH]; simpl; [reflexivity | by rewrite IH]. Qed.

Lemma flatMap_app f (a b : string) :
  Str.flatMap f (a +:+ b) = Str.flatMap f a +:+ Str.flatMap f b.
Proof.
  induction a as [|c a IH]; simpl; [reflexivity|].
  by rewrite IH, append_assoc.
Qed.

Lemma flatMap_flatMap f g (s : string) :
  Str.flatMap f (Str.flatMap g s) = Str.flatMap (fun c => Str.flatMap f (g c)) s.
Proof.
  induction s as [|c s IH]; simpl; [reflexivity|].
  by rewrite flatMap_app, IH.
Qed.

Lemma flatMap_ext f g (s : string) :
  (forall c, f c = g c) -> Str.flatMap f s = Str.flatMap g s.
Proof. intros H. induction s as [|c s IH]; simpl; [reflexivity | by rewrite H, IH]. Qed.

(** Replacing a one-byte pattern is a byte-wise substitution. *)
Lemma ReplaceAll_byte (p : ascii) (new s : string) :
  Str.ReplaceAll s (String p "") new
  = Str.flatMap (fun c => if Ascii.eqb p c then new else String c "") s.
Proof.
  unfold Str.ReplaceAll.
  induction s as [|c s IH]; simpl; [reflexivity|].
  destruct (Ascii.eqb p c); simpl; by rewrite IH.
Qed.

Lemma contains_app c (a b : string) :
  Str.contains c (a +:+ b) = Str.contains c a || Str.contains c b.
Proof.
  induction a as [|d a IH]; simpl; [reflexivity|].
  destruct (Ascii.eqb c d); simpl; [reflexivity | exact IH].
Qed.

Lemma rev_app (a b : string) : Str.rev (a +:+ b) = Str.rev b +:+ Str.rev a.
Proof.
  induction a as [|c a IH]; simpl.
  - by rewrite append_nil_r.
  - by rewrite IH, append_assoc.
Qed.

Lemma rev_involutive (a : string) : Str.rev (Str.rev a) = a.
Proof.
  induction a as [|c a IH]; simpl; [reflexivity|].
  rewrite rev_app, IH. reflexivity.
Qed.

Lemma substring_0 (b c : string) :
  substring 0 (String.length b) (b +:+ c) = b.
Proof.
  induction b as [|d b IH]; simpl.
  - destruct c; reflexivity.
  - by rewrite IH.
Qed.

Lemma substring_mid (a b c : string) (n m : nat) :
  n = String.length a -> m = String.length b ->
  substring n m (a +:+ b +:+ c) = b.
Proof.
  intros -> ->. induction a as [|d a IH]; simpl; [apply substring_0 | exact IH].
Qed.

End StrFacts.

Module DecFacts.
Import Dec StrFacts.









Lemma digit_not_sign (c : ascii) :
  Str.isDigit c = true -> Ascii.eqb c "-" = false /\ Ascii.eqb c "+" = false.
Proof. destruct c as [[] [] [] [] [] [] [] []]; intros H; try discriminate H; split; reflexivity. Qed.

End DecFacts.

Module RegexpFacts.
Import Regexp StrFacts.




Lemma matchHere_Mark pat (s : string) pos marks :
  matchHere (Mark :: pat) s pos marks = matchHere pat s pos (pos :: marks).
Proof. reflexivity. Qed.



End RegexpFacts.

Module HeaderFacts.
Import Client Regexp StrFacts RegexpFacts DecFacts.


End HeaderFacts.

Module MockFacts.
Import Client StrFacts DecFacts RegexpFacts.



End MockFacts.

(** ** The page loop against the paging server *)

Module PagingFacts.
Import Client DecFacts HeaderFacts MockFacts.
Import Mock.

Section Paging.
Context {Rec : Type}.
Variable records : list Rec.
Variable c : Client.
Variables (resolvedType queryStr : string).
Variables (size limit : Z).

Hypothesis Hretries : 0 <= MaxRetries c.
Hypothesis Hsize : 0 < size.
Hypothesis Htotal : total records <= Dec.MaxInt.








(** The callback loop against the paging server, with a limit set
    and a callback that always asks for more: the batches handed
    over, put end to end, are the records from [offset] up to the
    limit or the end, whichever comes first. *)
Section Callback.
Context {CB : Type}.
Variable callback : CB -> list Rec -> option ChunkInfo.t -> bool * CB.
Hypothesis Hcontinue : forall cb recs info, fst (callback cb recs info) = true.
Hypothesis Hlimit : 0 < limit.

End Callback.
End Paging.
End PagingFacts.

(** ** The preprocessing of the entry points *)

Module PrepFacts.
Import RQL Client.

Lemma copy_make {A} (zero : A) (l : list A) :
  RQL.copy (RQL.make zero (length l)) l = l.
Proof.
  unfold RQL.copy, RQL.make.
  rewrite repeat_length, firstn_all, skipn_all2; [apply app_nil_r |].
  by rewrite repeat_length.
Qed.

(** On contents, a clone is the query itself. *)
Lemma Clone_contents (q : RQL.Query) : Clone q = q.
Proof. unfold Clone. rewrite !copy_make. by destruct q. Qed.

Lemma HasFilters_false (q : RQL.Query) :
  HasFilters q = false ->
  Filters q = [] /\ RequiredFields q = [] /\ Keyword q = "".
Proof.
  unfold HasFilters. intros H.
  apply orb_false_iff in H as [H Hk]. apply orb_false_iff in H as [Hf Hr].
  destruct (Filters q); [| discriminate Hf].
  destruct (RequiredFields q); [| discriminate Hr].
  apply negb_false_iff, String.eqb_eq in Hk. auto.
Qed.

(** What the four entry points do to the query before encoding it. *)
Lemma prepare (objectType : string) (q : RQL.Query) :
  (if negb (HasFilters q) then
     let idCol := Registry.GetIDColumn (Registry.GetObjectType objectType) in
     let idCol := if String.eqb idCol "" then "id" else idCol in
     let q := Clone q in
     Eq q idCol "*"
   else q)
  = withWildcard objectType q.
Proof.
  unfold withWildcard. destruct (HasFilters q) eqn:H; cbn [negb]; [reflexivity|].
  cbv zeta. rewrite Clone_contents. unfold Eq, addFilter.
  destruct (HasFilters_false q H) as (-> & _ & _). reflexivity.
Qed.

Lemma withWildcard_LimitValue (objectType : string) (q : RQL.Query) :
  LimitValue (withWildcard objectType q) = LimitValue q.
Proof. unfold withWildcard. by destruct (HasFilters q). Qed.

Lemma withWildcard_HasFilters (objectType : string) (q : RQL.Query) :
  HasFilters (withWildcard objectType q) = true.
Proof. unfold withWildcard. by destruct (HasFilters q) eqn:H. Qed.

Section Unfold.
Context {Rec S : Type}.
Variable handler : S -> Request -> S * DoResult (Rec:=Rec).

Lemma Query_unfold c ctx objectType q fuel (w : World) :
  Query handler c ctx objectType q fuel w
  = match queryLoop handler c ctx (Registry.GetObjectType objectType)
                    (Build (withWildcard objectType q)) (pageSize c q)
                    (LimitValue q) fuel 0 [] w with
    | (Done (allResults, None), w) =>
        (Done (if (0 <? LimitValue q)
                  && (LimitValue q <? Z.of_nat (length allResults))
               then take (Z.to_nat (LimitValue q)) allResults
               else allResults, None), w)
    | other => other
    end.
Proof.
  unfold Query. cbv zeta. rewrite prepare, withWildcard_LimitValue. reflexivity.
Qed.

Lemma Stream_unfold c ctx objectType q fuel (w : World) :
  Stream handler c ctx objectType q fuel w
  = streamLoop handler c ctx (Registry.GetObjectType objectType)
               (Build (withWildcard objectType q)) (pageSize c q)
               (LimitValue q) fuel 0 0 [] w.
Proof.
  unfold Stream. cbv zeta. rewrite prepare, withWildcard_LimitValue. reflexivity.
Qed.

Lemma QueryCallback_unfold {CB} (callback : CB -> list Rec -> option ChunkInfo.t -> bool * CB)
      c ctx objectType q fuel cb (w : World) :
  QueryCallback handler callback c ctx objectType q fuel cb w
  = callbackLoop handler callback c ctx (Registry.GetObjectType objectType)
                 (Build (withWildcard objectType q)) (pageSize c q)
                 (LimitValue q) fuel 0 0 cb w.
Proof.
  unfold QueryCallback. cbv zeta. rewrite prepare, withWildcard_LimitValue. reflexivity.
Qed.

End Unfold.
End PrepFacts.

(** ** What the loops add to the trace *)

Module TraceFacts.
Import Client.

Section Traces.
Context {Rec S : Type}.
Variable handler : S -> Request -> S * DoResult (Rec:=Rec).
Implicit Types (w : World (Rec:=Rec) (S:=S)) (tr : list (Event (Rec:=Rec))).

Lemma requests_app tr1 tr2 : requests (tr1 ++ tr2) = requests tr1 ++ requests tr2.
Proof.
  induction tr1 as [|[] tr1 IH]; simpl; [reflexivity | by rewrite IH | exact IH ..].
Qed.


Lemma delivered_app tr1 tr2 : delivered (tr1 ++ tr2) = delivered tr1 ++ delivered tr2.
Proof.
  induction tr1 as [|[] tr1 IH]; simpl; [reflexivity | exact IH | exact IH | by rewrite IH].
Qed.

Lemma added_nil P w w' : trace w' = trace w -> added P w w' [].
Proof. intros H. split; [by rewrite app_nil_r | constructor]. Qed.

Lemma added_trans P w1 w2 w3 new1 new2 :
  added P w1 w2 new1 -> added P w2 w3 new2 -> added P w1 w3 (new1 ++ new2).
Proof.
  intros [H1 F1] [H2 F2]. split.
  - by rewrite H2, H1, app_assoc.
  - rewrite requests_app. by apply Forall_app.
Qed.

Lemma sleepOrDone_added P ctx delay w :
  exists new, added P w (snd (sleepOrDone ctx delay w)) new /\ delivered new = [].
Proof.
  unfold sleepOrDone. destruct (ctxDone ctx _); cbn [snd].
  - exists []. split; [by apply added_nil | reflexivity].
  - exists [EvSleep delay]. split; [| reflexivity].
    split; [reflexivity | constructor].
Qed.

Lemma Do_added (P : Request -> Prop) req w :
  P req -> added P w (snd (Do handler req w)) [EvDo req].
Proof.
  intros HP. unfold Do. destruct (handler (server w) req) as [s' r]. cbn [snd].
  split; [reflexivity | by repeat constructor].
Qed.

(** The retry loop only sends the request it was given, and never
    calls the callback. *)
Lemma attemptLoop_added (P : Request -> Prop) c ctx url body :
  P (newPost c url body) ->
  forall remaining attempt lastErr w,
  exists new,
    added P w (snd (attemptLoop handler c ctx url body remaining attempt lastErr w)) new
    /\ delivered new = [].
Proof.
  intros HP. induction remaining as [|remaining IH]; intros attempt lastErr w.
  - exists []. split; [by apply added_nil | reflexivity].
  - cbn [attemptLoop].
    assert (exists w1 new1 cancelled,
              (if 0 <? attempt then sleepOrDone ctx (backoff attempt) w
               else (false, w)) = (cancelled, w1)
              /\ added P w w1 new1 /\ delivered new1 = []) as (w1 & new1 & b & -> & Ha1 & Hd1).
    { destruct (0 <? attempt).
      - destruct (sleepOrDone_added P ctx (backoff attempt) w) as (new & Ha & Hd).
        destruct (sleepOrDone ctx (backoff attempt) w) as [b w1] eqn:E.
        exists w1, new, b. auto.
      - exists w, [], false. split; [reflexivity | split; [by apply added_nil | reflexivity]]. }
    destruct b; cbn [snd]; [exists new1; auto|].
    pose proof (Do_added P (newPost c url body) w1 HP) as Ha2.
    destruct (Do handler (newPost c url body) w1) as [r w2]. cbn [snd] in Ha2.
    assert (forall attempt' lastErr',
              exists new,
                added P w (snd (attemptLoop handler c ctx url body remaining
                                            attempt' lastErr' w2)) new
                /\ delivered new = []) as Hrec.
    { intros attempt' lastErr'.
      destruct (IH attempt' lastErr' w2) as (new3 & Ha3 & Hd3).
      exists ((new1 ++ [EvDo (newPost c url body)]) ++ new3). split.
      - eapply added_trans; [eapply added_trans |]; eassumption.
      - rewrite !delivered_app, Hd1, Hd3. reflexivity. }
    assert (exists new, added P w w2 new /\ delivered new = []) as Hstop.
    { exists (new1 ++ [EvDo (newPost c url body)]). split.
      - eapply added_trans; eassumption.
      - rewrite delivered_app, Hd1. reflexivity. }
    destruct r as [cause | resp]; [apply Hrec|].
    destruct (500 <=? StatusCode resp); [apply Hrec|].
    destruct (400 <=? StatusCode resp); [exact Hstop|].
    destruct (Decoded resp); [exact Hstop | apply Hrec].
Qed.

Lemma doQueryRequest_added (P : Request -> Prop) c ctx url body w :
  P (newPost c url body) ->
  exists new,
    added P w (snd (doQueryRequest handler c ctx url body w)) new
    /\ delivered new = [].
Proof. intros HP. by apply attemptLoop_added. Qed.
End Traces.
End TraceFacts.

Module LoopFacts.
Import Client TraceFacts.

Section Loops.
Context {Rec S : Type}.
Variable handler : S -> Request -> S * DoResult (Rec:=Rec).
Variable c : Client.
Variable ctx : Ctx.
Variables (resolvedType queryStr : string).
Variables (chunkSize limit : Z).
Implicit Types (w : World (Rec:=Rec) (S:=S)).

(** A request for a page of the encoded query [queryStr]. *)
Let P (req : Request) : Prop :=
  URL req = requestURL c resolvedType
  /\ exists size offset, Body req = pageBody queryStr size offset.




(** An error comes with no records. *)
Lemma queryLoop_error_nil (fuel : nat) : forall offset allResults w recs e w',
  queryLoop handler c ctx resolvedType queryStr chunkSize limit
            fuel offset allResults w = (Done (recs, Some e), w') ->
  recs = [].
Proof.
  induction fuel as [|fuel IH]; intros offset allResults w recs e w' H.
  - discriminate H.
  - cbn [queryLoop] in H.
    destruct (ctxDone ctx (now w)); [by inversion H|].
    destruct (doQueryRequest _ _ _ _ _ w) as [[[results info] err] w1].
    destruct err; [by inversion H|].
    destruct info as [info|]; [| discriminate H].
    destruct (ChunkInfo.IsLast info || _); [discriminate H|].
    destruct ((0 <? limit) && _); [discriminate H|].
    by eapply IH.
Qed.


Section Callback.
Context {CB : Type}.
Variable callback : CB -> list Rec -> option ChunkInfo.t -> bool * CB.

End Callback.
End Loops.
End LoopFacts.

(** ** The retry loop against a server that always gives the same answer *)

Module RetryFacts.
Import Client TraceFacts.
Import Mock.

Section Retry.
Context {Rec : Type}.
Variable c : Client.
Variables (url body : string).
Variables (code : Z) (status text : string).
Implicit Types (w : World (Rec:=Rec) (S:=unit)).





End Retry.

End RetryFacts.

(** ** The shape of a submatch list *)

Module SubmatchFacts.
Import Regexp Client.

Lemma plusMore_marks cls k (n : nat) :
  (forall s pos marks e marks',
      k s pos marks = Some (e, marks') -> length marks' = (length marks + n)%nat) ->
  forall s pos marks e marks',
    plusMore cls k s pos marks = Some (e, marks') ->
    length marks' = (length marks + n)%nat.
Proof.
  intros Hk. induction s as [|d s IH]; intros pos marks e marks' H; simpl in H.
  - by eapply Hk.
  - destruct (cls d); [| by eapply Hk].
    destruct (plusMore cls k s (S pos) marks) as [[e1 m1]|] eqn:E.
    + inversion H; subst. by eapply IH.
    + by eapply Hk.
Qed.

(** A match records one boundary for every [Mark] of the pattern. *)
Lemma matchHere_marks (pat : list atom) : forall s pos marks e marks',
  matchHere pat s pos marks = Some (e, marks') ->
  length marks' = (length marks + countMarks pat)%nat.
Proof.
  induction pat as [|a pat IH]; intros s pos marks e marks' H.
  - simpl in H. inversion H; subst. simpl. lia.
  - destruct a as [c | cls |]; simpl in H.
    + destruct s as [|d s]; [discriminate|].
      destruct (Ascii.eqb c d); [| discriminate]. by eapply IH.
    + destruct s as [|d s]; [discriminate|].
      destruct (cls d); [| discriminate].
      eapply (plusMore_marks cls (matchHere pat) (countMarks pat)); [exact IH | exact H].
    + apply IH in H. simpl in *. lia.
Qed.

Lemma search_marks (pat : list atom) : forall s pos start e marks,
  search pat s pos = Some (start, (e, marks)) ->
  length marks = countMarks pat.
Proof.
  induction s as [|d s IH]; intros pos start e marks H; simpl in H.
  - destruct (matchHere pat "" pos []) as [[e1 m1]|] eqn:E; [| discriminate].
    inversion H; subst. by apply matchHere_marks in E.
  - destruct (matchHere pat (String d s) pos []) as [[e1 m1]|] eqn:E.
    + inversion H; subst. by apply matchHere_marks in E.
    + by eapply IH.
Qed.

(** [FindStringSubmatch] with the pattern of the client gives nil or
    four strings. *)
Lemma FindStringSubmatch_contentRange_length (header : string) :
  FindStringSubmatch contentRangeRE header = []
  \/ length (FindStringSubmatch contentRangeRE header) = 4%nat.
Proof.
  unfold FindStringSubmatch.
  destruct (search contentRangeRE header 0) as [[start [e marks]]|] eqn:E; [| by left].
  right. apply search_marks in E. change (countMarks contentRangeRE) with 6%nat in E.
  do 7 (destruct marks as [|? marks]; try discriminate E).
  reflexivity.
Qed.
End SubmatchFacts.

(** ** The encoder *)

Module BuildFacts.
Import RQL StrFacts.

Lemma fold_snoc {A B} (g f : A -> B) (l : list A) (init : list B) :
  (forall x, g x = f x) ->
  fold_left (fun acc x => acc ++ [g x]) l init = init ++ map f l.
Proof.
  intros Hgf. revert init.
  induction l as [|x l IH]; intros init; simpl.
  - by rewrite app_nil_r.
  - rewrite IH, Hgf, <- app_assoc. reflexivity.
Qed.

Lemma filter_part (f : Filter.t) :
  (if String.eqb (Filter.Op f) OpIn then
     "in(" +:+ Filter.Field f +:+ ",(" +:+
       Str.Join (fold_left (fun acc v => acc ++ [encodeRQLValue v]) (Filter.Values f) []) ","
       +:+ "))"
   else Filter.Op f +:+ "(" +:+ Filter.Field f +:+ "," +:+
        encodeRQLValue (Filter.Value f) +:+ ")")
  = filterClause f.
Proof.
  unfold filterClause.
  rewrite (fold_snoc encodeRQLValue encodeRQLValue) by reflexivity.
  reflexivity.
Qed.

(** The slice [parts] that [Build] fills is the clause list of the
    specification. *)
Lemma Build_clauses (q : Query) : Build q = Str.Join (clausesInOrder q) "&".
Proof.
  unfold Build, clausesInOrder.
  rewrite (fold_snoc _ filterClause) by apply filter_part.
  rewrite (fold_snoc _ requiredClause) by reflexivity.
  rewrite (fold_snoc _ sortTerm) by reflexivity.
  unfold selectClause, keywordClause, sortClause.
  destruct (SelectFields q) as [|s ss]; destruct (SortSpecs q) as [|t ts];
    destruct (String.eqb (Keyword q) ""); simpl;
    rewrite <- ?app_assoc, ?app_nil_r; simpl; rewrite ?app_nil_r; reflexivity.
Qed.

Lemma encodeByte_escape (c : ascii) :
  Str.flatMap (fun d => if Ascii.eqb "+" d then "%20" else String d "")
              (URL.escapeByte c)
  = encodeByte c.
Proof. destruct c as [[] [] [] [] [] [] [] []]; reflexivity. Qed.

(** [encodeRQLValue] works byte by byte. *)
Lemma encodeRQLValue_bytes (s : string) :
  encodeRQLValue s = Str.flatMap encodeByte s.
Proof.
  unfold encodeRQLValue, URL.QueryEscape.
  rewrite ReplaceAll_byte, flatMap_flatMap.
  apply flatMap_ext, encodeByte_escape.
Qed.

Lemma encodeByte_no_plus (c : ascii) : Str.contains "+" (encodeByte c) = false.
Proof. destruct c as [[] [] [] [] [] [] [] []]; reflexivity. Qed.

Lemma encodeRQLValue_no_plus (s : string) :
  Str.contains "+" (encodeRQLValue s) = false.
Proof.
  rewrite encodeRQLValue_bytes.
  induction s as [|c s IH]; simpl; [reflexivity|].
  by rewrite contains_app, encodeByte_no_plus, IH.
Qed.

Lemma percentDecode_encodeByte (c : ascii) (t : string) :
  URL.percentDecode (encodeByte c +:+ t) = String c (URL.percentDecode t).
Proof. destruct c as [[] [] [] [] [] [] [] []]; reflexivity. Qed.

(** Percent-decoding an encoded value gives the value back. *)
Lemma percentDecode_encode (s : string) :
  URL.percentDecode (encodeRQLValue s) = s.
Proof.
  rewrite encodeRQLValue_bytes.
  induction s as [|c s IH]; simpl; [reflexivity|].
  by rewrite percentDecode_encodeByte, IH.
Qed.
End BuildFacts.

(** ** The query in memory: what a clone shares and what it owns *)

Module MemFacts.
Import Mem.

Lemma bind_Some {A B} (m : M A) (k : A -> M B) st b st' :
  bind m k st = Some (b, st') ->
  exists a st1, m st = Some (a, st1) /\ k a st1 = Some (b, st').
Proof.
  unfold bind. destruct (m st) as [[a st1]|]; [| discriminate].
  intros H. by exists a, st1.
Qed.

Lemma ret_Some {A} (a b : A) st st' : ret a st = Some (b, st') -> a = b /\ st = st'.
Proof. unfold ret. intros H. by inversion H. Qed.

Lemma lawful_strK : lawful strK.
Proof. intros m st. cbn. repeat split; auto. Qed.

Lemma lawful_filterK : lawful filterK.
Proof. intros m st. cbn. repeat split; auto. Qed.

Lemma lawful_sortK : lawful sortK.
Proof. intros m st. cbn. repeat split; auto. Qed.

Lemma stable_refl n st : (n <= next st)%positive -> stable n st st.
Proof. intros H. split; [exact H | auto]. Qed.

Lemma stable_trans n st1 st2 st3 :
  stable n st1 st2 -> stable n st2 st3 -> stable n st1 st3.
Proof.
  intros [_ H12] [H3 H23]. split; [exact H3|].
  intros a Ha. destruct (H23 a Ha) as (-> & -> & -> & ->). exact (H12 a Ha).
Qed.

Section Builtins.
Context {A : Type} (k : kind A).
Hypothesis Hk : lawful k.

Lemma setArrays_stable n m st :
  (n <= next st)%positive ->
  (forall a, (a < n)%positive -> m !! a = arrays k st !! a) ->
  stable n st (setArrays k m st)
  /\ queries (setArrays k m st) = queries st.
Proof.
  intros Hn Hm. destruct (Hk m st) as (_ & Hq & Hnext & Hother).
  split; [split|]; [by rewrite Hnext | | exact Hq].
  intros a Ha. destruct (Hother a (Hm a Ha)) as (H1 & H2 & H3).
  rewrite Hq. auto.
Qed.

Lemma alloc_spec n elems st a st' :
  (n <= next st)%positive ->
  alloc k elems st = Some (a, st') ->
  stable n st st' /\ queries st' = queries st /\ (n <= a)%positive.
Proof.
  unfold alloc. intros Hn H. inversion H; subst; clear H.
  destruct (setArrays_stable n (<[next st := elems]> (arrays k st)) st Hn)
    as [[Hn' Hs] Hq].
  { intros a Ha. apply lookup_insert_ne. lia. }
  split; [split|]; [cbn in *; lia | exact Hs | by split].
Qed.

Lemma make_spec n len st s st' :
  (n <= next st)%positive ->
  make k len st = Some (s, st') ->
  stable n st st' /\ queries st' = queries st /\ above n s.
Proof.
  intros Hn H. unfold make in H.
  apply bind_Some in H as (a & st1 & Ha & Hr). apply ret_Some in Hr as [<- <-].
  destruct (alloc_spec n _ st a st1 Hn Ha) as (Hs & Hq & Hge).
  split; [exact Hs | split; [exact Hq | exact Hge]].
Qed.

Lemma alter_stable n (f : list A -> list A) a0 st :
  (n <= next st)%positive -> (n <= a0)%positive ->
  stable n st (setArrays k (alter f a0 (arrays k st)) st)
  /\ queries (setArrays k (alter f a0 (arrays k st)) st) = queries st.
Proof.
  intros Hn Ha0. apply setArrays_stable; [exact Hn|].
  intros a Ha. apply lookup_alter_ne. lia.
Qed.

Lemma copy_spec n dst src st st' :
  (n <= next st)%positive -> above n dst ->
  copy k dst src st = Some (tt, st') ->
  stable n st st' /\ queries st' = queries st.
Proof.
  unfold copy, above. intros Hn Hdst H.
  destruct (arr dst) as [a0|]; inversion H; subst; clear H.
  - by apply alter_stable.
  - split; [by apply stable_refl | reflexivity].
Qed.

Lemma setIndex_spec n s i x st st' :
  (n <= next st)%positive -> above n s ->
  setIndex k s i x st = Some (tt, st') ->
  stable n st st' /\ queries st' = queries st.
Proof.
  unfold setIndex, above. intros Hn Hs H.
  destruct (i <? len s)%nat; [| discriminate].
  destruct (arr s) as [a0|]; inversion H; subst; clear H.
  by apply alter_stable.
Qed.

Lemma append_spec n s xs st s' st' :
  (n <= next st)%positive -> above n s ->
  append k s xs st = Some (s', st') ->
  stable n st st' /\ queries st' = queries st /\ above n s'.
Proof.
  intros Hn Hs H. unfold append in H.
  destruct xs as [|x xs].
  { apply ret_Some in H as [<- <-].
    split; [by apply stable_refl | by split]. }
  unfold above in Hs. destruct (arr s) as [a0|] eqn:Ea.
  - destruct (_ <=? cap s)%nat.
    + inversion H; subst; clear H.
      destruct (alter_stable n
                  (fun old => take (len s) old ++ (x :: xs)
                                ++ drop (len s + length (x :: xs)) old)
                  a0 st Hn Hs) as [H1 H2].
      split; [exact H1 | split; [exact H2 | exact Hs]].
    + apply bind_Some in H as (b & st1 & Hb & Hr). apply ret_Some in Hr as [<- <-].
      destruct (alloc_spec n _ st b st1 Hn Hb) as (H1 & H2 & H3).
      split; [exact H1 | split; [exact H2 | exact H3]].
  - apply bind_Some in H as (b & st1 & Hb & Hr). apply ret_Some in Hr as [<- <-].
    destruct (alloc_spec n _ st b st1 Hn Hb) as (H1 & H2 & H3).
    split; [exact H1 | split; [exact H2 | exact H3]].
Qed.
End Builtins.

Lemma load_Some p st q st' :
  load p st = Some (q, st') -> queries st !! p = Some q /\ st' = st.
Proof.
  unfold load. destruct (queries st !! p); [| discriminate].
  intros H. by inversion H.
Qed.

Lemma store_owned n st c cq st' :
  (n <= next st)%positive -> (n <= c)%positive -> ownsAbove n cq ->
  store_ c cq st = Some (tt, st') ->
  stable n st st' /\ ownedAt n st' c.
Proof.
  intros Hn Hc Hcq H. unfold store_ in H. inversion H; subst; clear H.
  split; [split|]; cbn.
  - exact Hn.
  - intros a Ha. repeat split. apply lookup_insert_ne. lia.
  - split; [exact Hn | split; [exact Hc |]].
    exists cq. split; [apply lookup_insert_eq | exact Hcq].
Qed.

Lemma newQuery_owned n st cq c st' :
  (n <= next st)%positive -> ownsAbove n cq ->
  newQuery cq st = Some (c, st') ->
  stable n st st' /\ ownedAt n st' c.
Proof.
  intros Hn Hcq H. unfold newQuery in H. inversion H; subst; clear H.
  split; [split|]; cbn.
  - lia.
  - intros a Ha. repeat split. apply lookup_insert_ne. lia.
  - split; [cbn; lia | split; [exact Hn |]].
    exists cq. split; [apply lookup_insert_eq | exact Hcq].
Qed.

(** A step that leaves the queries alone keeps what is owned. *)
Lemma ownedAt_step n st st' c :
  ownedAt n st c -> stable n st st' -> queries st' = queries st ->
  ownedAt n st' c.
Proof.
  intros (Hn & Hc & cq & Hq & Ho) [Hn' _] Heq.
  split; [exact Hn' | split; [exact Hc |]]. exists cq. by rewrite Heq.
Qed.

Ltac unbind :=
  repeat match goal with
         | H : bind _ _ _ = Some _ |- _ => apply bind_Some in H as (? & ? & ? & H)
         | H : ret _ _ = Some _ |- _ => apply ret_Some in H as [? ?]; subst
         end.

Ltac loaded Hq :=
  match goal with
  | Hl : load _ _ = Some _ |- _ =>
      apply load_Some in Hl as [Hl ->]; rewrite Hq in Hl;
      inversion Hl; subst; clear Hl
  end.

(** Appending to one list of an owned query and storing the result. *)
Lemma append_owned {A} (k : kind A) (Hk : lawful k) n st c cq
      (get : Query -> slice) (set : slice -> Query -> Query) xs s st1 u st2 :
  (forall s q, ownsAbove n q -> above n s -> ownsAbove n (set s q)) ->
  ownedAt n st c -> queries st !! c = Some cq -> above n (get cq) ->
  append k (get cq) xs st = Some (s, st1) ->
  store_ c (set s cq) st1 = Some (u, st2) ->
  stable n st st2 /\ ownedAt n st2 c.
Proof.
  intros Hset Hown Hq Hget Happ Hst. destruct u.
  pose proof Hown as (Hn & Hc & cq' & Hq' & Ho).
  assert (cq' = cq) as -> by congruence.
  destruct (append_spec k Hk n _ _ _ _ _ Hn Hget Happ) as (Hs1 & Hq1 & Hab).
  destruct (store_owned n st1 c (set s cq) st2 (proj1 Hs1) Hc (Hset _ _ Ho Hab) Hst)
    as [Hs2 Ho2].
  split; [eapply stable_trans; eassumption | exact Ho2].
Qed.

Ltac appended k Hk get set Hown Hq Ho :=
  match goal with
  | Happ : append _ _ _ _ = Some _, Hst : store_ _ _ _ = Some _ |- _ =>
      eapply (append_owned k Hk _ _ _ _ get set);
      [by intros ? ? (? & ? & ? & ?) ? | exact Hown | exact Hq | exact Ho
      | exact Happ | exact Hst]
  end.

Ltac assigned k Hk Hn Hown Ho :=
  match goal with
  | Hset : setIndex _ _ _ _ _ = Some _ |- _ =>
      let Hs := fresh "Hs" in let Hq' := fresh "Hq'" in
      destruct (setIndex_spec k Hk _ _ _ _ _ _ Hn Ho Hset) as [Hs Hq'];
      split; [exact Hs | by eapply ownedAt_step]
  end.

(** No mutation of an owned query changes anything below [n]. *)
Lemma apply_owned n c (m : mutation) st st' :
  ownedAt n st c -> apply c m st = Some (tt, st') ->
  stable n st st' /\ ownedAt n st' c.
Proof.
  intros Hown H.
  pose proof Hown as (Hn & Hc & cq & Hq & (Ho1 & Ho2 & Ho3 & Ho4)).
  destruct m; cbn [apply] in H.
  - unfold Select in H. unbind. loaded Hq.
    appended strK lawful_strK SelectFields
      (fun s q => mkQuery s (Filters q) (RequiredFields q) (Keyword q)
                          (SortSpecs q) (LimitValue q)) Hown Hq Ho1.
  - unfold addFilter in H. unbind. loaded Hq.
    appended filterK lawful_filterK Filters
      (fun s q => mkQuery (SelectFields q) s (RequiredFields q) (Keyword q)
                          (SortSpecs q) (LimitValue q)) Hown Hq Ho2.
  - unfold In, addFilter in H. unbind.
    match goal with
    | Hv : variadic _ st = Some (_, ?stv), Hc' : (n <= ?cv)%positive |- _ =>
        set (st0 := stv) in *; set (c' := cv) in *;
        assert (stable n st st0 /\ queries st0 = queries st) as [Hs0 Hq0];
        [ unfold variadic in Hv; destruct values;
          [ apply ret_Some in Hv as [_ <-];
            split; [by apply stable_refl | reflexivity]
          | unbind;
            match goal with
            | Ha : alloc _ _ _ = Some _ |- _ =>
                destruct (alloc_spec strK lawful_strK n _ _ _ _ Hn Ha) as (? & ? & _)
            end; by split ]
        | ];
        pose proof (ownedAt_step n st st0 _ Hown Hs0 Hq0) as Hown0;
        rewrite <- Hq0 in Hq
    end.
    loaded Hq.
    match goal with
    | Happ : append _ _ _ _ = Some _, Hst : store_ _ _ _ = Some _ |- _ =>
        assert (stable n st0 st' /\ ownedAt n st' c') as [Hs2 Ho];
        [ eapply (append_owned filterK lawful_filterK _ _ _ _ Filters
                    (fun s q => mkQuery (SelectFields q) s (RequiredFields q)
                                        (Keyword q) (SortSpecs q) (LimitValue q)));
          [by intros ? ? (? & ? & ? & ?) ? | exact Hown0 | exact Hq | exact Ho2
          | exact Happ | exact Hst]
        | ]
    end.
    split; [eapply stable_trans; eassumption | exact Ho].
  - unfold Required in H. unbind. loaded Hq.
    appended strK lawful_strK RequiredFields
      (fun s q => mkQuery (SelectFields q) (Filters q) s (Keyword q)
                          (SortSpecs q) (LimitValue q)) Hown Hq Ho3.
  - unfold WithKeyword in H. unbind. loaded Hq.
    match goal with
    | Hst : store_ _ _ _ = Some (?u, _) |- _ =>
        destruct u; eapply store_owned; [exact Hn | exact Hc | | exact Hst]
    end.
    by repeat split.
  - unfold Sort in H. unbind. loaded Hq.
    appended sortK lawful_sortK SortSpecs
      (fun s q => mkQuery (SelectFields q) (Filters q) (RequiredFields q)
                          (Keyword q) s (LimitValue q)) Hown Hq Ho4.
  - unfold Limit in H. unbind. loaded Hq.
    match goal with
    | Hst : store_ _ _ _ = Some (?u, _) |- _ =>
        destruct u; eapply store_owned; [exact Hn | exact Hc | | exact Hst]
    end.
    by repeat split.
  - unfold setSelectField in H. unbind. loaded Hq.
    assigned strK lawful_strK Hn Hown Ho1.
  - unfold setRequiredField in H. unbind. loaded Hq.
    assigned strK lawful_strK Hn Hown Ho3.
  - unfold setFilter in H. unbind. loaded Hq.
    assigned filterK lawful_filterK Hn Hown Ho2.
  - unfold setSortSpec in H. unbind. loaded Hq.
    assigned sortK lawful_sortK Hn Hown Ho4.
Qed.

Lemma applyAll_owned n c (ms : list mutation) : forall st st',
  ownedAt n st c -> applyAll c ms st = Some (tt, st') ->
  stable n st st' /\ ownedAt n st' c.
Proof.
  induction ms as [|m ms IH]; intros st st' Hown H; cbn [applyAll] in H.
  - apply ret_Some in H as [_ <-].
    split; [apply stable_refl; apply Hown | exact Hown].
  - apply bind_Some in H as ([] & st1 & Hm & H).
    destruct (apply_owned n c m st st1 Hown Hm) as [Hs1 Ho1].
    destruct (IH st1 st' Ho1 H) as [Hs2 Ho2].
    split; [eapply stable_trans; eassumption | exact Ho2].
Qed.

(** The clone and its four lists are new. *)
Lemma Clone_owned p st c st1 :
  Clone p st = Some (c, st1) ->
  stable (next st) st st1 /\ ownedAt (next st) st1 c.
Proof.
  intros H. unfold Clone in H.
  apply bind_Some in H as (q & s0 & Hl & H). apply load_Some in Hl as [_ ->].
  apply bind_Some in H as (sel & s1 & Hsel & H).
  apply bind_Some in H as (fil & s2 & Hfil & H).
  apply bind_Some in H as (req & s3 & Hreq & H).
  apply bind_Some in H as (srt & s4 & Hsrt & H).
  apply bind_Some in H as (newQ & s5 & Hnew & H).
  apply bind_Some in H as ([] & s6 & Hc1 & H).
  apply bind_Some in H as ([] & s7 & Hc2 & H).
  apply bind_Some in H as ([] & s8 & Hc3 & H).
  apply bind_Some in H as ([] & s9 & Hc4 & H).
  apply ret_Some in H as [-> ->].
  set (n := next st) in *.
  assert (n <= next st)%positive as Hn by (subst n; lia).
  destruct (make_spec strK lawful_strK n _ _ _ _ Hn Hsel) as (S1 & Q1 & A1).
  destruct (make_spec filterK lawful_filterK n _ _ _ _ (proj1 S1) Hfil) as (S2 & Q2 & A2).
  destruct (make_spec strK lawful_strK n _ _ _ _ (proj1 S2) Hreq) as (S3 & Q3 & A3).
  destruct (make_spec sortK lawful_sortK n _ _ _ _ (proj1 S3) Hsrt) as (S4 & Q4 & A4).
  destruct (newQuery_owned n s4
              (mkQuery sel fil req (Keyword q) srt (LimitValue q)) _ _ (proj1 S4)
              (conj A1 (conj A2 (conj A3 A4))) Hnew) as [S5 O5].
  destruct (copy_spec strK lawful_strK n _ _ _ _ (proj1 S5) A1 Hc1) as [S6 Q6].
  destruct (copy_spec filterK lawful_filterK n _ _ _ _ (proj1 S6) A2 Hc2) as [S7 Q7].
  destruct (copy_spec strK lawful_strK n _ _ _ _ (proj1 S7) A3 Hc3) as [S8 Q8].
  destruct (copy_spec sortK lawful_sortK n _ _ _ _ (proj1 S8) A4 Hc4) as [S9 Q9].
  split.
  - do 8 (eapply stable_trans; [| eassumption]). exact S1.
  - pose proof (ownedAt_step n _ _ _ O5 S6 Q6) as O6.
    pose proof (ownedAt_step n _ _ _ O6 S7 Q7) as O7.
    pose proof (ownedAt_step n _ _ _ O7 S8 Q8) as O8.
    exact (ownedAt_step n _ _ _ O8 S9 Q9).
Qed.

Lemma contents_str_stable n st st' s :
  stable n st st' -> below n s -> contents strK st' s = contents strK st s.
Proof.
  intros [_ H] Hs. unfold contents, below in *. destruct (arr s) as [a|]; [| reflexivity].
  simpl. do 2 f_equal. apply (H a Hs).
Qed.

(** A query whose arrays lie below [n] reads the same in every store
    that agrees below [n]. *)
Lemma view_stable n st st' q :
  stable n st st' -> reachesBelow n st q -> view st' q = view st q.
Proof.
  intros Hst (H1 & H2 & H3 & H4 & H5). unfold view.
  rewrite !(contents_str_stable n st st') by assumption.
  assert (contents filterK st' (Filters q) = contents filterK st (Filters q)) as ->.
  { destruct Hst as [_ H]. unfold contents, below in *.
    destruct (arr (Filters q)) as [a|]; [| reflexivity].
    simpl. do 2 f_equal. apply (H a H2). }
  assert (contents sortK st' (SortSpecs q) = contents sortK st (SortSpecs q)) as ->.
  { destruct Hst as [_ H]. unfold contents, below in *.
    destruct (arr (SortSpecs q)) as [a|]; [| reflexivity].
    simpl. do 2 f_equal. apply (H a H4). }
  f_equal. apply map_ext_Forall.
  eapply Forall_impl; [exact H5|]. intros f Hf. unfold viewFilter.
  by rewrite (contents_str_stable n st st').
Qed.

(** The part of C5 that holds: whatever mutators a caller applies to a
    clone, and whatever it assigns to the elements of the clone's four
    lists, the original reads as before. *)
Lemma Clone_owns_its_lists (p : loc) q st c st1 (ms : list mutation) st2 :
  queries st !! p = Some q ->
  (p < next st)%positive ->
  reachesBelow (next st) st q ->
  Clone p st = Some (c, st1) ->
  applyAll c ms st1 = Some (tt, st2) ->
  viewAt st2 p = viewAt st p.
Proof.
  intros Hq Hp Hreach Hclone Hms.
  destruct (Clone_owned p st c st1 Hclone) as [Hs1 Ho1].
  destruct (applyAll_owned (next st) c ms st1 st2 Ho1 Hms) as [Hs2 _].
  pose proof (stable_trans _ _ _ _ Hs1 Hs2) as [Hn Hs].
  destruct (Hs p Hp) as (_ & _ & _ & E).
  unfold viewAt. rewrite E, Hq. cbn.
  f_equal. by apply (view_stable (next st)).
Qed.

(** The query of the scenario of C5 is such an original: whatever is
    done to its clone through the mutators and the assignments above,
    it keeps reading [select(f1,f2)&in(status,(a,b))]. *)
Example original_keeps_its_view (ms : list mutation) :
  match cloneScenario emptyStore with
  | Some ((q, c), st1) =>
      forall st2, applyAll c ms st1 = Some (tt, st2) ->
                  viewAt st2 q
                  = Some (RQL.In (RQL.Select RQL.NewQuery ["f1"; "f2"])
                                 "status" ["a"; "b"])
  | None => False
  end.
Proof.
  destruct (original emptyStore) as [[p st]|] eqn:Ho; [| discriminate Ho].
  destruct (Clone p st) as [[c st1]|] eqn:Hc;
    [| vm_compute in Ho; injection Ho as <- <-; discriminate Hc].
  unfold cloneScenario, bind. rewrite Ho, Hc. cbn [ret].
  intros st2 Hms.
  vm_compute in Ho. injection Ho as <- <-.
  erewrite Clone_owns_its_lists; [| | | | exact Hc | exact Hms].
  - vm_compute. reflexivity.
  - vm_compute. reflexivity.
  - reflexivity.
  - vm_compute. repeat split; repeat constructor.
Qed.
End MemFacts.

(** ** Facts about splitting and joining *)

Module SplitFacts.
Import Str.

Lemma cut_None (sep : ascii) (s : string) :
  cut sep s = None <-> contains sep s = false.
Proof.
  induction s as [|c s IH]; cbn [cut contains]; [done|].
  rewrite (Ascii.eqb_sym sep c).
  destruct (Ascii.eqb c sep); [done|].
  destruct (cut sep s) as [[a b]|]; [|tauto].
  split; [done|]. intros H. apply IH in H. done.
Qed.

Lemma cut_app (sep : ascii) (a b : string) :
  contains sep a = false -> cut sep (a +:+ String sep b) = Some (a, b).
Proof.
  induction a as [|c a IH]; cbn [contains String.append cut].
  - by rewrite Ascii.eqb_refl.
  - rewrite (Ascii.eqb_sym sep c). destruct (Ascii.eqb c sep); [done|].
    intros H. by rewrite (IH H).
Qed.

Lemma cut_Some (sep : ascii) (s a b : string) :
  cut sep s = Some (a, b) <-> s = a +:+ String sep b /\ contains sep a = false.
Proof.
  split; [| intros [-> H]; by apply cut_app].
  revert a. induction s as [|c s IH]; intros a; cbn [cut]; [done|].
  destruct (Ascii.eqb_spec c sep) as [->|Hne].
  - by intros [= <- <-].
  - destruct (cut sep s) as [[a' b']|]; [|done].
    intros [= <- <-]. destruct (IH a' eq_refl) as [-> Ha'].
    split; [done|]. cbn [contains].
    by rewrite (proj2 (Ascii.eqb_neq sep c)) by congruence.
Qed.

Lemma count_le_length (sep : ascii) (s : string) :
  (count sep s <= String.length s)%nat.
Proof.
  induction s as [|c s IH]; cbn [count String.length]; [lia|].
  destruct (Ascii.eqb c sep); lia.
Qed.

Lemma count_0 (sep : ascii) (s : string) :
  count sep s = O <-> contains sep s = false.
Proof.
  induction s as [|c s IH]; cbn [count contains]; [done|].
  rewrite (Ascii.eqb_sym sep c). destruct (Ascii.eqb c sep); [done | exact IH].
Qed.

Lemma count_app (sep : ascii) (a b : string) :
  count sep (a +:+ b) = (count sep a + count sep b)%nat.
Proof.
  induction a as [|c a IH]; cbn [count String.append]; [done|].
  rewrite IH. by destruct (Ascii.eqb c sep).
Qed.

(** [SplitN] with [n = 2] cuts at the first separator. *)
Lemma SplitN_2 (s : string) (sep : ascii) :
  SplitN s sep 2 = match cut sep s with
                   | Some (a, b) => [a; b]
                   | None => [s]
                   end.
Proof.
  unfold SplitN. cbn [Z.eqb Z.ltb Z.compare].
  destruct s as [|c s].
  - reflexivity.
  - cbn [String.length].
    replace (Z.of_nat (S (String.length s)) + 1 <? 2) with false
      by (symmetry; apply Z.ltb_ge; lia).
    change (Z.to_nat (2 - 1)) with 1%nat. cbn [genSplit].
    by destruct (cut sep (String c s)) as [[a b]|].
Qed.

(** [Split] cuts at every separator. *)
Lemma Split_count (s : string) (sep : ascii) :
  Split s sep = genSplit sep (count sep s) s.
Proof.
  unfold Split, SplitN. cbn [Z.eqb Z.ltb Z.compare].
  pose proof (count_le_length sep s).
  replace (Z.of_nat (String.length s) + 1 <? Z.of_nat (count sep s) + 1) with false
    by (symmetry; apply Z.ltb_ge; lia).
  f_equal. lia.
Qed.

(** Joining the pieces with the separator gives the text back. *)
Lemma Join_genSplit (sep : ascii) (k : nat) :
  forall s, Join (genSplit sep k s) (String sep "") = s.
Proof.
  induction k as [|k IH]; intros s; cbn [genSplit]; [reflexivity|].
  destruct (cut sep s) as [[a b]|] eqn:E; [|reflexivity].
  apply cut_Some in E as [-> _].
  specialize (IH b).
  destruct (genSplit sep k b) as [|x rest] eqn:G.
  - destruct k; cbn in G; [done|]. by destruct (cut sep b) as [[? ?]|].
  - cbn [Join]. cbn [Join] in IH. rewrite IH. reflexivity.
Qed.

Lemma genSplit_length (sep : ascii) (k : nat) :
  forall s, (k <= count sep s)%nat -> length (genSplit sep k s) = S k.
Proof.
  induction k as [|k IH]; intros s Hk; cbn [genSplit]; [reflexivity|].
  destruct (cut sep s) as [[a b]|] eqn:E.
  - apply cut_Some in E as [-> Ha]. cbn [length]. f_equal. apply IH.
    rewrite count_app in Hk. apply count_0 in Ha. rewrite Ha in Hk.
    cbn [count] in Hk. rewrite Ascii.eqb_refl in Hk. lia.
  - apply cut_None, count_0 in E. lia.
Qed.

(** Splitting a join of pieces that hold no separator gives the pieces
    back. *)
Lemma genSplit_Join (sep : ascii) (x : string) (rest : list string) :
  Forall (fun p => contains sep p = false) (x :: rest) ->
  genSplit sep (count sep (Join (x :: rest) (String sep "")))
           (Join (x :: rest) (String sep ""))
  = x :: rest.
Proof.
  revert x. induction rest as [|y rest IH]; intros x Hall.
  - cbn [Join]. apply Forall_inv in Hall.
    rewrite (proj2 (count_0 sep x) Hall). reflexivity.
  - pose proof (Forall_inv Hall) as Hx. apply Forall_inv_tail in Hall.
    change (Join (x :: y :: rest) (String sep ""))
      with (x +:+ String sep "" +:+ Join (y :: rest) (String sep "")).
    change (String sep "" +:+ Join (y :: rest) (String sep ""))
      with (String sep (Join (y :: rest) (String sep ""))).
    rewrite count_app, (proj2 (count_0 sep x) Hx). cbn [count Nat.add].
    rewrite Ascii.eqb_refl. cbn [genSplit].
    rewrite cut_app by exact Hx. f_equal. by apply IH.
Qed.

(** Every piece of a full split is free of the separator. *)
Lemma genSplit_pieces (sep : ascii) (k : nat) :
  forall s, count sep s = k ->
            Forall (fun p => contains sep p = false) (genSplit sep k s).
Proof.
  induction k as [|k IH]; intros s Hk; cbn [genSplit].
  - constructor; [by apply count_0 | constructor].
  - destruct (cut sep s) as [[a b]|] eqn:E.
    + apply cut_Some in E as [-> Ha]. constructor; [exact Ha|]. apply IH.
      rewrite count_app, (proj2 (count_0 sep a) Ha) in Hk.
      cbn [count] in Hk. rewrite Ascii.eqb_refl in Hk. lia.
    + apply cut_None, count_0 in E. lia.
Qed.
End SplitFacts.

(** ** Facts about encoded values and built query strings *)

Module EncodeFacts.
Import RQL StrFacts.

Lemma all_app (cls : ascii -> bool) (a b : string) :
  Str.all cls (a +:+ b) = Str.all cls a && Str.all cls b.
Proof.
  induction a as [|c a IH]; cbn [Str.all String.append]; [reflexivity|].
  by rewrite IH, andb_assoc.
Qed.

Lemma all_contains (cls : ascii -> bool) (s : string) (c : ascii) :
  Str.all cls s = true -> Str.contains c s = true -> cls c = true.
Proof.
  induction s as [|d s IH]; cbn [Str.all Str.contains]; [discriminate|].
  intros [Hd Hs]%andb_prop. destruct (Ascii.eqb_spec c d) as [->|_]; [done|].
  by apply IH.
Qed.

Lemma all_flatMap (cls : ascii -> bool) (f : ascii -> string) (s : string) :
  (forall c, Str.all cls (f c) = true) -> Str.all cls (Str.flatMap f s) = true.
Proof.
  intros H. induction s as [|c s IH]; cbn [Str.flatMap]; [reflexivity|].
  by rewrite all_app, H, IH.
Qed.

Lemma encodeByte_plain (c : ascii) : Str.all plainByte (encodeByte c) = true.
Proof. destruct c as [[] [] [] [] [] [] [] []]; reflexivity. Qed.

Lemma encodeRQLValue_plain (s : string) :
  Str.all plainByte (encodeRQLValue s) = true.
Proof.
  rewrite BuildFacts.encodeRQLValue_bytes.
  apply all_flatMap, encodeByte_plain.
Qed.

(** A byte that is escaped and is not [%] occurs in no encoded value. *)
Lemma encodeRQLValue_free (c : ascii) (s : string) :
  plainByte c = false -> Str.contains c (encodeRQLValue s) = false.
Proof.
  intros Hc. destruct (Str.contains c (encodeRQLValue s)) eqn:E; [|reflexivity].
  pose proof (all_contains _ _ _ (encodeRQLValue_plain s) E). congruence.
Qed.

Lemma contains_Join (c sep : ascii) (xs : list string) :
  Ascii.eqb c sep = false ->
  Forall (fun x => Str.contains c x = false) xs ->
  Str.contains c (Str.Join xs (String sep "")) = false.
Proof.
  intros Hsep. induction xs as [|x xs IH]; intros Hall; [reflexivity|].
  pose proof (Forall_inv Hall) as Hx. apply Forall_inv_tail in Hall.
  destruct xs as [|y ys]; [exact Hx|].
  change (Str.Join (x :: y :: ys) (String sep ""))
    with (x +:+ String sep "" +:+ Str.Join (y :: ys) (String sep "")).
  rewrite !contains_app, Hx, (IH Hall). cbn [Str.contains]. by rewrite Hsep.
Qed.

(** With names free of [&], no clause holds an [&]. *)
Lemma clauses_free (q : Query) :
  namesFree "&" q ->
  Forall (fun clause => Str.contains "&" clause = false) (clausesInOrder q).
Proof.
  intros (Hsel & Hfil & Hreq & Hsort). unfold clausesInOrder.
  assert (forall v, Str.contains "&" (encodeRQLValue v) = false) as Henc
    by (intros v; by apply encodeRQLValue_free).
  repeat apply Forall_app_2.
  - unfold selectClause. destruct (SelectFields q) as [|f fs]; constructor; [|constructor].
    rewrite !contains_app. rewrite (contains_Join "&" ","); [reflexivity | reflexivity | exact Hsel].
  - apply Forall_map. eapply Forall_impl; [exact Hfil|].
    intros f [Hop Hfield]. cbn beta. unfold filterClause.
    destruct (String.eqb (Filter.Op f) OpIn).
    + rewrite !contains_app, Hfield.
      rewrite (contains_Join "&" ","); [reflexivity | reflexivity |].
      apply Forall_map, Forall_forall. intros v _. apply Henc.
    + by rewrite !contains_app, Hop, Hfield, Henc.
  - apply Forall_map. eapply Forall_impl; [exact Hreq|].
    intros name Hname. cbn beta. unfold requiredClause.
    by rewrite !contains_app, Hname.
  - unfold keywordClause. destruct (String.eqb (Keyword q) ""); constructor; [|constructor].
    by rewrite !contains_app, Henc.
  - unfold sortClause. destruct (SortSpecs q) as [|t ts] eqn:E; constructor; [|constructor].
    rewrite !contains_app. rewrite (contains_Join "&" ","); [reflexivity | reflexivity |].
    apply Forall_map. eapply Forall_impl; [exact Hsort|].
    intros sp Hsp. cbn beta. unfold sortTerm.
    rewrite contains_app, Hsp. by destruct (SortSpec.Descending sp).
Qed.

Lemma Join_empty (xs : list string) (sep : string) :
  Forall (fun x => x <> "") xs -> Str.Join xs sep = "" -> xs = [].
Proof.
  destruct xs as [|x xs]; [done|]. intros Hall.
  pose proof (Forall_inv Hall) as Hx. destruct xs as [|y ys]; cbn [Str.Join].
  - done.
  - destruct x; [done | discriminate].
Qed.

Lemma clauses_nonempty (q : Query) :
  Forall (fun clause => clause <> "") (clausesInOrder q).
Proof.
  assert (forall a b, a +:+ String "(" b <> "") as Hparen
    by (intros a b; destruct a; discriminate).
  unfold clausesInOrder. repeat apply Forall_app_2.
  - unfold selectClause. destruct (SelectFields q); constructor; [discriminate | constructor].
  - apply Forall_map, Forall_forall. intros f _. cbn beta. unfold filterClause.
    destruct (String.eqb (Filter.Op f) OpIn); [discriminate | apply Hparen].
  - apply Forall_map, Forall_forall. intros name _. discriminate.
  - unfold keywordClause. destruct (String.eqb (Keyword q) ""); constructor;
      [discriminate | constructor].
  - unfold sortClause. destruct (SortSpecs q); constructor; [discriminate | constructor].
Qed.
End EncodeFacts.

(** * The claims of the specification *)

Module Spec.
Import RQL Client.

(** C6. [Build] emits the clauses in a fixed order, joined by [&]: the
    select clause, one clause per filter in filter order, one
    [ne(field,)] clause per required field, the keyword clause, the sort
    clause. The empty query builds the empty string, and
    [Select("a","b").Eq("x","y")] builds [select(a,b)&eq(x,y)]. *)
Theorem Build_fixed_order (q : RQL.Query) :
  Build q
  = Str.Join (selectClause q
                ++ map filterClause (Filters q)
                ++ map requiredClause (RequiredFields q)
                ++ keywordClause q
                ++ sortClause q) "&"
  /\ Build NewQuery = ""
  /\ Build (Eq (Select NewQuery ["a"; "b"]) "x" "y") = "select(a,b)&eq(x,y)".
Proof.
  split; [apply BuildFacts.Build_clauses | split; reflexivity].
Qed.

(** C7. A filter value is percent-encoded and every [+], which only the
    encoding of a space produces, becomes [%20]: no [+] is left, a space
    is [%20], a literal [+] is [%2B], and decoding gives the value back.
    An [in] filter renders as [in(field,(v1,v2,...))] with every value
    encoded in this way, in order. *)
Theorem encodeRQLValue_spec (s field : string) (values : list string) :
  encodeRQLValue s = Str.ReplaceAll (URL.QueryEscape s) "+" "%20"
  /\ (forall c, Str.contains "+" (URL.escapeByte c) = Ascii.eqb c " ")
  /\ encodeRQLValue s = Str.flatMap encodeByte s
  /\ Str.contains "+" (encodeRQLValue s) = false
  /\ encodeRQLValue " " = "%20"
  /\ encodeRQLValue "+" = "%2B"
  /\ URL.percentDecode (encodeRQLValue s) = s
  /\ Build (In NewQuery field values)
     = "in(" +:+ field +:+ ",(" +:+ Str.Join (map encodeRQLValue values) "," +:+ "))"
  /\ Build (In NewQuery "status" ["a"; "b"; "c"]) = "in(status,(a,b,c))".
Proof.
  split; [reflexivity|].
  split; [intros c; destruct c as [[] [] [] [] [] [] [] []]; reflexivity|].
  split; [apply BuildFacts.encodeRQLValue_bytes|].
  split; [apply BuildFacts.encodeRQLValue_no_plus|].
  split; [reflexivity|]. split; [reflexivity|].
  split; [apply BuildFacts.percentDecode_encode|].
  split; [| reflexivity].
  rewrite BuildFacts.Build_clauses. reflexivity.
Qed.

(** C4. [parseContentRange] reads [items 400-500/500] as
    [{400, 500, 500, true}] and [items 0-100/500] as
    [{0, 100, 500, false}]; an empty header and a header the pattern
    does not match give [{0, 0, 0, false}]; and whenever the pattern
    matches, [IsLast] holds exactly when [Next >= Count]. *)
Theorem parseContentRange_spec :
  parseContentRange "items 400-500/500" = ChunkInfo.mk 400 500 500 true
  /\ parseContentRange "items 0-100/500" = ChunkInfo.mk 0 100 500 false
  /\ parseContentRange "" = ChunkInfo.mk 0 0 0 false
  /\ parseContentRange "not a valid header" = ChunkInfo.mk 0 0 0 false
  /\ (forall header,
        Regexp.FindStringSubmatch contentRangeRE header = [] ->
        parseContentRange header = ChunkInfo.mk 0 0 0 false)
  /\ (forall header,
        Regexp.FindStringSubmatch contentRangeRE header <> [] ->
        (ChunkInfo.IsLast (parseContentRange header) = true
         <-> ChunkInfo.Count (parseContentRange header)
             <= ChunkInfo.Next (parseContentRange header))).
Proof.
  split; [reflexivity|]. split; [reflexivity|].
  split; [reflexivity|]. split; [reflexivity|].
  split.
  - intros header H. unfold parseContentRange. rewrite H.
    by destruct (String.eqb header "").
  - intros header H. unfold parseContentRange.
    destruct (String.eqb header "") eqn:E.
    { apply String.eqb_eq in E. subst header. by destruct H. }
    destruct (SubmatchFacts.FindStringSubmatch_contentRange_length header)
      as [Hnil | Hlen]; [congruence|].
    rewrite Hlen. cbn [Nat.eqb negb ChunkInfo.IsLast ChunkInfo.Count ChunkInfo.Next].
    apply Z.leb_le.
Qed.

(** The two conditional parts of C4 at a header that does not match and
    at one that does. *)
Lemma parseContentRange_spec_witness :
  parseContentRange "items 5-7" = ChunkInfo.mk 0 0 0 false
  /\ (ChunkInfo.IsLast (parseContentRange "items 200-250/250") = true
      <-> ChunkInfo.Count (parseContentRange "items 200-250/250")
          <= ChunkInfo.Next (parseContentRange "items 200-250/250")).
Proof.
  destruct parseContentRange_spec as (_ & _ & _ & _ & Hno & Hyes).
  split.
  - apply Hno. reflexivity.
  - apply Hyes. vm_compute. discriminate.
Defined.






(** C9. [Query] fails atomically. Whenever the call returns an error it
    returns no records; and when the request for a page fails, the loop
    returns that error and nil whatever was accumulated from the pages
    before. *)
Theorem Query_fails_atomically {Rec St : Type}
        (handler : St -> Request -> St * DoResult (Rec:=Rec))
        (c : Client) (ctx : Ctx) (objectType : string) (q : RQL.Query)
        (fuel : nat) (w : World (Rec:=Rec) (S:=St)) :
  (forall recs e w',
      Query handler c ctx objectType q fuel w = (Done (recs, Some e), w') ->
      recs = [])
  /\ (forall resolvedType queryStr chunkSize limit offset allResults
             junk info e (w0 w1 : World (Rec:=Rec) (S:=St)),
        ctxDone ctx (now w0) = false ->
        doQueryRequest handler c ctx (requestURL c resolvedType)
                       (pageBody queryStr chunkSize offset) w0
        = ((junk, info, Some e), w1) ->
        queryLoop handler c ctx resolvedType queryStr chunkSize limit
                  (S fuel) offset allResults w0
        = (Done ([], Some e), w1)).
Proof.
  split.
  - intros recs e w'. rewrite PrepFacts.Query_unfold.
    destruct (queryLoop _ _ _ _ _ _ _ _ _ _ w) as [[[recs0 [e0|]]| |] w0] eqn:E;
      intros H; inversion H; subst.
    eapply LoopFacts.queryLoop_error_nil. exact E.
  - intros rt qs size limit offset allResults junk info e w0 w1 Hctx Hreq.
    cbn [queryLoop]. rewrite Hctx, Hreq. reflexivity.
Qed.

(** C9 on a server that answers the first page and refuses the
    second, and on the loop holding two records when a page fails. *)
Lemma Query_fails_atomically_witness :
  (exists recs e w',
      Query Mock.scripted
            (WithChunkSize 2 NewClient) None "genome" NewQuery 5
            (mkWorld [Mock.ok "items 0-2/4" [11; 12]%nat;
                      Mock.statusOnly 404 "404 Not Found" "gone"] 0 [])
      = (Done (recs, Some e), w')
      /\ e = ErrAPI "404 Not Found" "gone"
      /\ length (requests (trace w')) = 2%nat
      /\ recs = [])
  /\ fst (queryLoop (Mock.always (Mock.statusOnly 404 "404 Not Found" "gone"))
                    NewClient None "genome" "eq(genome_id,%2A)" 2 0
                    1 2 [11; 12]%nat (Mock.start unit tt))
     = Done ([], Some (ErrAPI "404 Not Found" "gone")).
Proof.
  split.
  - do 3 eexists.
    split; [vm_compute; reflexivity | split; [reflexivity | split; [reflexivity |]]].
    eapply (proj1 (Query_fails_atomically
                     Mock.scripted
                     (WithChunkSize 2 NewClient) None "genome" NewQuery 5
                     (mkWorld [Mock.ok "items 0-2/4" [11; 12]%nat;
                               Mock.statusOnly 404 "404 Not Found" "gone"] 0 []))).
    vm_compute. reflexivity.
  - erewrite (proj2 (Query_fails_atomically
                       (Mock.always (Mock.statusOnly (Rec:=nat) 404 "404 Not Found" "gone"))
                       NewClient None "genome" NewQuery 0 (Mock.start unit tt)));
      [reflexivity | reflexivity | vm_compute; reflexivity].
Defined.



(** The batches of that run: the second page is cut to two records. *)
Example QueryCallback_cuts_last_page :
  delivered
    (trace (snd (QueryCallback (Mock.paging (seq 0 7))
                               (fun (cb : unit) (_ : list nat) (_ : option ChunkInfo.t) =>
                                  (true, cb))
                               (WithChunkSize 3 NewClient) None "genome"
                               (Limit NewQuery 5) 5 tt (Mock.start unit tt))))
  = [[0; 1; 2]; [3; 4]]%nat.
Proof. vm_compute. reflexivity. Qed.




(** C5 fails on the value list of an [in] filter. After
    [c := q.Clone()] for [q = Select("f1","f2").In("status","a","b")],
    both build the same string; the assignment
    [c.Filters[0].Values[0] = "z"] then changes what [q] builds, because
    [copy] duplicated the [Filter] struct and with it the slice header
    of [Values], not the array behind it. The assignment
    [c.SelectFields[0] = "x"] leaves [q] as it was. *)
Theorem Clone_shares_in_values :
  match Mem.cloneScenario Mem.emptyStore with
  | Some ((q, c), st) =>
      Mem.Build st q = Some "select(f1,f2)&in(status,(a,b))"
      /\ Mem.Build st c = Some "select(f1,f2)&in(status,(a,b))"
      /\ match Mem.setFilterValue c 0 0 "z" st with
         | Some (_, st') =>
             Mem.Build st' q = Some "select(f1,f2)&in(status,(z,b))"
             /\ Mem.Build st' c = Some "select(f1,f2)&in(status,(z,b))"
         | None => False
         end
      /\ match Mem.setSelectField c 0 "x" st with
         | Some (_, st') =>
             Mem.Build st' q = Some "select(f1,f2)&in(status,(a,b))"
             /\ Mem.Build st' c = Some "select(x,f2)&in(status,(a,b))"
         | None => False
         end
  | None => False
  end.
Proof. vm_compute. repeat split; reflexivity. Qed.

(** The registry is read with the resolved name: [genome] resolves to
    itself and has the column [genome_id]; [feature] resolves to
    [genome_feature], for which [IDColumns] has no entry, so the
    wildcard filter is on [id]; so is it for a name the registry does
    not know. *)
Example idColumnFor_examples :
  idColumnFor "genome" = "genome_id"
  /\ idColumnFor "feature" = "id"
  /\ idColumnFor "unknown" = "id".
Proof. vm_compute. repeat split; reflexivity. Qed.

(** What the injected filter looks like in a request body:
    [encodeRQLValue] escapes the asterisk as it does any other value. *)
Example wildcard_in_the_body :
  Build (withWildcard "genome" NewQuery) = "eq(genome_id,%2A)"
  /\ Build (withWildcard "feature" (Select NewQuery ["patric_id"]))
     = "select(patric_id)&eq(id,%2A)".
Proof. vm_compute. split; reflexivity. Qed.

(** Beyond 34 retries the delay computed for the next attempt is no
    longer the power of two: the product wraps in 64 bits. *)
Example backoff_wraps : backoff 35 = -1266874889709551616.
Proof. reflexivity. Qed.

End Spec.

(** * Further properties of the code

    ** [api/query.go]: the parsers of filter specifications *)

Module QueryProps.
Import RQL.

(** X1. [ParseFilterSpec] cuts a specification at its first comma: a
    specification without a comma is refused with the error that
    carries it, and [field,value] with a comma-free [field] gives back
    [field] and [value], commas of the value included. Nothing else is
    accepted: an accepted specification is the field, a comma and the
    value. *)
Theorem ParseFilterSpec_first_comma (spec : string) :
  (Str.contains "," spec = false ->
   ParseFilterSpec spec = ("", "", Some (ErrFilterSpec spec)))
  /\ (forall field value,
        Str.contains "," field = false ->
        ParseFilterSpec (field +:+ "," +:+ value) = (field, value, None))
  /\ (forall field value,
        ParseFilterSpec spec = (field, value, None) ->
        spec = field +:+ "," +:+ value /\ Str.contains "," field = false).
Proof.
  unfold ParseFilterSpec. split; [| split].
  - intros H. rewrite SplitFacts.SplitN_2.
    by rewrite (proj2 (SplitFacts.cut_None _ _) H).
  - intros field value H. rewrite SplitFacts.SplitN_2.
    change (field +:+ "," +:+ value) with (field +:+ String "," value).
    by rewrite (SplitFacts.cut_app _ _ _ H).
  - intros field value. rewrite SplitFacts.SplitN_2.
    destruct (Str.cut "," spec) as [[a b]|] eqn:E; [| discriminate].
    cbn. intros [= <- <-]. by apply SplitFacts.cut_Some in E.
Qed.

(** X2. [ParseInFilterSpec] splits at every comma: it refuses exactly
    the specifications without a comma; it gives back the field and the
    values of [field,v1,...,vn] when none of them holds a comma and
    there is at least one value; and whatever it accepts is the
    comma-joined list of the field and the values it returns, none of
    which holds a comma. An empty value between two commas is a value
    like any other. *)
Theorem ParseInFilterSpec_every_comma (spec : string) :
  (Str.contains "," spec = false ->
   ParseInFilterSpec spec = ("", [], Some (ErrInFilterSpec spec)))
  /\ (forall field v values,
        Forall (fun p => Str.contains "," p = false) (field :: v :: values) ->
        ParseInFilterSpec (Str.Join (field :: v :: values) ",")
        = (field, v :: values, None))
  /\ (forall field values,
        ParseInFilterSpec spec = (field, values, None) ->
        spec = Str.Join (field :: values) ","
        /\ values <> []
        /\ Forall (fun p => Str.contains "," p = false) (field :: values)).
Proof.
  unfold ParseInFilterSpec. rewrite SplitFacts.Split_count. split; [| split].
  - intros H. by rewrite (proj2 (SplitFacts.count_0 _ _) H).
  - intros field v values Hall. rewrite SplitFacts.Split_count.
    by rewrite (SplitFacts.genSplit_Join "," field (v :: values) Hall).
  - intros field values.
    pose proof (SplitFacts.Join_genSplit "," (Str.count "," spec) spec) as Hjoin.
    pose proof (SplitFacts.genSplit_pieces "," _ spec eq_refl) as Hpieces.
    destruct (Str.genSplit "," (Str.count "," spec) spec) as [|x [|y rest]];
      cbn [length Nat.ltb Nat.leb]; try discriminate.
    cbn [nth drop]. intros [= <- <-]. by split; [| split].
Qed.

(** X6. An encoded value is made of unreserved bytes and [%] only: a
    byte that [url.QueryEscape] escapes and that is not [%] itself, such
    as [&], [(], [)], [,], [=], [|], a quote or a space, occurs in no
    encoded value, whatever the value. *)
Theorem encodeRQLValue_alphabet (s : string) (c : ascii) :
  Str.contains c (encodeRQLValue s) = true ->
  URL.shouldEscape c = false \/ c = "%"%char.
Proof.
  intros H.
  pose proof (EncodeFacts.all_contains _ _ _ (EncodeFacts.encodeRQLValue_plain s) H) as Hc.
  unfold plainByte in Hc. apply orb_prop in Hc as [Hc | Hc].
  - left. by destruct (URL.shouldEscape c).
  - right. by apply Ascii.eqb_eq.
Qed.

(** X6 on the value [a&limit(1)]: the bytes of its encoding
    [a%26limit%281%29] are plain. *)
Lemma encodeRQLValue_alphabet_witness :
  Str.contains "%" (encodeRQLValue "a&limit(1)") = true
  /\ (URL.shouldEscape "%" = false \/ "%"%char = "%"%char).
Proof.
  assert (Str.contains "%" (encodeRQLValue "a&limit(1)") = true) as H by reflexivity.
  split; [exact H|].
  exact (encodeRQLValue_alphabet "a&limit(1)" "%"%char H).
Defined.

(** X7. Values cannot add clauses. When no name of the query holds an
    [&] (the selected, required and sorted fields, the operator and the
    field of every filter), splitting the built string at [&] gives back
    exactly the clauses of the query, in order, whatever bytes the
    filter values and the keyword hold. *)
Theorem Build_splits_into_clauses (q : RQL.Query) :
  namesFree "&" q ->
  clausesInOrder q <> [] ->
  Str.Split (Build q) "&" = clausesInOrder q.
Proof.
  intros Hfree Hne. rewrite BuildFacts.Build_clauses, SplitFacts.Split_count.
  pose proof (EncodeFacts.clauses_free q Hfree) as Hall.
  destruct (clausesInOrder q) as [|x rest]; [done|].
  by apply SplitFacts.genSplit_Join.
Qed.

(** X7 on a query whose value and keyword hold [&], [(] and [,]. *)
Lemma Build_splits_into_clauses_witness :
  let q := WithKeyword (Eq (Select NewQuery ["genome_id"]) "genome_name" "a&b,(c)")
                       "x&limit(1)" in
  namesFree "&" q
  /\ clausesInOrder q <> []
  /\ Str.Split (Build q) "&"
     = ["select(genome_id)"; "eq(genome_name,a%26b%2C%28c%29)";
        "keyword(x%26limit%281%29)"].
Proof.
  intros q.
  assert (namesFree "&" q) as Hfree by (repeat split; repeat constructor).
  assert (clausesInOrder q <> []) as Hne by discriminate.
  split; [exact Hfree | split; [exact Hne |]].
  exact (Build_splits_into_clauses q Hfree Hne).
Defined.

(** X8. [Build] returns the empty string exactly for a query with no
    selected field, no filter, no required field, no keyword and no sort
    specification; the limit plays no part. *)
Theorem Build_empty_iff (q : RQL.Query) :
  Build q = ""
  <-> SelectFields q = [] /\ Filters q = [] /\ RequiredFields q = []
      /\ Keyword q = "" /\ SortSpecs q = [].
Proof.
  rewrite BuildFacts.Build_clauses. split.
  - intros H.
    apply (EncodeFacts.Join_empty _ _ (EncodeFacts.clauses_nonempty q)) in H.
    unfold clausesInOrder in H.
    apply app_eq_nil in H as [Hsel H]. apply app_eq_nil in H as [Hfil H].
    apply app_eq_nil in H as [Hreq H]. apply app_eq_nil in H as [Hkey Hsort].
    unfold selectClause in Hsel. unfold keywordClause in Hkey.
    unfold sortClause in Hsort.
    apply map_eq_nil in Hfil, Hreq.
    destruct (SelectFields q); [| discriminate].
    destruct (SortSpecs q); [| discriminate].
    destruct (String.eqb_spec (Keyword q) ""); [| discriminate].
    done.
  - intros (Hsel & Hfil & Hreq & Hkey & Hsort).
    unfold clausesInOrder, selectClause, keywordClause, sortClause.
    by rewrite Hsel, Hfil, Hreq, Hkey, Hsort.
Qed.

End QueryProps.

(** ** [cli]: from the options of a command to a query *)

Module CliFacts.
Import Cli.

(** Searching a concatenation: the first list, then the second. *)
Lemma find_cat {A} (f : A -> bool) (first second : list A) :
  find f (first ++ second) = from_option Some (find f second) (find f first).
Proof.
  induction first as [|x first IH]; cbn [find app from_option]; [reflexivity|].
  destruct (f x); [reflexivity | exact IH].
Qed.

Lemma ParseFilterSpec_err (spec : string) :
  snd (RQL.ParseFilterSpec spec)
  = if noComma spec then Some (RQL.ErrFilterSpec spec) else None.
Proof.
  unfold RQL.ParseFilterSpec, noComma. rewrite SplitFacts.SplitN_2.
  destruct (Str.cut "," spec) as [[a b]|] eqn:E.
  - destruct (Str.contains "," spec) eqn:C; [reflexivity|].
    apply SplitFacts.cut_None in C. congruence.
  - apply SplitFacts.cut_None in E. by rewrite E.
Qed.

Lemma ParseInFilterSpec_err (spec : string) :
  snd (RQL.ParseInFilterSpec spec)
  = if noComma spec then Some (RQL.ErrInFilterSpec spec) else None.
Proof.
  unfold RQL.ParseInFilterSpec, noComma. rewrite SplitFacts.Split_count.
  destruct (Str.contains "," spec) eqn:C.
  - destruct (Str.count "," spec) as [|k] eqn:K.
    + apply SplitFacts.count_0 in K. congruence.
    + rewrite SplitFacts.genSplit_length by lia. reflexivity.
  - by rewrite (proj2 (SplitFacts.count_0 _ _) C).
Qed.

(** A loop over [field,value] specifications stops at the first one
    without a comma, and otherwise appends one filter per
    specification. *)
Lemma addFilters_spec (op : RQL.FilterOp) (specs : list string) :
  forall q,
    addFilters (fun q field value => RQL.addFilter q (RQL.Filter.mk op field value []))
               specs q
    = match find noComma specs with
      | Some spec => inr (RQL.ErrFilterSpec spec)
      | None =>
          inl (RQL.mkQuery (RQL.SelectFields q)
                           (RQL.Filters q ++ map (filterOf op) specs)
                           (RQL.RequiredFields q) (RQL.Keyword q)
                           (RQL.SortSpecs q) (RQL.LimitValue q))
      end.
Proof.
  induction specs as [|spec specs IH]; intros q; cbn [addFilters find map].
  - rewrite app_nil_r. by destruct q.
  - pose proof (ParseFilterSpec_err spec) as He. unfold filterOf at 1.
    destruct (RQL.ParseFilterSpec spec) as [[field value] err]. cbn [snd] in He.
    destruct (noComma spec); subst err; [reflexivity|].
    rewrite IH. cbn [RQL.addFilter RQL.SelectFields RQL.Filters RQL.RequiredFields
                     RQL.Keyword RQL.SortSpecs RQL.LimitValue].
    by rewrite <- app_assoc.
Qed.

Lemma addInFilters_spec (specs : list string) :
  forall q,
    addInFilters specs q
    = match find noComma specs with
      | Some spec => inr (RQL.ErrInFilterSpec spec)
      | None =>
          inl (RQL.mkQuery (RQL.SelectFields q)
                           (RQL.Filters q ++ map inFilterOf specs)
                           (RQL.RequiredFields q) (RQL.Keyword q)
                           (RQL.SortSpecs q) (RQL.LimitValue q))
      end.
Proof.
  induction specs as [|spec specs IH]; intros q; cbn [addInFilters find map].
  - rewrite app_nil_r. by destruct q.
  - pose proof (ParseInFilterSpec_err spec) as He. unfold inFilterOf at 1.
    destruct (RQL.ParseInFilterSpec spec) as [[field values] err]. cbn [snd] in He.
    destruct (noComma spec); subst err; [reflexivity|].
    rewrite IH. cbn [RQL.In RQL.addFilter RQL.SelectFields RQL.Filters
                     RQL.RequiredFields RQL.Keyword RQL.SortSpecs RQL.LimitValue].
    by rewrite <- app_assoc.
Qed.

(** The common part of the two functions, on a query that so far only
    selects fields. *)
Lemma constrain_spec (d : DataOptions) (fields : list string) :
  constrain d (RQL.mkQuery fields [] [] "" [] 0)
  = match firstBad d with
    | Some e => inr e
    | None => inl (RQL.mkQuery fields (filtersOf d) (Required d) (Keyword d) []
                               (Z.max 0 (Limit d)))
    end.
Proof.
  unfold constrain, firstBad, filtersOf.
  change RQL.Eq with (fun q f v => RQL.addFilter q (RQL.Filter.mk RQL.OpEq f v [])).
  change RQL.Lt with (fun q f v => RQL.addFilter q (RQL.Filter.mk RQL.OpLt f v [])).
  change RQL.Le with (fun q f v => RQL.addFilter q (RQL.Filter.mk RQL.OpLe f v [])).
  change RQL.Gt with (fun q f v => RQL.addFilter q (RQL.Filter.mk RQL.OpGt f v [])).
  change RQL.Ge with (fun q f v => RQL.addFilter q (RQL.Filter.mk RQL.OpGe f v [])).
  change RQL.Ne with (fun q f v => RQL.addFilter q (RQL.Filter.mk RQL.OpNe f v [])).
  rewrite !find_cat.
  rewrite addFilters_spec.
  destruct (find noComma (Equal d)); cbn [from_option]; [reflexivity|]. cbn [andThen].
  rewrite addFilters_spec.
  destruct (find noComma (Lt d)); cbn [from_option]; [reflexivity|]. cbn [andThen].
  rewrite addFilters_spec.
  destruct (find noComma (Le d)); cbn [from_option]; [reflexivity|]. cbn [andThen].
  rewrite addFilters_spec.
  destruct (find noComma (Gt d)); cbn [from_option]; [reflexivity|]. cbn [andThen].
  rewrite addFilters_spec.
  destruct (find noComma (Ge d)); cbn [from_option]; [reflexivity|]. cbn [andThen].
  rewrite addFilters_spec.
  destruct (find noComma (Ne d)); cbn [from_option]; [reflexivity|]. cbn [andThen].
  rewrite addInFilters_spec.
  destruct (find noComma (In d)); [reflexivity|]. cbn [andThen fmap option_fmap option_map].
  cbn [RQL.SelectFields RQL.Filters RQL.RequiredFields RQL.Keyword RQL.SortSpecs
       RQL.LimitValue app].
  rewrite <- !app_assoc.
  unfold RQL.Required, RQL.WithKeyword, RQL.Limit.
  destruct (Required d) as [|r rs] eqn:ER; cbn [length Nat.ltb Nat.leb];
    destruct (String.eqb_spec (Keyword d) "") as [EK|EK]; cbn [negb];
    destruct (Z.ltb_spec 0 (Limit d));
    cbn [RQL.SelectFields RQL.Filters RQL.RequiredFields RQL.Keyword RQL.SortSpecs
         RQL.LimitValue app];
    rewrite <- ?EK; do 2 f_equal; lia.
Qed.

Lemma BuildQuery_spec (d : DataOptions) (defaultFields : list string) :
  BuildQuery d defaultFields
  = match firstBad d with
    | Some e => inr e
    | None =>
        inl (RQL.mkQuery (GetSelectFields d defaultFields) (filtersOf d)
                         (Required d) (Keyword d) [] (Z.max 0 (Limit d)))
    end.
Proof.
  rewrite <- constrain_spec. unfold BuildQuery, GetSelectFields.
  destruct (Attr d) as [|a attrs]; [destruct defaultFields as [|f fs] |];
    reflexivity.
Qed.
End CliFacts.

Module CliProps.
Import Cli.

(** X3. [BuildQuery] and [BuildQueryWithFields] agree: building with
    default fields is building with the fields [GetSelectFields] picks,
    the [--attr] fields when there are any and the defaults otherwise. *)
Theorem BuildQuery_as_BuildQueryWithFields (d : DataOptions)
        (defaultFields : list string) :
  BuildQuery d defaultFields
  = BuildQueryWithFields d (GetSelectFields d defaultFields).
Proof.
  unfold BuildQuery, BuildQueryWithFields, GetSelectFields.
  destruct (Attr d) as [|a attrs]; cbn [length Nat.ltb Nat.leb]; reflexivity.
Qed.

(** X4. [BuildQuery] fails exactly when some [field,value] or [in]
    specification has no comma, and the error it returns is that of the
    first such specification in the order [--eq], [--lt], [--le],
    [--gt], [--ge], [--ne], [--in]. *)
Theorem BuildQuery_first_error (d : DataOptions) (defaultFields : list string)
        (e : RQL.specError) :
  BuildQuery d defaultFields = inr e <-> firstBad d = Some e.
Proof.
  rewrite CliFacts.BuildQuery_spec.
  destruct (firstBad d) as [bad|]; split; congruence.
Qed.

(** X5. When every specification has its comma, [BuildQuery] returns
    the query that selects the chosen fields, holds one filter per
    specification in the order [--eq], [--lt], [--le], [--gt], [--ge],
    [--ne], [--in] (each list in the order given), requires the
    [--required] fields, carries the keyword, has no sort clause, and
    whose limit is the [--limit] value, a negative one counting as no
    limit. *)
Theorem BuildQuery_query (d : DataOptions) (defaultFields : list string) :
  firstBad d = None ->
  BuildQuery d defaultFields
  = inl (RQL.mkQuery (GetSelectFields d defaultFields) (filtersOf d)
                     (Required d) (Keyword d) [] (Z.max 0 (Limit d))).
Proof. intros H. by rewrite CliFacts.BuildQuery_spec, H. Qed.

(** X5 on the options [--attr genome_id --eq genus,Streptomyces
    --in host_name,Human,Mouse --limit 10]. *)
Lemma BuildQuery_query_witness :
  let d := mkDataOptions ["genome_id"] false false ["genus,Streptomyces"]
                         [] [] [] [] [] ["host_name,Human,Mouse"] [] "" 10 false in
  firstBad d = None
  /\ BuildQuery d ["genome_name"]
     = inl (RQL.mkQuery ["genome_id"]
              [RQL.Filter.mk RQL.OpEq "genus" "Streptomyces" [];
               RQL.Filter.mk RQL.OpIn "host_name" "" ["Human"; "Mouse"]]
              [] "" [] 10).
Proof.
  intros d. assert (firstBad d = None) as H by reflexivity.
  split; [exact H|].
  exact (BuildQuery_query d ["genome_name"] H).
Defined.
End CliProps.

(** ** The retry loop against a server that plays a script *)

Module RecoverFacts.
Import Client TraceFacts.
Import Mock.

Section Script.
Context {Rec : Type}.
Variable c : Client.
Variables (url body : string).
Implicit Types (w : World (Rec:=Rec) (S:=list (DoResult (Rec:=Rec)))).



End Script.
End RecoverFacts.

(** ** The producer of [Stream] *)

Module StreamFacts.
Import Client DecFacts HeaderFacts MockFacts.
Import Mock.

Section Send.
Context {Rec : Type}.
Implicit Types (batch : list Rec).

(** Whatever the context does, the count follows the records sent and
    stays within a limit that is set. *)
Lemma sendBatch_count (ctx : Ctx) (limit t : Z) batch : forall totalSent,
  snd (fst (sendBatch ctx limit t batch totalSent))
  = totalSent + Z.of_nat (length (fst (fst (sendBatch ctx limit t batch totalSent))))
  /\ (0 < limit -> totalSent <= limit ->
      snd (fst (sendBatch ctx limit t batch totalSent)) <= limit).
Proof.
  induction batch as [|record rest IH]; intros totalSent; cbn [sendBatch].
  - cbn. lia.
  - destruct (Z.ltb_spec 0 limit) as [Hpos|Hnone]; cbn [andb].
    + destruct (Z.leb_spec limit totalSent) as [Hfull|Hroom]; [cbn; lia|].
      destruct (ctxDone ctx t); [cbn; lia|].
      specialize (IH (totalSent + 1)).
      destruct (sendBatch ctx limit t rest (totalSent + 1)) as [[out total'] r].
      cbn [fst snd length] in *. lia.
    + destruct (ctxDone ctx t); [cbn; lia|].
      specialize (IH (totalSent + 1)).
      destruct (sendBatch ctx limit t rest (totalSent + 1)) as [[out total'] r].
      cbn [fst snd length] in *. lia.
Qed.

End Send.

Section Any.
Context {Rec S : Type}.
Variable handler : S -> Request -> S * DoResult (Rec:=Rec).
Variable c : Client.
Variable ctx : Ctx.
Variables (resolvedType queryStr : string).
Variables (chunkSize limit : Z).

(** The records reported sent extend those sent before, within a
    limit that is set. *)
Lemma streamLoop_within (fuel : nat) :
  forall offset totalSent sent (w w' : World (Rec:=Rec) (S:=S)) sent' e,
  streamLoop handler c ctx resolvedType queryStr chunkSize limit
             fuel offset totalSent sent w = (Done (sent', e), w') ->
  exists more,
    sent' = sent ++ more
    /\ (0 < limit -> totalSent <= limit ->
        totalSent + Z.of_nat (length more) <= limit).
Proof.
  induction fuel as [|fuel IH]; intros offset totalSent sent w w' sent' e H;
    [discriminate H|].
  cbn [streamLoop] in H.
  assert (exists more : list Rec,
            sent = sent ++ more
            /\ (0 < limit -> totalSent <= limit ->
                totalSent + Z.of_nat (length more) <= limit)) as Hnone.
  { exists []. rewrite app_nil_r. split; [reflexivity | cbn; lia]. }
  destruct (ctxDone ctx (now w)); [by inversion H; subst|].
  destruct (doQueryRequest _ _ _ _ _ w) as [[[batch info] err] w1].
  destruct err; [by inversion H; subst|].
  pose proof (sendBatch_count ctx limit (now w1) batch totalSent) as [Hcount Hbound].
  destruct (sendBatch ctx limit (now w1) batch totalSent) as [[out total'] r].
  cbn [fst snd] in Hcount, Hbound.
  assert (exists more : list Rec,
            sent ++ out = sent ++ more
            /\ (0 < limit -> totalSent <= limit ->
                totalSent + Z.of_nat (length more) <= limit)) as Hout.
  { exists out. split; [reflexivity | lia]. }
  destruct r; [by inversion H; subst|].
  destruct info as [info|]; [| discriminate H].
  destruct (ChunkInfo.IsLast info || _); [by inversion H; subst|].
  destruct (IH _ _ _ _ _ _ _ H) as (more & -> & Hmore).
  exists (out ++ more). split; [by rewrite app_assoc|].
  intros Hl Ht. rewrite length_app. specialize (Hbound Hl Ht).
  specialize (Hmore Hl Hbound). lia.
Qed.
End Any.

Section Paging.
Context {Rec : Type}.
Variable records : list Rec.
Variable c : Client.
Variables (resolvedType queryStr : string).
Variables (size limit : Z).

Hypothesis Hretries : 0 <= MaxRetries c.
Hypothesis Hsize : 0 < size.
Hypothesis Htotal : total records <= Dec.MaxInt.

End Paging.
End StreamFacts.

(** ** What every request of the retrieval loops looks like *)

Module SentFacts.
Import Client TraceFacts.

Lemma newPost_isQueryPost (c : Client) (url body : string) :
  isQueryPost c (newPost c url body).
Proof.
  unfold isQueryPost, carriesIdentity, newPost, setHeader, setHeaders.
  cbn [Method ReqHeader].
  destruct (String.eqb_spec (Token c) "") as [E|E]; cbn [negb].
  - rewrite E. repeat split; reflexivity.
  - repeat split; reflexivity.
Qed.

(** Setting a header leaves the others as they are. *)
Lemma headerGet_headerSet_other (key other value : string) (h : Header) :
  String.eqb other key = false ->
  headerGet key (headerSet other value h) = headerGet key h.
Proof.
  intros Hne. unfold headerSet. cbn [headerGet]. rewrite Hne.
  induction h as [|[k v] h IH]; [reflexivity|].
  unfold Header in *. rewrite filter_cons. cbn [fst headerGet].
  destruct (String.eqb_spec k other) as [->|Hk]; cbn [negb];
    destruct (decide _) as [Hd|Hd]; try done; cbn [headerGet].
  - by rewrite Hne.
  - by rewrite IH.
Qed.

Lemma hasKey_headerSet_other (key other value : string) (h : Header) :
  String.eqb other key = false ->
  hasKey key (headerSet other value h) = hasKey key h.
Proof.
  intros Hne. unfold headerSet, hasKey. cbn [existsb fst]. rewrite Hne. cbn [orb].
  induction h as [|[k v] h IH]; [reflexivity|].
  unfold Header in *. rewrite filter_cons. cbn [fst existsb].
  destruct (String.eqb_spec k other) as [->|Hk]; cbn [negb];
    destruct (decide _) as [Hd|Hd]; try done; cbn [existsb fst].
  - by rewrite Hne.
  - by rewrite IH.
Qed.

Lemma setHeader_Range_isQueryPost (c : Client) (value : string) (req : Request) :
  isQueryPost c req -> isQueryPost c (setHeader "Range" value req).
Proof.
  unfold isQueryPost, carriesIdentity, setHeader. cbn [Method ReqHeader].
  rewrite !headerGet_headerSet_other, hasKey_headerSet_other by reflexivity.
  tauto.
Qed.

Section Loops.
Context {Rec S : Type}.
Variable handler : S -> Request -> S * DoResult (Rec:=Rec).
Variable c : Client.
Variable ctx : Ctx.
Variables (resolvedType queryStr : string).
Variables (chunkSize limit : Z).
Implicit Types (w : World (Rec:=Rec) (S:=S)).

Variable P : Request -> Prop.
Hypothesis HP : forall url body, P (newPost c url body).

Lemma turn_sent (offset : Z) w :
  exists new,
    added P w (snd (doQueryRequest handler c ctx (requestURL c resolvedType)
                                   (pageBody queryStr chunkSize offset) w)) new
    /\ delivered new = [].
Proof. apply doQueryRequest_added, HP. Qed.

Lemma queryLoop_sent (fuel : nat) : forall offset allResults w,
  extendsWith P w
    (snd (queryLoop handler c ctx resolvedType queryStr chunkSize limit
                    fuel offset allResults w)).
Proof.
  induction fuel as [|fuel IH]; intros offset allResults w; cbn [queryLoop].
  - exists []. by apply added_nil.
  - destruct (ctxDone ctx (now w)); [exists []; by apply added_nil|].
    destruct (turn_sent offset w) as (new1 & Ha1 & _).
    destruct (doQueryRequest _ _ _ _ _ w) as [[[results info] [e|]] w1];
      cbn [snd] in Ha1; [by exists new1|].
    destruct info as [info|]; [| by exists new1].
    destruct (_ || _); [by exists new1|].
    destruct (_ && _); [by exists new1|].
    destruct (IH (ChunkInfo.Next info) (allResults ++ results) w1) as (new2 & Ha2).
    exists (new1 ++ new2). eapply added_trans; eassumption.
Qed.

Lemma streamLoop_sent (fuel : nat) : forall offset totalSent sent w,
  extendsWith P w
    (snd (streamLoop handler c ctx resolvedType queryStr chunkSize limit
                     fuel offset totalSent sent w)).
Proof.
  induction fuel as [|fuel IH]; intros offset totalSent sent w; cbn [streamLoop].
  - exists []. by apply added_nil.
  - destruct (ctxDone ctx (now w)); [exists []; by apply added_nil|].
    destruct (turn_sent offset w) as (new1 & Ha1 & _).
    destruct (doQueryRequest _ _ _ _ _ w) as [[[batch info] [e|]] w1];
      cbn [snd] in Ha1; [by exists new1|].
    destruct (sendBatch ctx limit (now w1) batch totalSent) as [[out total'] [r|]];
      [by exists new1|].
    destruct info as [info|]; [| by exists new1].
    destruct (_ || _); [by exists new1|].
    destruct (IH (ChunkInfo.Next info) total' (sent ++ out) w1) as (new2 & Ha2).
    exists (new1 ++ new2). eapply added_trans; eassumption.
Qed.

Lemma callbackLoop_sent {CB : Type}
      (callback : CB -> list Rec -> option ChunkInfo.t -> bool * CB) (fuel : nat) :
  forall offset totalFetched cb w,
  extendsWith P w
    (snd (callbackLoop handler callback c ctx resolvedType queryStr chunkSize limit
                       fuel offset totalFetched cb w)).
Proof.
  induction fuel as [|fuel IH]; intros offset totalFetched cb w; cbn [callbackLoop].
  - exists []. by apply added_nil.
  - destruct (ctxDone ctx (now w)); [exists []; by apply added_nil|].
    destruct (turn_sent offset w) as (new1 & Ha1 & _).
    destruct (doQueryRequest _ _ _ _ _ w) as [[[results info] [e|]] w1];
      cbn [snd] in Ha1; [by exists new1|].
    match goal with
    | |- context [callback cb ?b info] => set (batch := b)
    end.
    destruct (callback cb batch info) as [continue cb'].
    assert (added P w (mkWorld (server w1) (now w1)
                               (trace w1 ++ [EvCallback batch info]))
                  (new1 ++ [EvCallback batch info])) as Ha2.
    { eapply added_trans; [exact Ha1|]. split; [reflexivity | constructor]. }
    destruct continue; cbn [negb]; [| eexists; exact Ha2].
    destruct info as [info|]; [| eexists; exact Ha2].
    destruct (ChunkInfo.IsLast info || _); [eexists; exact Ha2|].
    destruct ((0 <? limit) && (limit <=? _)); [eexists; exact Ha2|].
    match goal with
    | |- extendsWith _ _ (snd (callbackLoop _ _ _ _ _ _ _ _ _ ?o ?t ?b ?v)) =>
        destruct (IH o t b v) as (new3 & Ha3)
    end.
    eexists. eapply added_trans; eassumption.
Qed.
End Loops.
End SentFacts.

(** ** The loops against a paging server that goes down *)

Module OutageFacts.
Import Client DecFacts HeaderFacts MockFacts.
Import Mock.

Section Outage.
Context {Rec : Type}.
Variable records : list Rec.
Variable c : Client.
Variables (resolvedType queryStr : string).
Variables (size limit : Z).
Variables (code : Z) (status text : string).

Hypothesis Hretries : 0 <= MaxRetries c.
Hypothesis Hsize : 0 < size.
Hypothesis Htotal : total records <= Dec.MaxInt.
Hypothesis Hcode : 400 <= code < 500.
Hypothesis Hlimit : limit <= 0.

Let down : DoResult (Rec:=Rec) := statusOnly code status text.
Let srv := pagingUntil records down.
Let req (offset : Z) : Request := pageRequest c resolvedType queryStr size offset.







End Outage.
End OutageFacts.

(** ** [urlEncode]: the order of the replacements does not matter *)

Module UrlFacts.
Import Client StrFacts.

(** The entries of the table: a key of one byte, a value free of
    special bytes, and no key twice. *)
Lemma table_entry (old new : string) :
  In (old, new) replacements ->
  (exists k, old = String k "")
  /\ Str.all (fun c => negb (special c)) new = true
  /\ (forall new', In (old, new') replacements -> new' = new).
Proof.
  intros Hin. cbn [replacements In] in Hin.
  repeat (destruct Hin as [[= <- <-] | Hin];
          [split; [by eexists | split; [reflexivity |]];
           intros new' Hin'; cbn [replacements In] in Hin';
           repeat (destruct Hin' as [[= <-] | Hin']; [reflexivity |]);
           repeat (destruct Hin' as [[=] | Hin']); done |]).
  done.
Qed.

Lemma ReplaceAll_step (old new s : string) :
  (exists k, old = String k "") ->
  Str.ReplaceAll s old new = Str.flatMap (replaceByte old new) s.
Proof.
  intros [k ->]. rewrite ReplaceAll_byte. apply flatMap_ext. intros c.
  unfold replaceByte. cbn [String.eqb]. by destruct (Ascii.eqb k c).
Qed.

Lemma flatMap_single (f : ascii -> string) (c : ascii) :
  Str.flatMap f (String c "") = f c.
Proof. cbn [Str.flatMap]. apply append_nil_r. Qed.

Lemma urlEncodeIn_cons (old new : string) (order : list (string * string)) (s : string) :
  urlEncodeIn ((old, new) :: order) s = urlEncodeIn order (Str.ReplaceAll s old new).
Proof. reflexivity. Qed.

(** The loop works byte by byte. *)
Lemma urlEncodeIn_bytes (order : list (string * string)) :
  (forall p, In p order -> In p replacements) ->
  forall s,
    urlEncodeIn order s
    = Str.flatMap (fun c => urlEncodeIn order (String c "")) s.
Proof.
  induction order as [|[old new] order IH]; intros Hsub s.
  - induction s as [|c s IHs]; [reflexivity|].
    cbn [Str.flatMap urlEncodeIn fold_left String.append] in *. by rewrite <- IHs.
  - destruct (table_entry old new (Hsub _ (or_introl eq_refl))) as (Hkey & _ & _).
    assert (forall p, In p order -> In p replacements) as Hsub'
      by (intros p Hp; apply Hsub; by right).
    rewrite urlEncodeIn_cons, (ReplaceAll_step _ _ _ Hkey), (IH Hsub'), flatMap_flatMap.
    apply flatMap_ext. intros c.
    rewrite urlEncodeIn_cons, (ReplaceAll_step _ _ _ Hkey), flatMap_single.
    by rewrite <- (IH Hsub').
Qed.

(** A byte that is no key of the pairs still to come stays. *)
Lemma urlEncodeIn_other (order : list (string * string)) (c : ascii) :
  (forall p, In p order -> In p replacements) ->
  (forall p, In p order -> fst p <> String c "") ->
  urlEncodeIn order (String c "") = String c "".
Proof.
  induction order as [|[old new] order IH]; intros Hsub Hne; [reflexivity|].
  destruct (table_entry old new (Hsub _ (or_introl eq_refl))) as (Hkey & _ & _).
  rewrite urlEncodeIn_cons, (ReplaceAll_step _ _ _ Hkey), flatMap_single.
  unfold replaceByte. destruct (String.eqb_spec old (String c "")) as [E|_].
  - by destruct (Hne _ (or_introl eq_refl)).
  - apply IH; intros p Hp; [apply Hsub | apply Hne]; by right.
Qed.

Lemma special_false (c : ascii) (p : string * string) :
  special c = false -> In p replacements -> fst p <> String c "".
Proof.
  unfold special. intros Hc Hp E.
  assert (existsb (fun '(old, _) => String.eqb old (String c "")) replacements = true)
    as Hex; [| congruence].
  apply existsb_exists. exists p. split; [exact Hp|].
  destruct p as [old new]. cbn [fst] in E. subst old. apply String.eqb_refl.
Qed.

(** A text free of special bytes stays. *)
Lemma urlEncodeIn_plain (order : list (string * string)) (s : string) :
  (forall p, In p order -> In p replacements) ->
  Str.all (fun c => negb (special c)) s = true ->
  urlEncodeIn order s = s.
Proof.
  intros Hsub Hs. rewrite (urlEncodeIn_bytes order Hsub).
  induction s as [|c s IH]; [reflexivity|].
  cbn [Str.all] in Hs. apply andb_prop in Hs as [Hc Hs].
  cbn [Str.flatMap]. rewrite (IH Hs), urlEncodeIn_other; [reflexivity | exact Hsub |].
  intros p Hp. apply special_false; [by destruct (special c) | by apply Hsub].
Qed.

(** A key is replaced by its value as soon as its pair comes. *)
Lemma urlEncodeIn_key (order : list (string * string)) (c : ascii) (new : string) :
  (forall p, In p order -> In p replacements) ->
  In (String c "", new) replacements ->
  In (String c "", new) order ->
  urlEncodeIn order (String c "") = new.
Proof.
  intros Hsub Htable. destruct (table_entry _ _ Htable) as (_ & Hplain & Hfun).
  induction order as [|[old new'] order IH]; intros Hin; [done|].
  destruct (table_entry old new' (Hsub _ (or_introl eq_refl))) as (Hkey & _ & _).
  assert (forall p, In p order -> In p replacements) as Hsub'
    by (intros p Hp; apply Hsub; by right).
  rewrite urlEncodeIn_cons, (ReplaceAll_step _ _ _ Hkey), flatMap_single.
  unfold replaceByte. destruct (String.eqb_spec old (String c "")) as [->|Hne].
  - rewrite (Hfun new' (Hsub _ (or_introl eq_refl))).
    by apply urlEncodeIn_plain.
  - destruct Hin as [[= E _] | Hin]; [done|]. by apply (IH Hsub').
Qed.

Lemma urlEncodeIn_byte (order : list (string * string)) (c : ascii) :
  Permutation order replacements ->
  urlEncodeIn order (String c "") = urlEncodeByte c.
Proof.
  intros Hperm.
  assert (forall p, In p order -> In p replacements) as Hsub
    by (intros p; apply Permutation_in, Hperm).
  unfold urlEncodeByte.
  destruct (find _ replacements) as [[old new]|] eqn:E.
  - apply find_some in E as [Hin Hk]. apply String.eqb_eq in Hk. subst old.
    apply urlEncodeIn_key; [exact Hsub | exact Hin |].
    by apply (Permutation_in _ (Permutation_sym Hperm)).
  - apply urlEncodeIn_other; [exact Hsub|].
    intros [old new] Hp Hk. cbn [fst] in Hk. subst old.
    pose proof (find_none _ _ E _ (Hsub _ Hp)) as Hn. cbn beta iota in Hn.
    by rewrite String.eqb_refl in Hn.
Qed.

Lemma urlEncodeByte_plain (c : ascii) :
  Str.all (fun d => negb (special d)) (urlEncodeByte c) = true.
Proof. destruct c as [[] [] [] [] [] [] [] []]; reflexivity. Qed.
End UrlFacts.

(** ** [api/client.go]: the transport *)

Module TransportProps.
Import Client.
Import Mock.





(** X18. [urlEncode] ranges over a Go map, so the order of its eight
    replacements changes from run to run; the result does not. In
    whatever order the table is gone through, each of the bytes [<],
    [>], [=], the double quote, [&], [#], space and tab is replaced by
    its entry, every other byte is kept, and none of the eight bytes is
    left in the result. *)
Theorem urlEncode_any_order (order : list (string * string)) (s : string) :
  Permutation order replacements ->
  urlEncodeIn order s = Str.flatMap urlEncodeByte s
  /\ Str.all (fun c => negb (special c)) (urlEncodeIn order s) = true.
Proof.
  intros Hperm.
  assert (urlEncodeIn order s = Str.flatMap urlEncodeByte s) as ->.
  { rewrite UrlFacts.urlEncodeIn_bytes
      by (intros p; apply Permutation_in, Hperm).
    apply StrFacts.flatMap_ext. intros c. by apply UrlFacts.urlEncodeIn_byte. }
  split; [reflexivity|].
  apply EncodeFacts.all_flatMap, UrlFacts.urlEncodeByte_plain.
Qed.

(** X18 with the table gone through backwards. *)
Lemma urlEncode_any_order_witness :
  Permutation (rev replacements) replacements
  /\ urlEncodeIn (rev replacements) "a b<c>&d=#" = "a%20b%60c%62%26d%61%23"
  /\ urlEncode "a b<c>&d=#" = "a%20b%60c%62%26d%61%23".
Proof.
  assert (Permutation (rev replacements) replacements) as H
    by apply Permutation_sym, Permutation_rev.
  split; [exact H | split].
  - rewrite (proj1 (urlEncode_any_order (rev replacements) "a b<c>&d=#" H)).
    reflexivity.
  - reflexivity.
Defined.

(** [urlEncode] leaves [%] alone, so two different identifiers can give
    the same text. *)
Example urlEncode_not_injective : urlEncode "<" = urlEncode "%60".
Proof. reflexivity. Qed.


End TransportProps.

(** ** [api/client.go]: the retrieval entry points *)

Module RetrievalProps.
Import RQL Client.
Import Mock.

(** X11. Every request that [Query], [Count], [Stream] and
    [QueryCallback] make, whatever the server answers, is a [POST] with
    the RQL content type that accepts JSON, names the client in
    [User-Agent], and carries the token in [Authorization] when the
    client has one; a client without a token sends no [Authorization]
    header at all. *)
Theorem requests_identify_the_client {Rec St CB : Type}
        (handler : St -> Request -> St * DoResult (Rec:=Rec))
        (callback : CB -> list Rec -> option ChunkInfo.t -> bool * CB)
        (c : Client) (ctx : Ctx) (objectType : string) (q : RQL.Query)
        (fuel : nat) (cb : CB) (w : World (Rec:=Rec) (S:=St)) :
  extendsWith (isQueryPost c) w (snd (Query handler c ctx objectType q fuel w))
  /\ extendsWith (isQueryPost c) w (snd (Count handler c ctx objectType q w))
  /\ extendsWith (isQueryPost c) w (snd (Stream handler c ctx objectType q fuel w))
  /\ extendsWith (isQueryPost c) w
       (snd (QueryCallback handler callback c ctx objectType q fuel cb w)).
Proof.
  split; [| split; [| split]].
  - rewrite PrepFacts.Query_unfold.
    pose proof (SentFacts.queryLoop_sent handler c ctx
                  (Registry.GetObjectType objectType)
                  (Build (withWildcard objectType q)) (pageSize c q) (LimitValue q)
                  (isQueryPost c) (SentFacts.newPost_isQueryPost c) fuel 0 [] w) as H.
    destruct (queryLoop _ _ _ _ _ _ _ _ _ _ w) as [[[recs [e|]]| |] w']; exact H.
  - unfold Count. cbv zeta.
    match goal with
    | |- context [Do handler ?r w] => set (req := r)
    end.
    assert (isQueryPost c req) as Hreq
      by apply SentFacts.setHeader_Range_isQueryPost, SentFacts.newPost_isQueryPost.
    pose proof (TraceFacts.Do_added handler (isQueryPost c) req w Hreq) as H.
    destruct (Do handler req w) as [[cause | resp] w']; cbn [snd] in H.
    + by exists [EvDo req].
    + destruct (400 <=? StatusCode resp); by exists [EvDo req].
  - rewrite PrepFacts.Stream_unfold.
    apply SentFacts.streamLoop_sent, SentFacts.newPost_isQueryPost.
  - rewrite PrepFacts.QueryCallback_unfold.
    apply SentFacts.callbackLoop_sent, SentFacts.newPost_isQueryPost.
Qed.



(** X13. With a limit [L > 0] set, [Stream] never sends the consumer
    more than [L] records, whatever the server answers and however the
    call ends. *)
Theorem Stream_respects_limit {Rec St : Type}
        (handler : St -> Request -> St * DoResult (Rec:=Rec))
        (c : Client) (ctx : Ctx) (objectType : string) (q : RQL.Query)
        (fuel : nat) (w w' : World (Rec:=Rec) (S:=St))
        (sent : list Rec) (e : option error) :
  0 < LimitValue q ->
  Stream handler c ctx objectType q fuel w = (Done (sent, e), w') ->
  Z.of_nat (length sent) <= LimitValue q.
Proof.
  intros Hlimit H. rewrite PrepFacts.Stream_unfold in H.
  apply StreamFacts.streamLoop_within in H as (more & -> & Hmore).
  specialize (Hmore Hlimit ltac:(lia)). cbn [app]. lia.
Qed.

(** X13 on a server that answers every request with the same five
    records and claims there are more. *)
Lemma Stream_respects_limit_witness :
  0 < LimitValue (Limit NewQuery 7)
  /\ Stream (always (ok "items 0-5/100" [1; 2; 3; 4; 5]%nat))
            (WithChunkSize 5 NewClient) None "genome" (Limit NewQuery 7) 4
            (start unit tt)
     = (Done ([1; 2; 3; 4; 5; 1; 2]%nat, None),
        snd (Stream (always (ok "items 0-5/100" [1; 2; 3; 4; 5]%nat))
                    (WithChunkSize 5 NewClient) None "genome" (Limit NewQuery 7) 4
                    (start unit tt)))
  /\ Z.of_nat (length [1; 2; 3; 4; 5; 1; 2]%nat) <= LimitValue (Limit NewQuery 7).
Proof.
  assert (0 < LimitValue (Limit NewQuery 7)) as Hlimit by reflexivity.
  assert (Stream (always (ok "items 0-5/100" [1; 2; 3; 4; 5]%nat))
            (WithChunkSize 5 NewClient) None "genome" (Limit NewQuery 7) 4
            (start unit tt)
          = (Done ([1; 2; 3; 4; 5; 1; 2]%nat, None),
             snd (Stream (always (ok "items 0-5/100" [1; 2; 3; 4; 5]%nat))
                    (WithChunkSize 5 NewClient) None "genome" (Limit NewQuery 7) 4
                    (start unit tt)))) as Hrun
    by (vm_compute; reflexivity).
  split; [exact Hlimit | split; [exact Hrun |]].
  exact (Stream_respects_limit _ _ _ _ _ _ _ _ _ _ Hlimit Hrun).
Defined.

(** X14. A negative retry budget is not checked: [doQueryRequest] then
    makes no attempt and returns neither records nor chunk information
    nor an error. [Query] and [Stream] dereference the nil chunk
    information and panic without having made a request;
    [QueryCallback] first hands the callback an empty batch with nil
    information, and panics if the callback asks for more. *)
Theorem negative_retry_budget {Rec St CB : Type}
        (handler : St -> Request -> St * DoResult (Rec:=Rec))
        (callback : CB -> list Rec -> option ChunkInfo.t -> bool * CB)
        (c : Client) (ctx : Ctx) (objectType : string) (q : RQL.Query)
        (fuel : nat) (cb : CB) (w : World (Rec:=Rec) (S:=St)) :
  MaxRetries c < 0 ->
  ctxDone ctx (now w) = false ->
  (1 <= fuel)%nat ->
  (forall url body, doQueryRequest handler c ctx url body w = (([], None, None), w))
  /\ Query handler c ctx objectType q fuel w = (Panic, w)
  /\ Stream handler c ctx objectType q fuel w = (Panic, w)
  /\ QueryCallback handler callback c ctx objectType q fuel cb w
     = (if fst (callback cb [] None) then Panic else Done None,
        snd (callback cb [] None),
        mkWorld (server w) (now w) (trace w ++ [EvCallback [] None])).
Proof.
  intros Hneg Hctx Hfuel.
  assert (forall url body,
            doQueryRequest handler c ctx url body w = (([], None, None), w)) as Hdo.
  { intros url body. unfold doQueryRequest.
    replace (Z.to_nat (MaxRetries c + 1)) with O by lia. reflexivity. }
  destruct fuel as [|fuel]; [lia|].
  split; [exact Hdo | split; [| split]].
  - rewrite PrepFacts.Query_unfold. cbn [queryLoop]. by rewrite Hctx, Hdo.
  - rewrite PrepFacts.Stream_unfold. cbn [streamLoop]. by rewrite Hctx, Hdo.
  - rewrite PrepFacts.QueryCallback_unfold. cbn [callbackLoop].
    rewrite Hctx, Hdo. cbn [length].
    replace (if (0 <? LimitValue q) && (LimitValue q <? 0 + Z.of_nat 0)
             then take (Z.to_nat (LimitValue q - 0)) []
             else []) with (@nil Rec)
      by (destruct (_ && _); [by rewrite take_nil | reflexivity]).
    by destruct (callback cb [] None) as [[] cb'].
Qed.

(** X14 with [WithMaxRetries(-1)]. *)
Lemma negative_retry_budget_witness :
  MaxRetries (WithMaxRetries (-1) NewClient) < 0
  /\ Query (paging (seq 0 7)) (WithMaxRetries (-1) NewClient) None "genome"
           NewQuery 1 (start unit tt)
     = (Panic, start unit tt).
Proof.
  assert (MaxRetries (WithMaxRetries (-1) NewClient) < 0) as H by reflexivity.
  split; [exact H|].
  exact (proj1 (proj2 (negative_retry_budget
                         (paging (seq 0 7))
                         (fun (cb : unit) (_ : list nat) (_ : option ChunkInfo.t) =>
                            (true, cb))
                         (WithMaxRetries (-1) NewClient) None "genome" NewQuery 1 tt
                         (start unit tt) H eq_refl (le_n 1)))).
Defined.





(** X17. A callback that returns [false] ends the retrieval at once:
    whatever the server answers, [QueryCallback] then makes the
    attempts of one page request only, all for the first page, calls
    the callback at most once, and returns the error of that request or
    [nil]. *)
Theorem QueryCallback_stops_on_false {Rec St CB : Type}
        (handler : St -> Request -> St * DoResult (Rec:=Rec))
        (callback : CB -> list Rec -> option ChunkInfo.t -> bool * CB)
        (c : Client) (ctx : Ctx) (objectType : string) (q : RQL.Query)
        (fuel : nat) (cb : CB) (w : World (Rec:=Rec) (S:=St)) :
  (forall cb recs info, fst (callback cb recs info) = false) ->
  (1 <= fuel)%nat ->
  let first := pageRequest c (Registry.GetObjectType objectType)
                           (Build (withWildcard objectType q)) (pageSize c q) 0 in
  let run := QueryCallback handler callback c ctx objectType q fuel cb w in
  exists new,
    trace (snd run) = trace w ++ new
    /\ Forall (fun req => req = first) (requests new)
    /\ (length (delivered new) <= 1)%nat
    /\ exists e, fst (fst run) = Done e.
Proof.
  intros Hstop Hfuel first run. subst run.
  rewrite PrepFacts.QueryCallback_unfold.
  destruct fuel as [|fuel]; [lia|]. cbn [callbackLoop].
  destruct (ctxDone ctx (now w)).
  { exists []. cbn [fst snd]. rewrite app_nil_r.
    split; [reflexivity | split; [constructor | split; [cbn; lia | by eexists]]]. }
  destruct (TraceFacts.doQueryRequest_added handler (fun req => req = first) c ctx
              (requestURL c (Registry.GetObjectType objectType))
              (pageBody (Build (withWildcard objectType q)) (pageSize c q) 0) w
              eq_refl) as (new1 & [Htr Hreq] & Hd).
  destruct (doQueryRequest _ _ _ _ _ w) as [[[results info] [e|]] w1];
    cbn [snd] in Htr.
  { exists new1. cbn [fst snd]. rewrite Hd.
    split; [exact Htr | split; [exact Hreq | split; [cbn; lia | by eexists]]]. }
  match goal with
  | |- context [callback cb ?b info] => set (batch := b)
  end.
  pose proof (Hstop cb batch info) as Hc.
  destruct (callback cb batch info) as [continue cb']. cbn [fst] in Hc. subst continue.
  cbn [negb fst snd trace]. exists (new1 ++ [EvCallback batch info]).
  rewrite Htr, <- app_assoc, TraceFacts.requests_app, TraceFacts.delivered_app, Hd.
  cbn [requests delivered app length]. rewrite app_nil_r.
  split; [reflexivity | split; [exact Hreq | split; [lia | by eexists]]].
Qed.

(** X17 against the paging server: one request, one batch. *)
Lemma QueryCallback_stops_on_false_witness :
  let callback := fun (cb : unit) (_ : list nat) (_ : option ChunkInfo.t) => (false, cb) in
  let run := QueryCallback (paging (seq 0 7)) callback (WithChunkSize 3 NewClient)
                           None "genome" NewQuery 5 tt (start unit tt) in
  exists new,
    trace (snd run) = trace (start unit tt) ++ new
    /\ Forall (fun req => req = pageRequest (WithChunkSize 3 NewClient)
                               (Registry.GetObjectType "genome")
                               (Build (withWildcard "genome" NewQuery))
                               (pageSize (WithChunkSize 3 NewClient) NewQuery) 0)
              (requests new)
    /\ (length (delivered new) <= 1)%nat
    /\ exists e, fst (fst run) = Done e.
Proof.
  intros callback run.
  apply (QueryCallback_stops_on_false (paging (seq 0 7)) callback
           (WithChunkSize 3 NewClient) None "genome" NewQuery 5 tt (start unit tt)).
  - reflexivity.
  - repeat constructor.
Defined.

End RetrievalProps.

(** ** [Query.Clone] in memory: what the clone reads as *)

Module CloneFacts.
Import Mem.

Lemma contents_take {A} (k : kind A) st s :
  take (len s) (contents k st s) = contents k st s.
Proof.
  unfold contents. destruct (arr s); [| by rewrite take_nil].
  rewrite take_take. f_equal. lia.
Qed.

(** A slice into an array below [n] shows the same elements in every
    store that holds the same arrays below [n]. *)
Lemma contents_below {A} (k : kind A) st st' n s :
  below n s ->
  (forall a : loc, (a < n)%positive -> arrays k st' !! a = arrays k st !! a) ->
  contents k st' s = contents k st s.
Proof.
  unfold below, contents. intros Hs H.
  destruct (arr s) as [a|]; [| done]. by rewrite (H a Hs).
Qed.

Ltac lookups :=
  repeat first [ rewrite lookup_alter_ne by lia | rewrite lookup_alter_eq
               | rewrite lookup_insert_ne by lia | rewrite lookup_insert_eq ].

Ltac agree :=
  let a := fresh "a" in
  let Ha := fresh "Ha" in
  intros a Ha; cbn [arrays strK filterK sortK strArrays filterArrays sortArrays];
  lookups; reflexivity.

(** The list of the clone at a fresh array that [copy] has filled. *)
Ltac copied k st B :=
  unfold contents at 1;
  cbn [arr len arrays strK filterK sortK strArrays filterArrays sortArrays];
  lookups;
  cbn [fmap option_fmap option_map default from_option id];
  rewrite drop_replicate, Nat.sub_diag; cbn [replicate];
  rewrite app_nil_r, take_take, Nat.min_id;
  rewrite (contents_below k st _ (next st)); [apply contents_take | exact B | agree].

(** [Clone] succeeds on a stored query, at a fresh address, and the
    clone reads as the original did. *)
Lemma Clone_view (p : loc) (q : Query) (st : store) :
  queries st !! p = Some q ->
  reachesBelow (next st) st q ->
  exists c st1,
    Clone p st = Some (c, st1)
    /\ (next st <= c)%positive
    /\ viewAt st1 c = Some (view st q).
Proof.
  intros Hq (B1 & B2 & B3 & B4 & B5).
  unfold Clone, bind, load, make, alloc, ret, newQuery, copy, bump.
  rewrite Hq. cbn -[contents replicate take drop Nat.min].
  eexists _, _. split; [reflexivity | split; [lia |]].
  unfold viewAt. cbn [queries]. rewrite lookup_insert_eq.
  cbn [fmap option_fmap option_map]. f_equal.
  rewrite !Nat.min_id. unfold view.
  cbn [SelectFields Filters RequiredFields SortSpecs Keyword LimitValue].
  f_equal.
  - copied strK st B1.
  - match goal with
    | |- map _ ?l = _ =>
        assert (l = contents filterK st (Filters q)) as -> by copied filterK st B2
    end.
    apply map_ext_Forall. eapply Forall_impl; [exact B5|].
    intros f Hf. unfold viewFilter. f_equal.
    apply (contents_below strK st _ (next st)); [exact Hf | agree].
  - copied strK st B3.
  - copied sortK st B4.
Qed.
End CloneFacts.

Module MemProps.
Import Mem.

(** X20. [Clone] never fails on a query that is stored, and the clone
    reads as the original: same selected fields, filters with their
    values, required fields, keyword, sort specifications and limit, so
    that [Build] gives the same string for both; the clone is a new
    struct, and the original reads as before. *)
Theorem Clone_reads_as_original (p : loc) (q : Query) (st : store) :
  queries st !! p = Some q ->
  (p < next st)%positive ->
  reachesBelow (next st) st q ->
  exists c st1,
    Clone p st = Some (c, st1)
    /\ c <> p
    /\ viewAt st1 c = viewAt st p
    /\ viewAt st1 p = viewAt st p
    /\ Build st1 c = Build st p.
Proof.
  intros Hq Hp Hreach.
  destruct (CloneFacts.Clone_view p q st Hq Hreach) as (c & st1 & Hclone & Hc & Hview).
  exists c, st1.
  assert (viewAt st p = Some (view st q)) as Horig by (unfold viewAt; by rewrite Hq).
  assert (viewAt st1 p = viewAt st p) as Hkept
    by exact (MemFacts.Clone_owns_its_lists p q st c st1 [] st1 Hq Hp Hreach Hclone eq_refl).
  split; [exact Hclone | split; [lia | split; [congruence | split; [exact Hkept |]]]].
  unfold Build. congruence.
Qed.

(** X20 on the query [Select("f1","f2").In("status","a","b")]. *)
Lemma Clone_reads_as_original_witness :
  match original emptyStore with
  | Some (p, st) =>
      exists c st1,
        Clone p st = Some (c, st1)
        /\ c <> p
        /\ viewAt st1 c = viewAt st p
        /\ viewAt st1 p = viewAt st p
        /\ Build st1 c = Build st p
  | None => False
  end.
Proof.
  destruct (original emptyStore) as [[p st]|] eqn:Ho; [| discriminate Ho].
  vm_compute in Ho. injection Ho as <- <-.
  eapply Clone_reads_as_original.
  - vm_compute. reflexivity.
  - reflexivity.
  - vm_compute. repeat split; repeat constructor.
Defined.
End MemProps.

(** ** The registry tables *)

Module RegistryProps.
Import Registry Client.

Ltac entries H :=
  apply elem_of_list_to_map_2 in H;
  repeat (apply elem_of_cons in H as [H | H]; [injection H as -> -> |]);
  try (by apply elem_of_nil in H).

(** X21. Resolving a name twice is resolving it once, for every name
    but one: [subsystemItem] resolves to [subsystem], which is itself
    an alias, of [subsystem_ref]. A caller that passes the resolved
    name of a collection reaches that collection, unless the
    collection is [subsystem]. *)
Theorem GetObjectType_twice (name : string) :
  GetObjectType (GetObjectType name)
  = if String.eqb name "subsystemItem" then "subsystem_ref"
    else GetObjectType name.
Proof.
  unfold GetObjectType at 2 3.
  destruct (Objects !! name) as [mapped|] eqn:E.
  - unfold Objects in E. entries E; vm_compute; reflexivity.
  - destruct (String.eqb_spec name "subsystemItem") as [->|_].
    + vm_compute in E. discriminate E.
    + unfold GetObjectType. by rewrite E.
Qed.

(** X22. The column of the wildcard filter, name by name. [IDColumns]
    is keyed by the names callers use, and is read with the resolved
    name: the filter is on the ID column of the registry for the six
    names that resolve to themselves, on [subsystem_id] for
    [subsystemItem], whose own entry is [id], and on [id] for every
    other name, the aliases [feature], [family], [contig] and the rest
    included. *)
Theorem idColumnFor_by_name (name : string) :
  idColumnFor name
  = if String.eqb name "genome" then "genome_id"
    else if String.eqb name "taxonomy" then "taxon_id"
    else if String.eqb name "sp_gene" then "patric_id"
    else if String.eqb name "protein_structure" then "pdb_id"
    else if String.eqb name "surveillance" then "sample_identifier"
    else if String.eqb name "serology" then "sample_identifier"
    else if String.eqb name "subsystemItem" then "subsystem_id"
    else "id".
Proof.
  unfold idColumnFor, GetObjectType.
  destruct (Objects !! name) as [mapped|] eqn:E.
  - unfold Objects in E. entries E; vm_compute; reflexivity.
  - unfold GetIDColumn.
    destruct (IDColumns !! name) as [col|] eqn:EC.
    + unfold IDColumns in EC. entries EC; vm_compute in E; discriminate E.
    + cbn [default String.eqb].
      repeat match goal with
             | |- context [String.eqb name ?lit] =>
                 destruct (String.eqb_spec name lit) as [->|_];
                 [vm_compute in E; discriminate E|]
             end.
      reflexivity.
Qed.

End RegistryProps.

(** ** What [parseContentRange] accepts, for every header *)

Module RangeFacts.
Import Client Regexp StrFacts DecFacts.

(** A successful repetition hands the continuation what is left after
    some bytes of the class. *)
Lemma plusMore_inv cls k (s : string) pos marks r :
  plusMore cls k s pos marks = Some r ->
  exists pre post,
    s = pre +:+ post /\ Str.all cls pre = true /\
    k post (pos + String.length pre)%nat marks = Some r.
Proof.
  revert pos. induction s as [|d s IH]; intros pos H.
  - exists "", "". simpl in *. by rewrite Nat.add_0_r.
  - simpl in H. destruct (cls d) eqn:Hd.
    + destruct (plusMore cls k s (S pos) marks) as [r'|] eqn:Hmore.
      * injection H as ->. destruct (IH _ Hmore) as (pre & post & -> & Hall & Hk).
        exists (String d pre), post. simpl. rewrite Hd, Hall.
        split; [reflexivity | split; [reflexivity |]].
        by rewrite <- Nat.add_succ_comm.
      * exists "", (String d s). simpl. by rewrite Nat.add_0_r.
    + exists "", (String d s). simpl. by rewrite Nat.add_0_r.
Qed.

Lemma Plus_inv cls pat (s : string) pos marks r :
  matchHere (Plus cls :: pat) s pos marks = Some r ->
  exists pre post,
    s = pre +:+ post /\ pre <> "" /\ Str.all cls pre = true /\
    matchHere pat post (pos + String.length pre)%nat marks = Some r.
Proof.
  destruct s as [|d s]; simpl; [discriminate|].
  destruct (cls d) eqn:Hd; [| discriminate]. intros H.
  destruct (plusMore_inv _ _ _ _ _ _ H) as (pre & post & -> & Hall & Hk).
  exists (String d pre), post. simpl. rewrite Hd, Hall.
  split; [reflexivity | split; [discriminate | split; [reflexivity |]]].
  by rewrite <- Nat.add_succ_comm.
Qed.

Lemma Lit_inv c pat (s : string) pos marks r :
  matchHere (Lit c :: pat) s pos marks = Some r ->
  exists s', s = String c s' /\ matchHere pat s' (S pos) marks = Some r.
Proof.
  destruct s as [|d s]; simpl; [discriminate|].
  destruct (Ascii.eqb_spec c d) as [-> |]; [| discriminate].
  intros H. by exists s.
Qed.

Lemma all_isDigit (s : string) : Str.all Str.isDigit s = Dec.allDigits s.
Proof. induction s as [|c s IH]; simpl; [reflexivity | by rewrite IH]. Qed.

(** A group of digits: [(\d+)]. *)
Lemma group_inv pat (s : string) pos marks r :
  matchHere (Mark :: Plus Str.isDigit :: Mark :: pat) s pos marks = Some r ->
  exists d post,
    s = d +:+ post /\ d <> "" /\ Dec.allDigits d = true /\
    matchHere pat post (pos + String.length d)%nat
              ((pos + String.length d)%nat :: pos :: marks) = Some r.
Proof.
  rewrite RegexpFacts.matchHere_Mark. intros H.
  destruct (Plus_inv _ _ _ _ _ _ H) as (d & post & -> & Hne & Hall & Hk).
  exists d, post. rewrite <- all_isDigit. by repeat split.
Qed.

(** Where the pattern matches, the text has the three groups in it. *)
Lemma contentRange_inv (s : string) pos r :
  matchHere contentRangeRE s pos [] = Some r ->
  exists sp da db dc tail,
    s = "items" +:+ sp +:+ da +:+ "-" +:+ db +:+ "/" +:+ dc +:+ tail /\
    sp <> "" /\ Str.all Str.isSpace sp = true /\
    (da <> "" /\ Dec.allDigits da = true) /\
    (db <> "" /\ Dec.allDigits db = true) /\
    (dc <> "" /\ Dec.allDigits dc = true) /\
    let o1 := (pos + 5 + String.length sp)%nat in
    let e1 := (o1 + String.length da)%nat in
    let e2 := (S e1 + String.length db)%nat in
    let e3 := (S e2 + String.length dc)%nat in
    r = (e3, [e3; S e2; e2; S e1; e1; o1]).
Proof.
  cbv [contentRangeRE lits list_ascii_of_string map app]. intros H.
  do 5 (apply Lit_inv in H as (? & -> & H)).
  apply Plus_inv in H as (sp & s1 & -> & Hsp & Hspall & H).
  apply group_inv in H as (da & s2 & -> & Hda & Hdaall & H).
  apply Lit_inv in H as (s3 & -> & H).
  apply group_inv in H as (db & s4 & -> & Hdb & Hdball & H).
  apply Lit_inv in H as (s5 & -> & H).
  apply group_inv in H as (dc & tail & -> & Hdc & Hdcall & H).
  simpl in H. injection H as <-.
  exists sp, da, db, dc, tail.
  split; [reflexivity |]. do 5 (split; [tauto |]).
  cbv zeta. apply (f_equal2 pair); [lia |].
  repeat (apply (f_equal2 cons); [lia |]). reflexivity.
Qed.

Lemma search_inv pat (s : string) pos start r :
  search pat s pos = Some (start, r) ->
  exists pre s',
    s = pre +:+ s' /\ start = (pos + String.length pre)%nat /\
    matchHere pat s' start [] = Some r.
Proof.
  revert pos. induction s as [|d s IH]; intros pos H.
  - simpl in H. destruct (matchHere pat "" pos []) eqn:Hm; [| discriminate].
    injection H as <- <-. exists "", "". simpl. by rewrite Nat.add_0_r.
  - simpl in H. destruct (matchHere pat (String d s) pos []) eqn:Hm.
    + injection H as <- <-. exists "", (String d s). simpl. by rewrite Nat.add_0_r.
    + destruct (IH _ H) as (pre & s' & -> & -> & Hs').
      exists (String d pre), s'. simpl.
      split; [reflexivity | split; [lia |]].
      replace (pos + S (String.length pre))%nat
        with (S pos + String.length pre)%nat by lia.
      exact Hs'.
Qed.

(** [b] is what lies between [a] and [c]. *)
Ltac cut_out a b c :=
  match goal with
  | |- substring _ _ ?s = _ =>
      replace s with (a +:+ b +:+ c) by (rewrite ?append_assoc; reflexivity)
  end;
  apply substring_mid; rewrite ?length_append; simpl; lia.

(** The submatches are nil, or the match and three groups of digits cut
    out of the header. *)
Lemma FindStringSubmatch_inv (header : string) :
  FindStringSubmatch contentRangeRE header = [] \/
  exists pre sp da db dc tail,
    header = pre +:+ "items" +:+ sp +:+ da +:+ "-" +:+ db +:+ "/" +:+ dc +:+ tail /\
    sp <> "" /\ Str.all Str.isSpace sp = true /\
    (da <> "" /\ Dec.allDigits da = true) /\
    (db <> "" /\ Dec.allDigits db = true) /\
    (dc <> "" /\ Dec.allDigits dc = true) /\
    FindStringSubmatch contentRangeRE header
    = [ "items" +:+ sp +:+ da +:+ "-" +:+ db +:+ "/" +:+ dc; da; db; dc ].
Proof.
  unfold FindStringSubmatch.
  destruct (search contentRangeRE header 0) as [[start [stop marks]]|] eqn:Hs;
    [right | by left].
  destruct (search_inv _ _ _ _ _ Hs) as (pre & s' & -> & -> & Hm).
  destruct (contentRange_inv _ _ _ Hm)
    as (sp & da & db & dc & tail & -> & Hsp & Hspall & Hda & Hdb & Hdc & Hr).
  cbv zeta in Hr. injection Hr as -> ->.
  exists pre, sp, da, db, dc, tail.
  split; [reflexivity |]. do 5 (split; [assumption |]).
  cbn [groups app].
  f_equal; [| f_equal; [| f_equal; [| f_equal]]].
  - cut_out pre ("items" +:+ sp +:+ da +:+ "-" +:+ db +:+ "/" +:+ dc) tail.
  - cut_out (pre +:+ "items" +:+ sp) da ("-" +:+ db +:+ "/" +:+ dc +:+ tail).
  - cut_out (pre +:+ "items" +:+ sp +:+ da +:+ "-") db ("/" +:+ dc +:+ tail).
  - cut_out (pre +:+ "items" +:+ sp +:+ da +:+ "-" +:+ db +:+ "/") dc tail.
Qed.

Lemma valFrom_digits (d : string) (acc : Z) :
  Dec.allDigits d = true -> 0 <= acc -> 0 <= Dec.valFrom acc d.
Proof.
  revert acc. induction d as [|c d IH]; intros acc Hall Hacc; simpl; [exact Hacc|].
  simpl in Hall. apply andb_true_iff in Hall as [Hc Hall].
  apply IH; [exact Hall |].
  unfold Str.isDigit in Hc. apply andb_true_iff in Hc as [Hc _].
  apply N.leb_le in Hc. unfold Dec.digitVal. lia.
Qed.

(** On digits [Atoi] saturates at the largest [int]. *)
Lemma Atoi_digits (d : string) :
  d <> "" -> Dec.allDigits d = true ->
  fst (Dec.Atoi d) = Dec.valFrom 0 d `min` Dec.MaxInt.
Proof.
  intros Hne Hall. pose proof (valFrom_digits d 0 Hall ltac:(lia)) as Hval.
  unfold Dec.Atoi. destruct d as [|c rest] eqn:E; [congruence|].
  pose proof Hall as Hall'.
  simpl in Hall'. apply andb_true_iff in Hall' as [Hc _].
  destruct (digit_not_sign c Hc) as [-> ->].
  rewrite Hall. cbn [String.eqb orb negb andb].
  unfold Dec.MaxInt.
  destruct (Z.leb_spec (2 ^ 63) (Dec.valFrom 0 (String c rest))); cbn [fst]; lia.
Qed.

End RangeFacts.

Module RangeProps.
Import Client.

(** X23. [parseContentRange] on an arbitrary header. The result is not
    the zero value only if the header contains, anywhere, [items], white
    space and three groups of digits separated by [-] and [/]; the
    fields are then the values of the groups, cut at the largest [int],
    and [IsLast] compares the last two. In every case the three numbers
    lie between 0 and the largest [int]. *)
Theorem parseContentRange_any_header (header : string) :
  let info := parseContentRange header in
  (0 <= ChunkInfo.Start info <= Dec.MaxInt /\
   0 <= ChunkInfo.Next info <= Dec.MaxInt /\
   0 <= ChunkInfo.Count info <= Dec.MaxInt) /\
  (info = ChunkInfo.mk 0 0 0 false \/
   exists pre sp da db dc tail,
     header = pre +:+ "items" +:+ sp +:+ da +:+ "-" +:+ db +:+ "/" +:+ dc +:+ tail /\
     sp <> "" /\ Str.all Str.isSpace sp = true /\
     (da <> "" /\ Dec.allDigits da = true) /\
     (db <> "" /\ Dec.allDigits db = true) /\
     (dc <> "" /\ Dec.allDigits dc = true) /\
     let start := Dec.valFrom 0 da `min` Dec.MaxInt in
     let next := Dec.valFrom 0 db `min` Dec.MaxInt in
     let count := Dec.valFrom 0 dc `min` Dec.MaxInt in
     info = ChunkInfo.mk start next count (count <=? next)).
Proof.
  cbv zeta. unfold parseContentRange.
  assert (0 <= Dec.MaxInt) as Hmax by (unfold Dec.MaxInt; lia).
  destruct (String.eqb header ""); [simpl; split; [lia | by left] |].
  destruct (RangeFacts.FindStringSubmatch_inv header)
    as [-> | (pre & sp & da & db & dc & tail & Hh & Hsp & Hspall & Hda & Hdb & Hdc & ->)];
    [simpl; split; [lia | by left] |].
  cbn [length Nat.eqb negb nth].
  rewrite !RangeFacts.Atoi_digits by tauto.
  pose proof (RangeFacts.valFrom_digits da 0 (proj2 Hda) ltac:(lia)).
  pose proof (RangeFacts.valFrom_digits db 0 (proj2 Hdb) ltac:(lia)).
  pose proof (RangeFacts.valFrom_digits dc 0 (proj2 Hdc) ltac:(lia)).
  split; [cbn [ChunkInfo.Start ChunkInfo.Next ChunkInfo.Count]; lia |].
  right. exists pre, sp, da, db, dc, tail.
  do 6 (split; [assumption |]). reflexivity.
Qed.

(** The match is not anchored and the numbers saturate. *)
Example parseContentRange_lenient :
  parseContentRange "bytes; items  7-99999999999999999999/12 (approx)"
  = ChunkInfo.mk 7 Dec.MaxInt 12 true.
Proof. vm_compute. reflexivity. Qed.

End RangeProps.

(** ** The fluent interface on the store *)

Module BuilderFacts.
Import Mem MemFacts.

Lemma below_mono n n' s : below n s -> (n <= n')%positive -> below n' s.
Proof. unfold below. destruct (arr s); [lia | auto]. Qed.

Lemma apart_sym s t : apart s t -> apart t s.
Proof. unfold apart. destruct (arr s), (arr t); auto. Qed.

Lemma apart_moved n s s' t :
  movedFrom n s s' -> apart s t -> below n t -> apart s' t.
Proof.
  unfold movedFrom, apart, below.
  intros [-> | (b & -> & Hb)]; [auto |].
  destruct (arr t) as [a|]; [| auto]. intros _ Ha. lia.
Qed.

Lemma apart_nil_l t : apart nilSlice t.
Proof. exact I. Qed.

Lemma agreeBut_refl hole st : agreeBut hole st st.
Proof. split; [lia | split; [reflexivity | auto]]. Qed.

Lemma agreeBut_next hole st st' :
  agreeBut hole st st' -> (next st <= next st')%positive.
Proof. by intros [H _]. Qed.

(** What a slice apart from the hole shows is kept. *)
Lemma kept s t st st' :
  agreeBut (arr s) st st' -> apart s t -> below (next st) t ->
  forall a, arr t = Some a ->
            strArrays st' !! a = strArrays st !! a
            /\ filterArrays st' !! a = filterArrays st !! a
            /\ sortArrays st' !! a = sortArrays st !! a.
Proof.
  intros (_ & _ & H) Hap Hb a Ha. unfold apart, below in *. rewrite Ha in *.
  apply H; [exact Hb |]. destruct (arr s); [congruence | discriminate].
Qed.

Section Builtins.
Context {A : Type} (k : kind A).

Lemma contents_same s st st' :
  (forall a, arr s = Some a -> arrays k st' !! a = arrays k st !! a) ->
  contents k st' s = contents k st s.
Proof.
  unfold contents. destruct (arr s) as [a|]; [| reflexivity].
  intros H. by rewrite (H a eq_refl).
Qed.

Lemma sized_same s st st' :
  (forall a, arr s = Some a -> arrays k st' !! a = arrays k st !! a) ->
  sized k st s -> sized k st' s.
Proof.
  unfold sized. destruct (arr s) as [a|]; [| auto].
  intros H. by rewrite (H a eq_refl).
Qed.

Hypothesis Hk : lawful k.
Hypothesis Hb : forall st, arrays k (bump st) = arrays k st.

Lemma setArrays_agreeBut hole m st :
  (forall a, (a < next st)%positive -> hole <> Some a ->
             m !! a = arrays k st !! a) ->
  agreeBut hole st (setArrays k m st)
  /\ agreeBut hole st (bump (setArrays k m st)).
Proof.
  intros Hm. destruct (Hk m st) as (_ & Hq & Hnext & Hother).
  split; (split; [cbn; rewrite Hnext; lia | split; [exact Hq |]]);
    intros a Ha Hh; exact (Hother a (Hm a Ha Hh)).
Qed.

Lemma alloc_ok elems st :
  exists st',
    alloc k elems st = Some (next st, st')
    /\ arrays k st' !! next st = Some elems
    /\ next st' = Pos.succ (next st)
    /\ agreeBut None st st'.
Proof.
  eexists. split; [reflexivity |].
  destruct (Hk (<[next st := elems]> (arrays k st)) st) as (Ha & _ & Hn & _).
  split; [by rewrite Hb, Ha, lookup_insert_eq |].
  split; [cbn; by rewrite Hn |].
  apply setArrays_agreeBut. intros a Hlt _. apply lookup_insert_ne. lia.
Qed.

Lemma growCap_ge c n : (n <= growCap c n)%nat.
Proof. unfold growCap. destruct (Nat.ltb_spec (c + c) n); lia. Qed.

(** [append] never panics on an allocated slice; the result shows the
    old elements followed by the new ones, on the old array or on a
    fresh one, and nothing else changes. *)
Lemma append_ok s xs st :
  below (next st) s -> sized k st s ->
  exists s' st',
    append k s xs st = Some (s', st')
    /\ contents k st' s' = contents k st s ++ xs
    /\ sized k st' s' /\ below (next st') s'
    /\ movedFrom (next st) s s'
    /\ agreeBut (arr s) st st'.
Proof.
  intros Hbelow Hsized. unfold append.
  destruct xs as [|x xs'] eqn:Exs.
  { exists s, st. rewrite app_nil_r.
    split; [reflexivity | split; [reflexivity | split; [exact Hsized |]]].
    split; [exact Hbelow | split; [by left | apply agreeBut_refl]]. }
  rewrite <- Exs. assert (xs <> []) as Hne by (subst xs; discriminate).
  clear Exs x xs'.
  set (n := (len s + length xs)%nat).
  unfold below, sized, contents in *.
  destruct (arr s) as [a|] eqn:Ea.
  - destruct Hsized as (l & Hl & Hlen & Hcap).
    destruct (Nat.leb_spec n (cap s)) as [Hfit | Hfull].
    + eexists _, _. split; [reflexivity |].
      destruct (Hk (alter (fun old => take (len s) old ++ xs ++ drop n old)
                          a (arrays k st)) st) as (Harr & _ & Hn & _).
      cbn [arr len cap]. rewrite Harr, lookup_alter_eq, Hl. cbn.
      split; [| split; [| split; [by rewrite Hn | split; [by left |]]]].
      * rewrite app_assoc. apply take_app_length'.
        rewrite length_app, length_take. lia.
      * eexists. split; [reflexivity |].
        rewrite !length_app, length_take, length_drop. lia.
      * apply setArrays_agreeBut. intros b _ Hb'.
        apply lookup_alter_ne. intros ->. by apply Hb'.
    + destruct (alloc_ok (take (len s) (default [] (arrays k st !! a)) ++ xs
                          ++ replicate (growCap (cap s) n - n) (zeroOf k)) st)
        as (st' & Hal & Hnew & Hn & Hag).
      exists (mkSlice (Some (next st)) n (growCap (cap s) n)), st'.
      unfold bind, ret. rewrite Hal. cbn [arr len cap].
      rewrite Hnew, Hl. cbn.
      pose proof (growCap_ge (cap s) n) as Hg.
      split; [reflexivity |].
      split; [| split; [| split; [rewrite Hn; lia | split]]].
      * rewrite app_assoc. apply take_app_length'.
        rewrite length_app, length_take. lia.
      * eexists. split; [reflexivity |].
        rewrite !length_app, length_take, length_replicate. lia.
      * right. exists (next st). split; [reflexivity | lia].
      * destruct Hag as (H1 & H2 & H3).
        split; [exact H1 | split; [exact H2 |]].
        intros b Hlt _. apply H3; [exact Hlt | discriminate].
  - destruct (alloc_ok (xs ++ replicate (growCap 0 n - n) (zeroOf k)) st)
      as (st' & Hal & Hnew & Hn & Hag).
    exists (mkSlice (Some (next st)) n (growCap 0 n)), st'.
    destruct xs as [|x xs']; [congruence |].
    unfold bind, ret. rewrite Hal. cbn [arr len cap].
    rewrite Hnew. cbn [default id].
    pose proof (growCap_ge 0 n) as Hg.
    split; [reflexivity |].
    split; [| split; [| split; [rewrite Hn; lia | split; [| exact Hag]]]].
    * apply take_app_length'. subst n. cbn [length app] in *. lia.
    * eexists. split; [reflexivity |].
      rewrite !length_app, length_replicate. subst n. cbn [length] in *. lia.
    * right. exists (next st). split; [reflexivity | lia].
Qed.
End Builtins.

Lemma kept_contents s t st st' :
  agreeBut (arr s) st st' -> apart s t -> below (next st) t ->
  contents strK st' t = contents strK st t
  /\ contents filterK st' t = contents filterK st t
  /\ contents sortK st' t = contents sortK st t.
Proof.
  intros Hag Hap Hb. pose proof (kept s t st st' Hag Hap Hb) as H.
  repeat split; apply contents_same; intros a Ha; apply (H a Ha).
Qed.

Lemma kept_sized s t st st' :
  agreeBut (arr s) st st' -> apart s t -> below (next st) t ->
  (sized strK st t -> sized strK st' t)
  /\ (sized filterK st t -> sized filterK st' t)
  /\ (sized sortK st t -> sized sortK st' t).
Proof.
  intros Hag Hap Hb. pose proof (kept s t st st' Hag Hap Hb) as H.
  repeat split; apply sized_same; intros a Ha; apply (H a Ha).
Qed.

(** The filters keep their values, and the values stay apart from the
    lists, when one list [s] of the lists [L] moves to [s']. *)
Lemma values_kept st st' s s' (L L' : list slice) (fs : list Filter.t) :
  agreeBut (arr s) st st' -> movedFrom (next st) s s' ->
  arr s = None \/ s ∈ L -> Forall (fun t => t = s' \/ t ∈ L) L' ->
  Forall (fun f => below (next st) (Filter.Values f)
                   /\ Forall (apart (Filter.Values f)) L) fs ->
  Forall (fun f => below (next st') (Filter.Values f)
                   /\ Forall (apart (Filter.Values f)) L') fs
  /\ map (viewFilter st') fs = map (viewFilter st) fs.
Proof.
  intros Hag Hmv Hs HL' Hfs.
  induction Hfs as [|f fs [Hb Hap] _ [IH1 IH2]]; [by split |].
  assert (apart s (Filter.Values f)) as Hsf.
  { destruct Hs as [Hnil | Hs]; [unfold apart; by rewrite Hnil |].
    apply apart_sym. rewrite Forall_forall in Hap. by apply Hap. }
  split.
  - constructor; [| exact IH1]. split.
    + eapply below_mono; [exact Hb | by eapply agreeBut_next].
    + rewrite Forall_forall in HL', Hap |- *. intros t Ht.
      destruct (HL' t Ht) as [-> | Hold]; [| by apply Hap].
      apply apart_sym. eapply apart_moved; [exact Hmv | exact Hsf | exact Hb].
  - cbn [map]. rewrite IH2. f_equal. unfold viewFilter. f_equal.
    by destruct (kept_contents s (Filter.Values f) st st' Hag Hsf Hb) as (-> & _).
Qed.

Lemma lists_kept st st' s s' (L L' : list slice) :
  agreeBut (arr s) st st' -> below (next st') s' ->
  Forall (fun t => t = s' \/ t ∈ L) L' ->
  Forall (below (next st)) L -> Forall (below (next st')) L'.
Proof.
  intros Hag Hs' HL' HL. rewrite Forall_forall in HL', HL |- *. intros t Ht.
  destruct (HL' t Ht) as [-> | Hold]; [exact Hs' |].
  eapply below_mono; [by apply HL | by eapply agreeBut_next].
Qed.

(** Storing a query touches no array. *)
Lemma wellFormed_stored st m q :
  wellFormed st q ->
  wellFormed (mkStore (strArrays st) (filterArrays st) (sortArrays st) m (next st)) q.
Proof. exact id. Qed.

Lemma view_stored st m q :
  view (mkStore (strArrays st) (filterArrays st) (sortArrays st) m (next st)) q
  = view st q.
Proof. reflexivity. Qed.

Ltac four H B1 B2 B3 B4 :=
  pose proof (Forall_inv H) as B1;
  pose proof (Forall_inv (Forall_inv_tail H)) as B2;
  pose proof (Forall_inv (Forall_inv_tail (Forall_inv_tail H))) as B3;
  pose proof (Forall_inv (Forall_inv_tail (Forall_inv_tail (Forall_inv_tail H)))) as B4.

Ltac member :=
  repeat first [ apply list_elem_of_here | apply list_elem_of_further ].

Ltac oldOrNew :=
  repeat (constructor; [first [ by left | right; member ] |]); constructor.

Ltac separate :=
  first
    [ assumption
    | exact I
    | apply apart_sym; assumption
    | eapply apart_moved;
      [eassumption | first [assumption | apply apart_sym; assumption] | assumption]
    | apply apart_sym; eapply apart_moved;
      [eassumption | first [assumption | apply apart_sym; assumption] | assumption] ].

Ltac keepSized Hag :=
  match goal with
  | H : sized ?k ?st ?t |- sized ?k _ ?t =>
      eapply (kept_sized _ t _ _ Hag); [separate | assumption | exact H]
  end.

Ltac keepContents Hag :=
  match goal with
  | |- contents ?k _ ?t = contents ?k _ ?t =>
      eapply (kept_contents _ t _ _ Hag); [separate | assumption]
  end.

Lemma Select_refines p fields st q :
  queries st !! p = Some q -> wellFormed st q ->
  exists st' q',
    Select p fields st = Some (p, st') /\ queries st' !! p = Some q'
    /\ wellFormed st' q' /\ view st' q' = RQL.Select (view st q) fields.
Proof.
  intros Hq (Hbl & Z1 & Z2 & Z3 & Z4 & A12 & A13 & A14 & A23 & A24 & A34 & Hv).
  four Hbl B1 B2 B3 B4.
  destruct (append_ok strK lawful_strK (fun _ => eq_refl) _ fields st B1 Z1)
    as (s' & st1 & Happ & Hc & Z' & B' & Hmv & Hag).
  destruct (values_kept st st1 _ s' (lists q)
              [s'; Filters q; RequiredFields q; SortSpecs q] _ Hag Hmv
              ltac:(right; member) ltac:(oldOrNew) Hv) as [Hv1 Hv2].
  pose proof (lists_kept st st1 _ s' (lists q)
              [s'; Filters q; RequiredFields q; SortSpecs q] Hag B'
              ltac:(oldOrNew) Hbl) as Hbl1.
  eexists _, _. unfold Select, bind, load, store_, ret.
  rewrite Hq, Happ. split; [reflexivity |].
  split; [apply lookup_insert_eq |].
  split.
  - apply wellFormed_stored. unfold wellFormed. cbn [SelectFields Filters RequiredFields SortSpecs lists].
    split; [exact Hbl1 |].
    split; [exact Z' |].
    split; [keepSized Hag |].
    split; [keepSized Hag |].
    split; [keepSized Hag |].
    do 6 (split; [separate |]).
    replace (contents filterK st1 (Filters q)) with (contents filterK st (Filters q));
      [exact Hv1 | symmetry; keepContents Hag].
  - rewrite view_stored. unfold view, RQL.Select.
    cbn [SelectFields Filters RequiredFields SortSpecs Keyword LimitValue
         RQL.SelectFields RQL.Filters RQL.RequiredFields RQL.SortSpecs
         RQL.Keyword RQL.LimitValue].
    rewrite Hc.
    replace (contents filterK st1 (Filters q)) with (contents filterK st (Filters q))
      by (symmetry; keepContents Hag).
    rewrite Hv2.
    replace (contents strK st1 (RequiredFields q))
      with (contents strK st (RequiredFields q)) by (symmetry; keepContents Hag).
    replace (contents sortK st1 (SortSpecs q))
      with (contents sortK st (SortSpecs q)) by (symmetry; keepContents Hag).
    reflexivity.
Qed.

Lemma Required_refines p fields st q :
  queries st !! p = Some q -> wellFormed st q ->
  exists st' q',
    Required p fields st = Some (p, st') /\ queries st' !! p = Some q'
    /\ wellFormed st' q' /\ view st' q' = RQL.Required (view st q) fields.
Proof.
  intros Hq (Hbl & Z1 & Z2 & Z3 & Z4 & A12 & A13 & A14 & A23 & A24 & A34 & Hv).
  four Hbl B1 B2 B3 B4.
  destruct (append_ok strK lawful_strK (fun _ => eq_refl) _ fields st B3 Z3)
    as (s' & st1 & Happ & Hc & Z' & B' & Hmv & Hag).
  destruct (values_kept st st1 _ s' (lists q)
              [SelectFields q; Filters q; s'; SortSpecs q] _ Hag Hmv
              ltac:(right; member) ltac:(oldOrNew) Hv) as [Hv1 Hv2].
  pose proof (lists_kept st st1 _ s' (lists q)
              [SelectFields q; Filters q; s'; SortSpecs q] Hag B'
              ltac:(oldOrNew) Hbl) as Hbl1.
  eexists _, _. unfold Required, bind, load, store_, ret.
  rewrite Hq, Happ. split; [reflexivity |].
  split; [apply lookup_insert_eq |].
  split.
  - apply wellFormed_stored. unfold wellFormed.
    cbn [SelectFields Filters RequiredFields SortSpecs lists].
    split; [exact Hbl1 |].
    split; [keepSized Hag |].
    split; [keepSized Hag |].
    split; [exact Z' |].
    split; [keepSized Hag |].
    do 6 (split; [separate |]).
    replace (contents filterK st1 (Filters q)) with (contents filterK st (Filters q));
      [exact Hv1 | symmetry; keepContents Hag].
  - rewrite view_stored. unfold view, RQL.Required.
    cbn [SelectFields Filters RequiredFields SortSpecs Keyword LimitValue
         RQL.SelectFields RQL.Filters RQL.RequiredFields RQL.SortSpecs
         RQL.Keyword RQL.LimitValue].
    rewrite Hc.
    replace (contents filterK st1 (Filters q)) with (contents filterK st (Filters q))
      by (symmetry; keepContents Hag).
    rewrite Hv2.
    replace (contents strK st1 (SelectFields q))
      with (contents strK st (SelectFields q)) by (symmetry; keepContents Hag).
    replace (contents sortK st1 (SortSpecs q))
      with (contents sortK st (SortSpecs q)) by (symmetry; keepContents Hag).
    reflexivity.
Qed.

Lemma Sort_refines p field descending st q :
  queries st !! p = Some q -> wellFormed st q ->
  exists st' q',
    Sort p field descending st = Some (p, st') /\ queries st' !! p = Some q'
    /\ wellFormed st' q'
    /\ view st' q' = RQL.Sort (view st q) field descending.
Proof.
  intros Hq (Hbl & Z1 & Z2 & Z3 & Z4 & A12 & A13 & A14 & A23 & A24 & A34 & Hv).
  four Hbl B1 B2 B3 B4.
  destruct (append_ok sortK lawful_sortK (fun _ => eq_refl) _
              [RQL.SortSpec.mk field descending] st B4 Z4)
    as (s' & st1 & Happ & Hc & Z' & B' & Hmv & Hag).
  destruct (values_kept st st1 _ s' (lists q)
              [SelectFields q; Filters q; RequiredFields q; s'] _ Hag Hmv
              ltac:(right; member) ltac:(oldOrNew) Hv) as [Hv1 Hv2].
  pose proof (lists_kept st st1 _ s' (lists q)
              [SelectFields q; Filters q; RequiredFields q; s'] Hag B'
              ltac:(oldOrNew) Hbl) as Hbl1.
  eexists _, _. unfold Sort, bind, load, store_, ret.
  rewrite Hq, Happ. split; [reflexivity |].
  split; [apply lookup_insert_eq |].
  split.
  - apply wellFormed_stored. unfold wellFormed.
    cbn [SelectFields Filters RequiredFields SortSpecs lists].
    split; [exact Hbl1 |].
    split; [keepSized Hag |].
    split; [keepSized Hag |].
    split; [keepSized Hag |].
    split; [exact Z' |].
    do 6 (split; [separate |]).
    replace (contents filterK st1 (Filters q)) with (contents filterK st (Filters q));
      [exact Hv1 | symmetry; keepContents Hag].
  - rewrite view_stored. unfold view, RQL.Sort.
    cbn [SelectFields Filters RequiredFields SortSpecs Keyword LimitValue
         RQL.SelectFields RQL.Filters RQL.RequiredFields RQL.SortSpecs
         RQL.Keyword RQL.LimitValue].
    rewrite Hc.
    replace (contents filterK st1 (Filters q)) with (contents filterK st (Filters q))
      by (symmetry; keepContents Hag).
    rewrite Hv2.
    replace (contents strK st1 (SelectFields q))
      with (contents strK st (SelectFields q)) by (symmetry; keepContents Hag).
    replace (contents strK st1 (RequiredFields q))
      with (contents strK st (RequiredFields q)) by (symmetry; keepContents Hag).
    reflexivity.
Qed.

(** A filter may join a query when its values are allocated and apart
    from the lists of the query. *)
Lemma addFilter_refines p f st q :
  queries st !! p = Some q -> wellFormed st q ->
  below (next st) (Filter.Values f) ->
  Forall (apart (Filter.Values f)) (lists q) ->
  exists st' q',
    addFilter p f st = Some (p, st') /\ queries st' !! p = Some q'
    /\ wellFormed st' q'
    /\ view st' q' = RQL.addFilter (view st q) (viewFilter st f).
Proof.
  intros Hq (Hbl & Z1 & Z2 & Z3 & Z4 & A12 & A13 & A14 & A23 & A24 & A34 & Hv)
         Bf Af.
  four Hbl B1 B2 B3 B4.
  destruct (append_ok filterK lawful_filterK (fun _ => eq_refl) _ [f] st B2 Z2)
    as (s' & st1 & Happ & Hc & Z' & B' & Hmv & Hag).
  assert (Forall (fun g => below (next st) (Filter.Values g)
                           /\ Forall (apart (Filter.Values g)) (lists q))
                 (contents filterK st (Filters q) ++ [f])) as Hvf.
  { apply Forall_app. split; [exact Hv | constructor; [by split | constructor]]. }
  destruct (values_kept st st1 _ s' (lists q)
              [SelectFields q; s'; RequiredFields q; SortSpecs q] _ Hag Hmv
              ltac:(right; member) ltac:(oldOrNew) Hvf) as [Hv1 Hv2].
  pose proof (lists_kept st st1 _ s' (lists q)
              [SelectFields q; s'; RequiredFields q; SortSpecs q] Hag B'
              ltac:(oldOrNew) Hbl) as Hbl1.
  eexists _, _. unfold addFilter, bind, load, store_, ret.
  rewrite Hq, Happ. split; [reflexivity |].
  split; [apply lookup_insert_eq |].
  split.
  - apply wellFormed_stored. unfold wellFormed.
    cbn [SelectFields Filters RequiredFields SortSpecs lists].
    split; [exact Hbl1 |].
    split; [keepSized Hag |].
    split; [exact Z' |].
    split; [keepSized Hag |].
    split; [keepSized Hag |].
    do 6 (split; [separate |]).
    rewrite Hc. exact Hv1.
  - rewrite view_stored. unfold view, RQL.addFilter.
    cbn [SelectFields Filters RequiredFields SortSpecs Keyword LimitValue
         RQL.SelectFields RQL.Filters RQL.RequiredFields RQL.SortSpecs
         RQL.Keyword RQL.LimitValue].
    rewrite Hc, Hv2, map_app.
    replace (contents strK st1 (SelectFields q))
      with (contents strK st (SelectFields q)) by (symmetry; keepContents Hag).
    replace (contents strK st1 (RequiredFields q))
      with (contents strK st (RequiredFields q)) by (symmetry; keepContents Hag).
    replace (contents sortK st1 (SortSpecs q))
      with (contents sortK st (SortSpecs q)) by (symmetry; keepContents Hag).
    reflexivity.
Qed.

(** An allocation leaves a query as it is. *)
Lemma wellFormed_kept st st' q :
  agreeBut None st st' -> wellFormed st q ->
  wellFormed st' q /\ view st' q = view st q.
Proof.
  intros Hag (Hbl & Z1 & Z2 & Z3 & Z4 & A12 & A13 & A14 & A23 & A24 & A34 & Hv).
  four Hbl B1 B2 B3 B4.
  change None with (arr nilSlice) in Hag.
  destruct (values_kept st st' nilSlice nilSlice (lists q) (lists q) _ Hag
              ltac:(by left) ltac:(by left)
              ltac:(unfold lists; oldOrNew) Hv) as [Hv1 Hv2].
  pose proof (lists_kept st st' nilSlice nilSlice (lists q) (lists q) Hag I
              ltac:(unfold lists; oldOrNew) Hbl) as Hbl1.
  split.
  - unfold wellFormed.
    split; [exact Hbl1 |].
    do 4 (split; [keepSized Hag |]).
    do 6 (split; [separate |]).
    replace (contents filterK st' (Filters q)) with (contents filterK st (Filters q));
      [exact Hv1 | symmetry; keepContents Hag].
  - unfold view.
    replace (contents filterK st' (Filters q)) with (contents filterK st (Filters q))
      by (symmetry; keepContents Hag).
    rewrite Hv2.
    replace (contents strK st' (SelectFields q))
      with (contents strK st (SelectFields q)) by (symmetry; keepContents Hag).
    replace (contents strK st' (RequiredFields q))
      with (contents strK st (RequiredFields q)) by (symmetry; keepContents Hag).
    replace (contents sortK st' (SortSpecs q))
      with (contents sortK st (SortSpecs q)) by (symmetry; keepContents Hag).
    reflexivity.
Qed.

(** The slice of a variadic call is new. *)
Lemma variadic_ok xs st :
  exists v st',
    variadic xs st = Some (v, st')
    /\ contents strK st' v = xs /\ below (next st') v
    /\ movedFrom (next st) nilSlice v
    /\ agreeBut None st st'.
Proof.
  unfold variadic. destruct xs as [|x xs'] eqn:E.
  { exists nilSlice, st.
    split; [reflexivity | split; [reflexivity | split; [exact I |]]].
    split; [by left | apply agreeBut_refl]. }
  rewrite <- E. clear E.
  destruct (alloc_ok strK lawful_strK (fun _ => eq_refl) xs st)
    as (st' & Hal & Hnew & Hn & Hag).
  exists (mkSlice (Some (next st)) (length xs) (length xs)), st'.
  unfold bind, ret. rewrite Hal.
  split; [reflexivity |].
  split; [unfold contents; cbn [arr len]; rewrite Hnew; apply firstn_all |].
  split; [unfold below; cbn [arr]; lia |].
  split; [right; exists (next st); split; [reflexivity | lia] | exact Hag].
Qed.

(** One call of the fluent interface. *)
Lemma apply_refines p (m : mutation) st q :
  builder m = true -> queries st !! p = Some q -> wellFormed st q ->
  exists st' q',
    apply p m st = Some (tt, st') /\ queries st' !! p = Some q'
    /\ wellFormed st' q' /\ view st' q' = onValue (view st q) m.
Proof.
  intros Hm Hq Hwf. destruct m; try discriminate Hm; clear Hm; cbn [apply onValue].
  - destruct (Select_refines p fields st q Hq Hwf) as (st' & q' & H & Hrest).
    exists st', q'. unfold bind, ret. by rewrite H.
  - destruct (addFilter_refines p (Filter.mk op field value nilSlice) st q Hq Hwf I)
      as (st' & q' & H & Hrest); [by repeat constructor |].
    exists st', q'. unfold bind, ret. by rewrite H.
  - destruct (variadic_ok values st) as (v & st0 & Hvar & Hc & Bv & Hmv & Hag).
    destruct (wellFormed_kept st st0 q Hag Hwf) as [Hwf0 Hview0].
    pose proof Hag as (Hnext & Hq0 & _).
    assert (Forall (apart v) (lists q)) as Hap.
    { destruct Hwf as (Hbl & _).
      rewrite Forall_forall in Hbl |- *. intros t Ht.
      eapply apart_moved; [exact Hmv | exact I | by apply Hbl]. }
    destruct (addFilter_refines p (Filter.mk RQL.OpIn field "" v) st0 q
                ltac:(by rewrite Hq0) Hwf0 Bv Hap) as (st' & q' & H & Hq' & Hwf' & Hview).
    exists st', q'. unfold In, bind, ret. rewrite Hvar, H.
    split; [reflexivity | split; [exact Hq' | split; [exact Hwf' |]]].
    rewrite Hview, Hview0. unfold viewFilter. cbn [Filter.Op Filter.Field
      Filter.Value Filter.Values]. by rewrite Hc.
  - destruct (Required_refines p fields st q Hq Hwf) as (st' & q' & H & Hrest).
    exists st', q'. unfold bind, ret. by rewrite H.
  - eexists _, _. unfold WithKeyword, bind, load, store_, ret. rewrite Hq.
    split; [reflexivity | split; [apply lookup_insert_eq |]].
    split; [apply wellFormed_stored; exact Hwf | reflexivity].
  - destruct (Sort_refines p field descending st q Hq Hwf) as (st' & q' & H & Hrest).
    exists st', q'. unfold bind, ret. by rewrite H.
  - eexists _, _. unfold Limit, bind, load, store_, ret. rewrite Hq.
    split; [reflexivity | split; [apply lookup_insert_eq |]].
    split; [apply wellFormed_stored; exact Hwf | reflexivity].
Qed.

Lemma applyAll_refines p (ms : list mutation) : forall st q,
  forallb builder ms = true -> queries st !! p = Some q -> wellFormed st q ->
  exists st' q',
    applyAll p ms st = Some (tt, st') /\ queries st' !! p = Some q'
    /\ wellFormed st' q'
    /\ view st' q' = fold_left onValue ms (view st q).
Proof.
  induction ms as [|m ms IH]; intros st q Hms Hq Hwf.
  - exists st, q.
    split; [reflexivity | split; [exact Hq | split; [exact Hwf | reflexivity]]].
  - cbn [forallb] in Hms. apply andb_true_iff in Hms as [Hm Hms].
    destruct (apply_refines p m st q Hm Hq Hwf) as (st1 & q1 & H1 & Hq1 & Hwf1 & Hv1).
    destruct (IH st1 q1 Hms Hq1 Hwf1) as (st2 & q2 & H2 & Hq2 & Hwf2 & Hv2).
    exists st2, q2. cbn [applyAll fold_left]. unfold bind. rewrite H1, H2, Hv2, Hv1.
    split; [reflexivity | split; [exact Hq2 | split; [exact Hwf2 | reflexivity]]].
Qed.

Lemma NewQuery_wellFormed st :
  exists st1 q,
    NewQuery st = Some (next st, st1) /\ queries st1 !! next st = Some q
    /\ wellFormed st1 q /\ view st1 q = RQL.NewQuery.
Proof.
  eexists _, _. split; [reflexivity |].
  split; [apply lookup_insert_eq |].
  split; [| reflexivity].
  unfold wellFormed. cbn.
  split; [by repeat constructor |]. by repeat split.
Qed.

End BuilderFacts.

Module BuilderProps.
Import Mem.

(** X25. The fluent interface accumulates. Whatever the store holds,
    a query made by [NewQuery] and then given any sequence of the calls
    [Select], [Eq] ... [Ge], [In], [Required], [WithKeyword], [Sort] and
    [Limit] never panics, and reads afterwards as the value obtained by
    the same calls on lists: every [append] of the chain, in place or
    into a new array, adds at the end of its own list and changes no
    other. *)
Theorem builders_accumulate (st : store) (ms : list mutation) :
  forallb builder ms = true ->
  exists p st1 st2,
    NewQuery st = Some (p, st1)
    /\ applyAll p ms st1 = Some (tt, st2)
    /\ viewAt st2 p = Some (fold_left onValue ms RQL.NewQuery)
    /\ Build st2 p = Some (RQL.Build (fold_left onValue ms RQL.NewQuery)).
Proof.
  intros Hms.
  destruct (BuilderFacts.NewQuery_wellFormed st) as (st1 & q & Hnew & Hq & Hwf & Hview).
  destruct (BuilderFacts.applyAll_refines (next st) ms st1 q Hms Hq Hwf)
    as (st2 & q2 & Hall & Hq2 & _ & Hview2).
  exists (next st), st1, st2.
  split; [exact Hnew | split; [exact Hall |]].
  unfold Build, viewAt. rewrite Hq2. cbn [fmap option_fmap option_map].
  by rewrite Hview2, Hview.
Qed.

Lemma builders_accumulate_witness :
  exists p st1 st2,
    NewQuery emptyStore = Some (p, st1)
    /\ applyAll p [DoSelect ["genome_id"]; DoFilter RQL.OpEq "genus" "Escherichia";
                   DoIn "status" ["a"; "b"]; DoSelect ["genome_name"];
                   DoSort "genome_id" true; DoLimit 10] st1 = Some (tt, st2)
    /\ viewAt st2 p
       = Some (fold_left onValue
                 [DoSelect ["genome_id"]; DoFilter RQL.OpEq "genus" "Escherichia";
                  DoIn "status" ["a"; "b"]; DoSelect ["genome_name"];
                  DoSort "genome_id" true; DoLimit 10] RQL.NewQuery)
    /\ Build st2 p
       = Some (RQL.Build
                 (fold_left onValue
                    [DoSelect ["genome_id"]; DoFilter RQL.OpEq "genus" "Escherichia";
                     DoIn "status" ["a"; "b"]; DoSelect ["genome_name"];
                     DoSort "genome_id" true; DoLimit 10] RQL.NewQuery)).
Proof.
  apply (builders_accumulate emptyStore
           [DoSelect ["genome_id"]; DoFilter RQL.OpEq "genus" "Escherichia";
            DoIn "status" ["a"; "b"]; DoSelect ["genome_name"];
            DoSort "genome_id" true; DoLimit 10]).
  reflexivity.
Defined.

End BuilderProps.

(** ** The options of [NewClient] *)

Module OptionFacts.
Import Client StrFacts.

Lemma TrimSuffix_slash (u : string) : Str.TrimSuffix (u +:+ "/") "/" = u.
Proof.
  unfold Str.TrimSuffix, Str.hasSuffix. rewrite rev_app. simpl Str.rev.
  cbn [String.append Str.hasPrefix]. rewrite Ascii.eqb_refl.
  rewrite length_append. simpl String.length.
  replace (String.length u + 1 - 1)%nat with (String.length u) by lia.
  apply substring_0.
Qed.

Lemma NewClientWith_last (opts : list ClientOption) (o : ClientOption) :
  NewClientWith (opts ++ [o]) = o (NewClientWith opts).
Proof. unfold NewClientWith. by rewrite fold_left_app. Qed.

End OptionFacts.

Module OptionProps.
Import Client.

(** X24. [WithBaseURL] drops one trailing slash. Whatever options come
    before it, a base URL given as [u/] configures the base URL [u], so
    that the request URL of an object type is [u/type/] with single
    slashes; given [u//], one of the two slashes stays. Every other
    setting is the one the earlier options left. *)
Theorem WithBaseURL_trailing_slash (opts : list ClientOption) (u t : string) :
  let before := NewClientWith opts in
  let c := NewClientWith (opts ++ [WithBaseURL (u +:+ "/")]) in
  c = mkClient u (Token before) (ChunkSize before) (MaxRetries before) (Debug before)
  /\ requestURL c t = u +:+ "/" +:+ t +:+ "/"
  /\ BaseURL (NewClientWith (opts ++ [WithBaseURL (u +:+ "/" +:+ "/")]))
     = u +:+ "/".
Proof.
  cbv zeta. rewrite !OptionFacts.NewClientWith_last. unfold WithBaseURL, requestURL.
  cbn [BaseURL]. rewrite OptionFacts.TrimSuffix_slash.
  split; [reflexivity | split; [reflexivity |]].
  rewrite <- StrFacts.append_assoc. apply OptionFacts.TrimSuffix_slash.
Qed.

(** The options apply in order: the later of two settings stays. *)
Example options_in_order :
  NewClientWith [WithToken "t1"; WithBaseURL "https://example.org/api/";
                 WithDebug true; WithToken "t2"]
  = mkClient "https://example.org/api" "t2" DefaultChunkSize DefaultMaxRetries true.
Proof. reflexivity. Qed.

End OptionProps.

(** ** Tab-delimited rows, written and read back *)

Module TabularFacts.
Import Tabular StrFacts SplitFacts.

Lemma contains_rev c (s : string) : Str.contains c (Str.rev s) = Str.contains c s.
Proof.
  induction s as [|d s IH]; [reflexivity |].
  cbn [Str.rev]. rewrite contains_app, IH. cbn [Str.contains].
  destruct (Ascii.eqb c d); [apply orb_true_r | apply orb_false_r].
Qed.

Lemma rev_empty (s : string) : Str.rev s = "" -> s = "".
Proof. intros H. by rewrite <- (rev_involutive s), H. Qed.

(** The line end is trimmed and nothing else. *)
Lemma TrimRight_line (line : string) :
  line <> "" -> Str.contains newline line = false ->
  Str.hasSuffix line (String cr "") = false ->
  Str.TrimRight (line +:+ String newline "") (String cr (String newline "")) = line.
Proof.
  intros Hne Hnl Hcr. unfold Str.TrimRight. rewrite rev_app.
  change (Str.rev (String newline "")) with (String newline "").
  cbn [String.append Str.TrimLeft Str.contains].
  change (Ascii.eqb newline cr) with false.
  rewrite Ascii.eqb_refl.
  unfold Str.hasSuffix in Hcr. rewrite <- contains_rev in Hnl.
  change (Str.rev (String cr "")) with (String cr "") in Hcr.
  destruct (Str.rev line) as [|c r] eqn:E; [by apply rev_empty in E |].
  cbn [Str.hasPrefix Str.contains] in Hcr, Hnl.
  cbn [Str.TrimLeft Str.contains].
  rewrite (Ascii.eqb_sym c cr), (Ascii.eqb_sym c newline).
  destruct (Ascii.eqb cr c); [discriminate Hcr |].
  destruct (Ascii.eqb newline c); [discriminate Hnl |].
  by rewrite <- E, rev_involutive.
Qed.

Lemma readLineFrom_line (fuel : nat) (line more : string) :
  line <> "" -> Str.contains newline line = false ->
  Str.hasSuffix line (String cr "") = false ->
  readLineFrom (S fuel) (line +:+ String newline more) = Some (line, None, more).
Proof.
  intros Hne Hnl Hcr. cbn [readLineFrom]. unfold ReadString.
  rewrite (cut_app newline line more Hnl), (TrimRight_line line Hne Hnl Hcr).
  rewrite length_append. cbn [String.length andb].
  destruct line as [|c line]; [congruence | reflexivity].
Qed.

Lemma clean_row (row : list string) :
  forallb clean row = true ->
  Forall (fun p => Str.contains tab p = false) row
  /\ Str.contains newline (Str.Join row (String tab "")) = false.
Proof.
  induction row as [|f row IH]; [by split |].
  cbn [forallb]. intros H. apply andb_true_iff in H as [Hf Hrow].
  unfold clean in Hf. apply andb_true_iff in Hf as [Ht Hn].
  apply negb_true_iff in Ht, Hn. destruct (IH Hrow) as [IH1 IH2].
  split; [by constructor |].
  destruct row as [|g row]; [exact Hn |].
  change (Str.Join (f :: g :: row) (String tab ""))
    with (f +:+ String tab "" +:+ Str.Join (g :: row) (String tab "")).
  rewrite !contains_app, Hn, IH2. reflexivity.
Qed.

(** What a readable row needs. *)
Lemma readable_line (row : list string) :
  readable row = true ->
  let line := Str.Join row (String tab "") in
  line <> "" /\ Str.contains newline line = false
  /\ Str.hasSuffix line (String cr "") = false
  /\ Str.Split line tab = row.
Proof.
  unfold readable. cbv zeta. intros H.
  apply andb_true_iff in H as [H Hcr]. apply andb_true_iff in H as [Hclean Hne].
  apply negb_true_iff in Hcr, Hne. apply String.eqb_neq in Hne.
  destruct (clean_row row Hclean) as [Htab Hnl].
  split; [exact Hne | split; [exact Hnl | split; [exact Hcr |]]].
  destruct row as [|x row]; [by destruct Hne |].
  rewrite Split_count. by apply genSplit_Join.
Qed.

(** The text of some rows, written one after the other. *)
Lemma written_rows (rows : list (list string)) : forall w,
  separator w = String tab "" ->
  written (fold_left WriteRow rows w)
  = written w +:+ written (fold_left WriteRow rows NewTabWriter).
Proof.
  induction rows as [|row rows IH]; intros w Hw.
  - cbn [fold_left]. by rewrite append_nil_r.
  - cbn [fold_left].
    rewrite (IH (WriteRow w row)) by exact Hw.
    rewrite (IH (WriteRow NewTabWriter row)) by reflexivity.
    unfold WriteRow. cbn [written separator NewTabWriter]. rewrite Hw.
    cbn [String.append]. by rewrite !append_assoc.
Qed.

Lemma written_cons (row : list string) (rows : list (list string)) :
  written (fold_left WriteRow (row :: rows) NewTabWriter)
  = Str.Join row (String tab "")
    +:+ String newline (written (fold_left WriteRow rows NewTabWriter)).
Proof.
  cbn [fold_left]. rewrite written_rows by reflexivity.
  unfold WriteRow. cbn [written separator NewTabWriter String.append].
  by rewrite append_assoc.
Qed.

(** A reader past its header line, or without one. *)
Lemma readLine_row (t : TabReader) (row : list string) (more : string) :
  readable row = true ->
  rest t = Str.Join row (String tab "") +:+ String newline more ->
  readLine t
  = Some ((Str.Join row (String tab ""), None),
          mkReader more (headers t) (delimiter t) (hasHeader t) (headerRead t)).
Proof.
  intros Hrow Hrest. destruct (readable_line row Hrow) as (Hne & Hnl & Hcr & _).
  unfold readLine. rewrite Hrest.
  by rewrite (readLineFrom_line _ _ more Hne Hnl Hcr).
Qed.

Lemma Read_row (t : TabReader) (row : list string) (more : string) :
  delimiter t = tab -> hasHeader t = false \/ headerRead t = true ->
  readable row = true ->
  rest t = Str.Join row (String tab "") +:+ String newline more ->
  Read t = Some ((row, None), mkReader more (headers t) tab (hasHeader t) true).
Proof.
  intros Hd Hh Hrow Hrest. destruct (readable_line row Hrow) as (_ & _ & _ & Hsplit).
  unfold Read, Headers.
  destruct (headerRead t) eqn:Hr; cbn [negb].
  - rewrite (readLine_row t row more Hrow Hrest). cbn [delimiter].
    by rewrite Hd, Hsplit, Hr.
  - destruct Hh as [Hh | Hh]; [| discriminate Hh].
    cbn [hasHeader]. rewrite Hh. cbn [negb].
    rewrite (readLine_row (mkReader (rest t) (headers t) (delimiter t) false true)
               row more Hrow Hrest).
    cbn [delimiter headers hasHeader headerRead].
    by rewrite Hd, Hsplit.
Qed.

Lemma Read_end (t : TabReader) :
  hasHeader t = false \/ headerRead t = true -> rest t = "" ->
  Read t = Some (([], Some EOF),
                 mkReader "" (headers t) (delimiter t) (hasHeader t) true).
Proof.
  intros Hh Hrest. unfold Read, Headers.
  destruct (headerRead t) eqn:Hr; cbn [negb].
  - unfold readLine. rewrite Hrest. cbn. by rewrite Hr.
  - destruct Hh as [Hh | Hh]; [| discriminate Hh].
    cbn [hasHeader]. rewrite Hh. cbn [negb].
    unfold readLine. cbn [rest]. rewrite Hrest. reflexivity.
Qed.

(** A batch is the next rows of the text. *)
Lemma readBatchLoop_rows (keyCol : Z) (left : nat) :
  forall (rows : list (list string)) (t : TabReader) keys acc,
    delimiter t = tab -> hasHeader t = false \/ headerRead t = true ->
    forallb readable rows = true ->
    rest t = written (fold_left WriteRow rows NewTabWriter) ->
    exists t',
      readBatchLoop left keyCol t keys acc
      = Some ((keys ++ map (keyAt keyCol) (take left rows),
               acc ++ take left rows, None), t')
      /\ delimiter t' = tab /\ (hasHeader t' = false \/ headerRead t' = true)
      /\ rest t' = written (fold_left WriteRow (drop left rows) NewTabWriter).
Proof.
  induction left as [|left IH]; intros rows t keys acc Hd Hh Hrows Hrest.
  - exists t. cbn [readBatchLoop take drop map]. rewrite !app_nil_r. by repeat split.
  - cbn [readBatchLoop]. destruct rows as [|row rows].
    + rewrite (Read_end t Hh Hrest). eexists. cbn [take drop map].
      rewrite !app_nil_r. split; [reflexivity |].
      cbn [delimiter hasHeader headerRead rest].
      split; [exact Hd | split; [by right | reflexivity]].
    + cbn [forallb] in Hrows. apply andb_true_iff in Hrows as [Hrow Hrows].
      rewrite written_cons in Hrest.
      rewrite (Read_row t row _ Hd Hh Hrow Hrest).
      destruct (IH rows (mkReader (written (fold_left WriteRow rows NewTabWriter))
                                  (headers t) tab (hasHeader t) true)
                   (keys ++ [keyAt keyCol row]) (acc ++ [row])
                   eq_refl ltac:(by right) Hrows eq_refl)
        as (t' & Hloop & Hrest').
      exists t'. rewrite Hloop. cbn [take drop map].
      by rewrite <- !app_assoc.
Qed.

Lemma indexOf_first (col : string) (hs : list string) : forall (i : nat) (k : Z),
  hs !! i = Some col -> (forall j, (j < i)%nat -> hs !! j <> Some col) ->
  indexOf col hs k = Some (k + Z.of_nat i).
Proof.
  induction hs as [|h hs IH]; intros i k Hi Hfirst; [discriminate Hi |].
  cbn [indexOf]. destruct i as [|i].
  - injection Hi as ->. rewrite String.eqb_refl. f_equal. lia.
  - destruct (String.eqb_spec h col) as [-> | _].
    + by destruct (Hfirst O ltac:(lia)).
    + rewrite (IH i (k + 1)); [f_equal; lia | exact Hi |].
      intros j Hj. apply (Hfirst (S j)). lia.
Qed.

Lemma indexOf_none (col : string) (hs : list string) (k : Z) :
  col ∉ hs -> indexOf col hs k = None.
Proof.
  revert k. induction hs as [|h hs IH]; intros k Hno; [reflexivity |].
  cbn [indexOf]. apply not_elem_of_cons in Hno as [Hne Hno].
  destruct (String.eqb_spec h col) as [-> | _]; [by destruct Hne | by apply IH].
Qed.

Lemma Headers_state (t t' : TabReader) (hs : list string) :
  hasHeader t = true -> headerRead t = false ->
  Headers t = Some ((hs, None), t') -> headers t' = hs.
Proof.
  unfold Headers. intros -> ->. cbn [negb hasHeader].
  destruct (readLine _) as [[[line [err|]] t1]|]; [discriminate | | discriminate].
  by intros [= <- <-].
Qed.

(** *** Any input *)

Lemma contains_TrimLeft c (s cutset : string) :
  Str.contains c s = false -> Str.contains c (Str.TrimLeft s cutset) = false.
Proof.
  induction s as [|d s IH]; [done |]. cbn [Str.TrimLeft].
  destruct (Str.contains d cutset); [| done].
  cbn [Str.contains]. destruct (Ascii.eqb c d); [discriminate | exact IH].
Qed.

Lemma contains_TrimRight c (s cutset : string) :
  Str.contains c s = false -> Str.contains c (Str.TrimRight s cutset) = false.
Proof.
  intros H. unfold Str.TrimRight. rewrite contains_rev.
  apply contains_TrimLeft. by rewrite contains_rev.
Qed.

Lemma TrimRight_newline (s : string) :
  Str.TrimRight (s +:+ String newline "") (String cr (String newline ""))
  = Str.TrimRight s (String cr (String newline "")).
Proof.
  unfold Str.TrimRight. rewrite rev_app.
  change (Str.rev (String newline "")) with (String newline "").
  reflexivity.
Qed.

(** The loop of [readLine] ends within the length of the input, with a
    line that holds no line feed. *)
Lemma readLineFrom_total (fuel : nat) : forall input : string,
  (String.length input < fuel)%nat ->
  exists line err input',
    readLineFrom fuel input = Some (line, err, input')
    /\ (err = None \/ err = Some EOF)
    /\ Str.contains newline line = false.
Proof.
  induction fuel as [|fuel IH]; intros input Hlen; [lia |].
  cbn [readLineFrom]. unfold ReadString.
  destruct (Str.cut newline input) as [[before after]|] eqn:E.
  - apply cut_Some in E as [-> Hbefore].
    rewrite length_append in *. cbn [String.length andb] in *.
    rewrite TrimRight_newline.
    destruct (String.eqb _ "" && negb false) eqn:Hskip.
    + apply IH. lia.
    + eexists _, _, _. split; [reflexivity | split; [by left |]].
      by apply contains_TrimRight.
  - apply cut_None in E. cbn [andb negb]. rewrite andb_false_r.
    destruct (String.length input =? 0)%nat.
    + eexists _, _, _. split; [reflexivity | split; [by right | reflexivity]].
    + eexists _, _, _. split; [reflexivity | split; [by left |]].
      by apply contains_TrimRight.
Qed.

Lemma readLine_total (t : TabReader) :
  exists line err input',
    readLine t
    = Some ((line, err),
            mkReader input' (headers t) (delimiter t) (hasHeader t) (headerRead t))
    /\ (err = None \/ err = Some EOF)
    /\ Str.contains newline line = false.
Proof.
  destruct (readLineFrom_total (S (String.length (rest t))) (rest t) ltac:(lia))
    as (line & err & input' & H & Herr & Hline).
  exists line, err, input'. unfold readLine. by rewrite H.
Qed.

Lemma Join_pieces c (sep : string) (xs : list string) :
  Str.contains c (Str.Join xs sep) = false ->
  Forall (fun x => Str.contains c x = false) xs.
Proof.
  induction xs as [|x xs IH]; [constructor |].
  destruct xs as [|y ys]; [by repeat constructor |].
  change (Str.Join (x :: y :: ys) sep) with (x +:+ sep +:+ Str.Join (y :: ys) sep).
  rewrite !contains_app. intros H.
  apply orb_false_iff in H as [Hx H]. apply orb_false_iff in H as [_ H].
  constructor; [exact Hx | by apply IH].
Qed.

(** The fields of a line. *)
Lemma Split_fields (line : string) :
  Str.contains newline line = false ->
  Str.Split line tab <> []
  /\ Forall (fun f => clean f = true) (Str.Split line tab).
Proof.
  intros Hline. rewrite Split_count.
  pose proof (genSplit_length tab (Str.count tab line) line ltac:(lia)) as Hlen.
  pose proof (genSplit_pieces tab (Str.count tab line) line eq_refl) as Htab.
  pose proof (Join_genSplit tab (Str.count tab line) line) as Hjoin.
  rewrite <- Hjoin in Hline. apply Join_pieces in Hline.
  split; [intros H; by rewrite H in Hlen |].
  rewrite Forall_forall in Htab, Hline |- *. intros f Hf.
  unfold clean. by rewrite (Htab f Hf), (Hline f Hf).
Qed.

Lemma Read_total (t : TabReader) :
  delimiter t = tab ->
  exists row err t',
    Read t = Some ((row, err), t') /\ delimiter t' = tab
    /\ (err = Some EOF
        \/ err = None /\ row <> [] /\ Forall (fun f => clean f = true) row).
Proof.
  intros Hd. unfold Read.
  assert (exists hs err t1,
             (if negb (headerRead t) then Headers t else Some (([], None), t))
             = Some ((hs, err), t1)
             /\ delimiter t1 = tab /\ (err = None \/ err = Some EOF))
    as (hs & err & t1 & -> & Hd1 & Herr).
  { destruct (headerRead t) eqn:Hr; cbn [negb].
    - exists [], None, t. by repeat split; [| left].
    - unfold Headers. rewrite Hr. cbn [hasHeader].
      destruct (hasHeader t); cbn [negb].
      + destruct (readLine_total (mkReader (rest t) (headers t) (delimiter t) true true))
          as (line & e & input' & -> & He & _).
        cbn [headers delimiter hasHeader headerRead rest].
        destruct He as [-> | ->]; eexists _, _, _;
          (split; [reflexivity | split; [exact Hd |]]); [by left | by right].
      + eexists _, _, _. split; [reflexivity | split; [exact Hd | by left]]. }
  destruct Herr as [-> | ->].
  - destruct (readLine_total t1) as (line & e & input' & -> & He & Hline).
    rewrite Hd1. cbn [delimiter].
    destruct He as [-> | ->]; eexists _, _, _;
      (split; [reflexivity | split; [reflexivity |]]).
    + right. split; [reflexivity |]. by apply Split_fields.
    + by left.
  - eexists _, _, _. split; [reflexivity | split; [exact Hd1 | by left]].
Qed.

Lemma readBatchLoop_total (keyCol : Z) (left : nat) :
  forall (t : TabReader) keys acc,
    delimiter t = tab ->
    exists rows t',
      readBatchLoop left keyCol t keys acc
      = Some ((keys ++ map (keyAt keyCol) rows, acc ++ rows, None), t')
      /\ delimiter t' = tab /\ (length rows <= left)%nat
      /\ Forall (fun row => row <> [] /\ Forall (fun f => clean f = true) row) rows.
Proof.
  induction left as [|left IH]; intros t keys acc Hd.
  - exists [], t. cbn [readBatchLoop map length]. rewrite !app_nil_r.
    split; [reflexivity | split; [exact Hd | split; [lia | constructor]]].
  - cbn [readBatchLoop].
    destruct (Read_total t Hd) as (row & err & t1 & -> & Hd1 & [-> | (-> & Hrow)]).
    + exists [], t1. cbn [map length]. rewrite !app_nil_r.
      split; [reflexivity | split; [exact Hd1 | split; [lia | constructor]]].
    + destruct (IH t1 (keys ++ [keyAt keyCol row]) (acc ++ [row]) Hd1)
        as (rows & t' & -> & Hd' & Hlen & Hrows).
      exists (row :: rows), t'. cbn [map length]. rewrite <- !app_assoc.
      split; [reflexivity | split; [exact Hd' | split; [lia |]]].
      by constructor.
Qed.

End TabularFacts.

Module TabularProps.
Import Tabular.

(** X26. What a [TabWriter] writes, a [TabReader] reads back. When the
    header row and every row are readable (no tab or line feed in a
    field, the line not empty and not ending in a carriage return),
    [Headers] on the written text returns the header row, a first
    [ReadBatch(n, keyCol)] returns the first [n] rows with their keys, and
    a second [ReadBatch(m, keyCol)] the next [m] rows; a batch that runs
    into the end of the input is short and carries no error. Without a
    header line, the first batch starts at the first row. *)
Theorem written_rows_read_back (hdr : list string) (rows : list (list string))
        (n m keyCol : Z) :
  readable hdr = true -> forallb readable rows = true ->
  let first := take (Z.to_nat n) rows in
  let second := take (Z.to_nat m) (drop (Z.to_nat n) rows) in
  (exists t1 t2 t3,
      Headers (NewTabReader
                 (written (fold_left WriteRow rows (WriteHeaders NewTabWriter hdr)))
                 true)
      = Some ((hdr, None), t1)
      /\ ReadBatch t1 n keyCol = Some ((map (keyAt keyCol) first, first, None), t2)
      /\ ReadBatch t2 m keyCol = Some ((map (keyAt keyCol) second, second, None), t3))
  /\ (exists t,
         ReadBatch (NewTabReader (written (fold_left WriteRow rows NewTabWriter)) false)
                   n keyCol
         = Some ((map (keyAt keyCol) first, first, None), t)).
Proof.
  intros Hhdr Hrows. cbv zeta. split.
  - set (t1 := mkReader (written (fold_left WriteRow rows NewTabWriter)) hdr tab true true).
    destruct (TabularFacts.readBatchLoop_rows keyCol (Z.to_nat n) rows t1 [] []
                eq_refl ltac:(by right) Hrows eq_refl)
      as (t2 & H2 & Hd2 & Hh2 & Hrest2).
    assert (forallb readable (drop (Z.to_nat n) rows) = true) as Hrows2.
    { rewrite forallb_forall in Hrows |- *. intros r Hr. apply Hrows.
      rewrite <- (take_drop (Z.to_nat n) rows). apply in_or_app. by right. }
    destruct (TabularFacts.readBatchLoop_rows keyCol (Z.to_nat m) _ t2 [] []
                Hd2 Hh2 Hrows2 Hrest2)
      as (t3 & H3 & _).
    exists t1, t2, t3. split; [| split; [exact H2 | exact H3]].
    unfold Headers, WriteHeaders. cbn [NewTabReader headerRead hasHeader negb].
    change (fold_left WriteRow rows (WriteRow NewTabWriter hdr))
      with (fold_left WriteRow (hdr :: rows) NewTabWriter).
    rewrite (TabularFacts.readLine_row _ hdr
               (written (fold_left WriteRow rows NewTabWriter)) Hhdr)
      by (cbn [rest]; apply TabularFacts.written_cons).
    unfold NewTabReader. cbn [delimiter rest headers hasHeader headerRead].
    destruct (TabularFacts.readable_line hdr Hhdr) as (_ & _ & _ & ->).
    reflexivity.
  - destruct (TabularFacts.readBatchLoop_rows keyCol (Z.to_nat n) rows
                (NewTabReader (written (fold_left WriteRow rows NewTabWriter)) false)
                [] [] eq_refl ltac:(by left) Hrows eq_refl)
      as (t & H & _).
    by exists t.
Qed.

Lemma written_rows_read_back_witness :
  (exists t1 t2 t3,
      Headers (NewTabReader
                 (written (fold_left WriteRow [["g1"; "x"]; ["g2"; ""]; ["g3"; "z"]]
                                     (WriteHeaders NewTabWriter ["genome_id"; "note"])))
                 true)
      = Some ((["genome_id"; "note"], None), t1)
      /\ ReadBatch t1 2 0 = Some ((["g1"; "g2"], [["g1"; "x"]; ["g2"; ""]], None), t2)
      /\ ReadBatch t2 2 0 = Some ((["g3"], [["g3"; "z"]], None), t3))
  /\ (exists t,
         ReadBatch (NewTabReader
                      (written (fold_left WriteRow [["g1"; "x"]; ["g2"; ""]; ["g3"; "z"]]
                                          NewTabWriter)) false) 2 0
         = Some ((["g1"; "g2"], [["g1"; "x"]; ["g2"; ""]], None), t)).
Proof.
  apply (written_rows_read_back ["genome_id"; "note"]
           [["g1"; "x"]; ["g2"; ""]; ["g3"; "z"]] 2 2 0); reflexivity.
Defined.

(** X27. The key column chosen by name. For a column name in the
    header line just read (a name that is not empty and that [Atoi]
    does not read as a number), [FindColumn] returns the place of the
    first header equal to it, and [ReadBatch] takes as the key of a row
    the field at that place, the empty string when the row is too
    short; a name that is not among the headers is refused. *)
Theorem FindColumn_by_name (t t' : TabReader) (hs : list string) (col : string) :
  col <> "" -> snd (Dec.Atoi col) = true ->
  hasHeader t = true -> headerRead t = false ->
  Headers t = Some ((hs, None), t') ->
  (forall i : nat,
      hs !! i = Some col -> (forall j, (j < i)%nat -> hs !! j <> Some col) ->
      FindColumn t' col = (Z.of_nat i, None)
      /\ forall row, keyAt (Z.of_nat i) row = default "" (row !! i))
  /\ (col ∉ hs -> FindColumn t' col = (0, Some (ErrColumnNotFound col))).
Proof.
  intros Hne Hnum Hh Hr Hhs.
  rewrite <- (TabularFacts.Headers_state t t' hs Hh Hr Hhs).
  assert (FindColumn t' col
          = match indexOf col (headers t') 0 with
            | Some i => (i, None)
            | None => (0, Some (ErrColumnNotFound col))
            end) as Hfind.
  { unfold FindColumn.
    destruct (String.eqb_spec col "") as [-> | _]; [by destruct Hne |].
    destruct (String.eqb_spec col "0") as [-> | _]; [discriminate Hnum |].
    cbn [orb]. destruct (Dec.Atoi col) as [idx err]. cbn [snd] in Hnum.
    by rewrite Hnum. }
  split.
  - intros i Hi Hfirst. rewrite Hfind.
    rewrite (TabularFacts.indexOf_first col _ i 0 Hi Hfirst).
    split; [reflexivity |]. intros row. unfold keyAt.
    destruct (Z.ltb_spec (Z.of_nat i) 0) as [Hneg | _]; [lia |].
    rewrite Nat2Z.id.
    destruct (Z.ltb_spec (Z.of_nat i) (Z.of_nat (length row))) as [Hin | Hout].
    + destruct (lookup_lt_is_Some_2 row i ltac:(lia)) as [x Hx].
      rewrite Hx. cbn [default id]. by apply nth_lookup_Some.
    + by rewrite lookup_ge_None_2 by lia.
  - intros Hno. by rewrite Hfind, TabularFacts.indexOf_none.
Qed.

Lemma FindColumn_by_name_witness :
  (forall i : nat,
      ["genome_id"; "note"; "note"] !! i = Some "note" ->
      (forall j, (j < i)%nat -> ["genome_id"; "note"; "note"] !! j <> Some "note") ->
      FindColumn (mkReader "g1" ["genome_id"; "note"; "note"] tab true true) "note"
      = (Z.of_nat i, None)
      /\ forall row, keyAt (Z.of_nat i) row = default "" (row !! i))
  /\ ("note" ∉ ["genome_id"; "note"; "note"] ->
      FindColumn (mkReader "g1" ["genome_id"; "note"; "note"] tab true true) "note"
      = (0, Some (ErrColumnNotFound "note"))).
Proof.
  apply (FindColumn_by_name
           (NewTabReader ("genome_id" +:+ String tab ("note" +:+ String tab
                            ("note" +:+ String newline "g1"))) true));
    [discriminate | reflexivity | reflexivity | reflexivity | reflexivity].
Defined.

(** X28. [ReadBatch] on any input. Whatever text is left to read and
    whatever the state of the reader, [ReadBatch(n, keyCol)] returns (the
    loop of [readLine] over empty lines ends) and returns no error: at
    most [n] rows, each with at least one field, no field holding a tab
    or a line feed, and for each row its key. *)
Theorem ReadBatch_any_input (t : TabReader) (n keyCol : Z) :
  delimiter t = tab ->
  exists rows t',
    ReadBatch t n keyCol = Some ((map (keyAt keyCol) rows, rows, None), t')
    /\ Z.of_nat (length rows) <= Z.max 0 n
    /\ Forall (fun row => row <> [] /\ Forall (fun f => clean f = true) row) rows.
Proof.
  intros Hd.
  destruct (TabularFacts.readBatchLoop_total keyCol (Z.to_nat n) t [] [] Hd)
    as (rows & t' & H & _ & Hlen & Hrows).
  exists rows, t'. split; [exact H | split; [lia | exact Hrows]].
Qed.

Lemma ReadBatch_any_input_witness :
  exists rows t',
    ReadBatch (NewTabReader
                 (String newline (String cr (String newline
                    ("a" +:+ String tab (String tab ("b" +:+ String cr
                       (String newline (String newline (String cr "")))))))))
                 false) 5 1
    = Some ((map (keyAt 1) rows, rows, None), t')
    /\ Z.of_nat (length rows) <= Z.max 0 5
    /\ Forall (fun row => row <> [] /\ Forall (fun f => clean f = true) row) rows.
Proof.
  apply (ReadBatch_any_input
           (NewTabReader
              (String newline (String cr (String newline
                 ("a" +:+ String tab (String tab ("b" +:+ String cr
                    (String newline (String newline (String cr "")))))))))
              false) 5 1).
  reflexivity.
Defined.

(** Rows that are not readable: a row of one empty field makes an empty
    line, which the reader skips; a carriage return at the end of a row
    is lost with the line end. *)
Example unreadable_rows :
  fst <$> ReadBatch (NewTabReader
                       (written (fold_left WriteRow
                                   [["a"]; [""]; ["b"; String cr ""]; []; ["c"]]
                                   NewTabWriter)) false) 10 0
  = Some (["a"; "b"; "c"], [["a"]; ["b"; ""]; ["c"]], None).
Proof. vm_compute. reflexivity. Qed.

End TabularProps.
